(** * temporal-mcp: idempotent invocation, result cache and history redaction

    A shallow embedding of the Go sources of the repository
    (cmd/temporal-mcp and internal/tool) together with the parts of the Go
    standard library they call (unicode/utf8, encoding/json, hash/fnv, fmt,
    text/template), followed by the properties established about them.

    Conventions.
    - A Go [string] and a Go [[]byte] are both byte sequences: they are
      modelled by [string], whose characters are the 256 byte values.
    - A Go [map[string]string] is [option (gmap string string)]: [None] is the
      nil map, [Some m] an allocated one.
    - Mutable state (the SQLite table, the log, the calls made to the
      workflow engine) is passed explicitly. *)

From Stdlib Require Import ZArith NArith Ascii String List Lia Bool.
From Stdlib Require Import DecimalString Decimal.
From stdpp Require Import base option list sorting strings gmap fin_maps.

Local Open Scope N_scope.

(** ** Go strings *)

Module gostring.

Definition byteN (c : ascii) : N := N_of_ascii c.

Fixpoint take (n : nat) (s : string) : string :=
  match n, s with
  | S n', String c t => String c (take n' t)
  | _, _ => EmptyString
  end.

Fixpoint drop (n : nat) (s : string) : string :=
  match n, s with
  | S n', String _ t => drop n' t
  | _, _ => s
  end.

(** [s[i]] for an index the caller has bounds-checked. *)
Definition at_ (s : string) (i : nat) : N :=
  match String.get i s with
  | Some c => byteN c
  | None => 0
  end.

Fixpoint concat (l : list string) : string :=
  match l with
  | [] => EmptyString
  | s :: l' => s +:+ concat l'
  end.

(** The one-byte string holding the double quote (0x22). *)
Definition dquote : string := String (ascii_of_nat 34) EmptyString.

(** [strings.Join] *)
Fixpoint Join (elems : list string) (sep : string) : string :=
  match elems with
  | [] => EmptyString
  | [s] => s
  | s :: rest => s +:+ sep +:+ Join rest sep
  end.

(** [strings.HasPrefix] and [strings.HasSuffix] *)
Definition HasPrefix (s pre : string) : bool := String.prefix pre s.

Definition HasSuffix (s suffix : string) : bool :=
  let n := String.length s in
  let k := String.length suffix in
  (k <=? n)%nat && String.eqb (drop (n - k) s) suffix.

(** [strings.Contains] *)
Fixpoint Contains (s substr : string) : bool :=
  HasPrefix s substr ||
  match s with
  | EmptyString => false
  | String _ t => Contains t substr
  end.

End gostring.

(** ** unicode/utf8 *)

Module utf8.
Import gostring.

Definition RuneError : N := 0xFFFD.
Definition RuneSelf : N := 0x80.
Definition UTFMax : nat := 4.

(** The [first] table: information about the first byte of an encoding.
    [0xF0] is ASCII, [0xF1] is invalid, otherwise the low three bits give
    the size and the high nibble indexes [acceptRanges]. *)
Definition first (s0 : N) : N :=
  if s0 <? 0x80 then 0xF0
  else if s0 <? 0xC2 then 0xF1
  else if s0 <? 0xE0 then 0x02
  else if s0 =? 0xE0 then 0x13
  else if s0 <? 0xED then 0x03
  else if s0 =? 0xED then 0x23
  else if s0 <? 0xF0 then 0x03
  else if s0 =? 0xF0 then 0x34
  else if s0 <? 0xF4 then 0x04
  else if s0 =? 0xF4 then 0x44
  else 0xF1.

Definition acceptRanges (i : N) : N * N :=
  match i with
  | 0 => (0x80, 0xBF)
  | 1 => (0xA0, 0xBF)
  | 2 => (0x80, 0x9F)
  | 3 => (0x90, 0xBF)
  | _ => (0x80, 0x8F)
  end.

Definition locb : N := 0x80.
Definition hicb : N := 0xBF.
Definition maskx : N := 0x3F.
Definition mask2 : N := 0x1F.
Definition mask3 : N := 0x0F.
Definition mask4 : N := 0x07.

(** [utf8.DecodeRuneInString]: the first rune of [s] and its width in
    bytes; [(RuneError, 1)] for an invalid encoding. *)
Definition DecodeRuneInString (s : string) : N * nat :=
  let n := String.length s in
  if (n <? 1)%nat then (RuneError, 0%nat) else
  let s0 := at_ s 0 in
  let x := first s0 in
  if 0xF0 <=? x then
    ((if N.testbit x 0 then RuneError else s0), 1%nat)
  else
    let sz := N.to_nat (N.land x 7) in
    let '(lo, hi) := acceptRanges (N.shiftr x 4) in
    if (n <? sz)%nat then (RuneError, 1%nat) else
    let s1 := at_ s 1 in
    if (s1 <? lo) || (hi <? s1) then (RuneError, 1%nat) else
    if (sz <=? 2)%nat then
      (N.lor (N.shiftl (N.land s0 mask2) 6) (N.land s1 maskx), 2%nat)
    else
    let s2 := at_ s 2 in
    if (s2 <? locb) || (hicb <? s2) then (RuneError, 1%nat) else
    if (sz <=? 3)%nat then
      (N.lor (N.lor (N.shiftl (N.land s0 mask3) 12)
                    (N.shiftl (N.land s1 maskx) 6))
             (N.land s2 maskx), 3%nat)
    else
    let s3 := at_ s 3 in
    if (s3 <? locb) || (hicb <? s3) then (RuneError, 1%nat) else
    (N.lor (N.lor (N.lor (N.shiftl (N.land s0 mask4) 18)
                         (N.shiftl (N.land s1 maskx) 12))
                  (N.shiftl (N.land s2 maskx) 6))
           (N.land s3 maskx), 4%nat).

(** Validity of a string as UTF-8, in the terms of
    [DecodeRuneInString]: scanning rune by rune, no position yields an
    encoding error (this is what [utf8.ValidString] decides). The scan
    advances by the width of each rune; [fuel] bounds its iterations and
    [String.length s] always suffices. *)
Fixpoint valid_loop (fuel : nat) (s : string) : bool :=
  match fuel with
  | O => match s with EmptyString => true | _ => false end
  | S fuel' =>
    match s with
    | EmptyString => true
    | String c rest =>
      if byteN c <? RuneSelf then valid_loop fuel' rest
      else
        let '(r, size) := DecodeRuneInString (take UTFMax s) in
        if (r =? RuneError) && (size =? 1)%nat then false
        else valid_loop fuel' (drop size s)
    end
  end.

Definition valid (s : string) : bool := valid_loop (String.length s) s.

End utf8.

(** ** encoding/json *)

Module json.
Import gostring.

Definition hex : string := "0123456789abcdef".

Definition hexDigit (n : N) : string :=
  match String.get (N.to_nat n) hex with
  | Some c => String c EmptyString
  | None => EmptyString
  end.

(** [htmlSafeSet]: the ASCII bytes that are written without escaping when
    HTML escaping is on (the default of [json.Marshal]). *)
Definition htmlSafeSet (b : N) : bool :=
  (0x20 <=? b) && (b <? 0x80) &&
  negb ((b =? 0x22) || (b =? 0x26) || (b =? 0x3C) || (b =? 0x3E) || (b =? 0x5C)).

(** The escape written for an ASCII byte outside [htmlSafeSet]. *)
Definition escapeByte (c : ascii) : string :=
  let b := byteN c in
  if (b =? 0x5C) || (b =? 0x22) then String "\" (String c EmptyString)
  else if b =? 0x08 then "\b"
  else if b =? 0x0C then "\f"
  else if b =? 0x0A then "\n"
  else if b =? 0x0D then "\r"
  else if b =? 0x09 then "\t"
  else "\u00" +:+ hexDigit (N.shiftr b 4) +:+ hexDigit (N.land b 0xF).

(** The loop of [appendString]. The Go loop keeps an index [i] into [src]
    and copies unescaped stretches lazily; here [src] is the part of the
    string from [i] on and every byte is emitted as soon as it is passed.
    Each iteration consumes at least one byte, so [String.length src]
    iterations are enough. *)
Fixpoint appendString_loop (fuel : nat) (src : string) : string :=
  match fuel with
  | O => EmptyString
  | S fuel' =>
    match src with
    | EmptyString => EmptyString
    | String c rest =>
      if byteN c <? utf8.RuneSelf then
        (if htmlSafeSet (byteN c) then String c EmptyString else escapeByte c)
          +:+ appendString_loop fuel' rest
      else
        let '(r, size) := utf8.DecodeRuneInString (take utf8.UTFMax src) in
        if (r =? utf8.RuneError) && (size =? 1)%nat then
          "\ufffd" +:+ appendString_loop fuel' (drop size src)
        else if (r =? 0x2028) || (r =? 0x2029) then
          "\u202" +:+ hexDigit (N.land r 0xF)
            +:+ appendString_loop fuel' (drop size src)
        else
          take size src +:+ appendString_loop fuel' (drop size src)
    end
  end.

(** [appendString]: a Go string as a JSON string literal. *)
Definition appendString (src : string) : string :=
  dquote +:+ appendString_loop (String.length src) src +:+ dquote.

(** Map keys are sorted with [strings.Compare], i.e. bytewise. *)
Definition key_le (kv1 kv2 : string * string) : Prop := String.le kv1.1 kv2.1.

#[global] Instance key_le_dec : RelDecision key_le.
Proof. intros x y. unfold key_le. apply _. Defined.

Definition sortedEntries (m : gmap string string) : list (string * string) :=
  merge_sort key_le (map_to_list m).

Definition encodeEntry (kv : string * string) : string :=
  appendString kv.1 +:+ ":" +:+ appendString kv.2.

(** [mapEncoder.encode] for [map[string]string]. *)
Definition encodeMap (m : option (gmap string string)) : string :=
  match m with
  | None => "null"
  | Some m => "{" +:+ Join (encodeEntry <$> sortedEntries m) "," +:+ "}"
  end.

(** The values [json.Marshal] receives in this program: a string, an
    argument map, or the nil interface. *)
Inductive any : Type :=
| AnyString (s : string)
| AnyMap (m : option (gmap string string))
| AnyNil.

(** [json.Marshal]. It fails only on unsupported types (channels,
    functions, cyclic data), none of which is an [any] above. *)
Definition Marshal (v : any) : string :=
  match v with
  | AnyString s => appendString s
  | AnyMap m => encodeMap m
  | AnyNil => "null"
  end.

End json.

(** ** fmt and hash/fnv *)

Module fmt.
Import gostring.

(** [fmt.Sprintf("%x", b)] for a byte slice: two lower-case hexadecimal
    digits per byte. *)
Fixpoint Sprintf_x (b : string) : string :=
  match b with
  | EmptyString => EmptyString
  | String c rest =>
    json.hexDigit (N.shiftr (byteN c) 4) +:+ json.hexDigit (N.land (byteN c) 0xF)
      +:+ Sprintf_x rest
  end.

(** [fmt.Sprintf("%d", n)] for an unsigned integer. *)
Definition Sprintf_d (n : N) : string :=
  NilEmpty.string_of_uint (N.to_uint n).

(** [fmt.Sprint] / the verb [%+v] on the values of [json.any]: a string
    prints as itself, a map as [map[k1:v1 k2:v2]] with its keys in sorted
    order, the nil interface as [<nil>]. *)
Definition Sprint (v : json.any) : string :=
  match v with
  | json.AnyString s => s
  | json.AnyMap None => "map[]"
  | json.AnyMap (Some m) =>
    "map[" +:+ Join ((λ kv, kv.1 +:+ ":" +:+ kv.2) <$> json.sortedEntries m) " " +:+ "]"
  | json.AnyNil => "<nil>"
  end.

End fmt.

Module fnv.
Import gostring.

Definition offset32 : N := 2166136261.
Definition prime32 : N := 16777619.

(** The [Write] method of [sum32]: FNV-1, multiply then xor, on 32 bits. *)
Fixpoint Write (hash : N) (data : string) : N :=
  match data with
  | EmptyString => hash
  | String c rest =>
    Write (N.lxor ((hash * prime32) mod 2 ^ 32) (byteN c)) rest
  end.

Definition New32 : N := offset32.
Definition Sum32 (hash : N) : N := hash.

End fnv.

(** ** log *)

Module log.

(** [log.Printf] appends a line to the standard logger; a computation that
    logs returns its value together with the lines it wrote. *)
Definition Logged (A : Type) : Type := A * list string.

Definition ret {A} (a : A) : Logged A := (a, []).

Definition bind {A B} (m : Logged A) (f : A → Logged B) : Logged B :=
  let '(a, l1) := m in
  let '(b, l2) := f a in
  (b, l1 ++ l2).

Definition Printf (line : string) : Logged unit := (tt, [line]).

End log.

(** ** cmd/temporal-mcp/hash_args.go *)

Module hash_args.
Import gostring log.

Definition warning : string :=
  "Warning: No hash arguments provided - will hash all arguments. Please replace {{ hash }} with {{ hash . }} in the workflowIDRecipe".

(** The loop [for _, arg := range paramsToHash]: marshal each argument and
    feed the bytes to the hasher. [json.Marshal] cannot fail on the values
    of [json.any], so the error branch is never taken. *)
Fixpoint writeAll (hasher : N) (paramsToHash : list json.any) : N :=
  match paramsToHash with
  | [] => hasher
  | arg :: rest => writeAll (fnv.Write hasher (json.Marshal arg)) rest
  end.

(** [hashWorkflowArgs]: the pair of the hash and the error ([None] is nil),
    with the lines logged. *)
Definition hashWorkflowArgs (allParams : option (gmap string string))
    (paramsToHash : list json.any) : Logged (string * option string) :=
  bind (if (length paramsToHash =? 0)%nat
        then bind (Printf warning) (λ _, ret [json.AnyMap allParams])
        else ret paramsToHash)
    (λ paramsToHash,
       let hasher := fnv.New32 in
       let hasher := writeAll hasher paramsToHash in
       ret (fmt.Sprintf_d (fnv.Sum32 hasher), None)).

End hash_args.

(** ** text/template, restricted to the actions used by identity recipes *)

Module template.
Import gostring log.

(** An operand: the dot, or a chain of field names [.a.b]. *)
Inductive Operand : Type :=
| OpDot
| OpField (ident : list string).

(** An action: print the value of an operand, or print the result of the
    function [hash] called on operands. *)
Inductive Action : Type :=
| ActPrint (o : Operand)
| ActHash (args : list Operand).

Inductive Node : Type :=
| TextNode (text : string)
| ActionNode (a : Action).

(** The outcome of [Parse]. [OutsideFragment] is returned for templates
    that use syntax not modelled here (pipelines, variables, literals,
    keywords, built-in functions, trim markers, comments); nothing is
    claimed about them. *)
Inductive ParseResult : Type :=
| Parsed (tree : list Node)
| ParseError
| OutsideFragment.

Definition isLetter (c : ascii) : bool :=
  let b := byteN c in
  ((0x41 <=? b) && (b <=? 0x5A)) || ((0x61 <=? b) && (b <=? 0x7A)) || (b =? 0x5F).

Definition isDigit (c : ascii) : bool :=
  let b := byteN c in (0x30 <=? b) && (b <=? 0x39).

Fixpoint allChars (p : ascii → bool) (s : string) : bool :=
  match s with
  | EmptyString => true
  | String c t => p c && allChars p t
  end.

(** A name: a letter or underscore followed by letters, digits and
    underscores (ASCII only). *)
Definition isName (s : string) : bool :=
  match s with
  | EmptyString => false
  | String c t => isLetter c && allChars (λ c, isLetter c || isDigit c) t
  end.

(** [strings.Cut]: the text before and after the first occurrence of a
    non-empty separator. *)
Fixpoint Cut (s sep : string) : option (string * string) :=
  if HasPrefix s sep then Some (EmptyString, drop (String.length sep) s)
  else
    match s with
    | EmptyString => None
    | String c t =>
      match Cut t sep with
      | Some (before, after) => Some (String c before, after)
      | None => None
      end
    end.

(** Splits at every occurrence of the byte [sep]. *)
Fixpoint splitOn (sep : ascii) (s : string) : list string :=
  match s with
  | EmptyString => [EmptyString]
  | String c t =>
    if Ascii.eqb c sep then EmptyString :: splitOn sep t
    else
      match splitOn sep t with
      | w :: ws => String c w :: ws
      | [] => [String c EmptyString]
      end
  end.

(** The space-separated words of the inside of an action. *)
Definition words (s : string) : list string :=
  filter (λ w, w ≠ EmptyString) (splitOn " " s).

Definition keywordsAndBuiltins : list string :=
  ["block"; "break"; "continue"; "define"; "else"; "end"; "if"; "range";
   "nil"; "template"; "with"; "true"; "false";
   "and"; "call"; "html"; "index"; "slice"; "js"; "len"; "not"; "or";
   "print"; "printf"; "println"; "urlquery";
   "eq"; "ge"; "gt"; "le"; "lt"; "ne"].

(** Classification of a word of an action. *)
Inductive Word : Type :=
| WOperand (o : Operand)
| WHash
| WUndefined
| WOther.

Definition classify (w : string) : Word :=
  match w with
  | String c t =>
    if Ascii.eqb c "." then
      match t with
      | EmptyString => WOperand OpDot
      | _ =>
        let names := splitOn "." t in
        if forallb isName names then WOperand (OpField names) else WOther
      end
    else if isName w then
      if String.eqb w "hash" then WHash
      else if existsb (String.eqb w) keywordsAndBuiltins then WOther
      else WUndefined
    else WOther
  | EmptyString => WOther
  end.

(** The operands following [hash]; the first word that is not an operand
    decides between a parse error (a function that is not defined) and a
    template outside the fragment. *)
Fixpoint parseArgs (ws : list string) : ParseResult + list Operand :=
  match ws with
  | [] => inr []
  | w :: rest =>
    match classify w with
    | WOperand o =>
      match parseArgs rest with
      | inr os => inr (o :: os)
      | inl r => inl r
      end
    | WUndefined => inl ParseError
    | _ => inl OutsideFragment
    end
  end.

Definition parseAction (inside : string) : ParseResult + Action :=
  if negb (allChars (λ c, isLetter c || isDigit c || Ascii.eqb c "." || Ascii.eqb c " ")
             inside)
  then inl OutsideFragment
  else
    match words inside with
    | [] => inl ParseError
    | w :: rest =>
      match classify w with
      | WOperand o =>
        match rest with
        | [] => inr (ActPrint o)
        | _ => inl OutsideFragment
        end
      | WHash =>
        match parseArgs rest with
        | inr os => inr (ActHash os)
        | inl r => inl r
        end
      | WUndefined => inl ParseError
      | WOther => inl OutsideFragment
      end
    end.

Definition textNode (text : string) : list Node :=
  match text with
  | EmptyString => []
  | _ => [TextNode text]
  end.

(** The parse loop: text up to the next left delimiter, then an action up
    to the right delimiter. Every round consumes at least the two
    delimiters, so [String.length text] rounds suffice. *)
Fixpoint parse_loop (fuel : nat) (text : string) : ParseResult :=
  match fuel with
  | O => match text with EmptyString => Parsed [] | _ => OutsideFragment end
  | S fuel' =>
    match Cut text "{{" with
    | None => Parsed (textNode text)
    | Some (before, after) =>
      match Cut after "}}" with
      | None => ParseError
      | Some (inside, rest) =>
        match parseAction inside with
        | inl r => r
        | inr a =>
          match parse_loop fuel' rest with
          | Parsed nodes => Parsed (textNode before ++ ActionNode a :: nodes)
          | r => r
          end
        end
      end
    end
  end.

(** The method [Parse] of [Template]. *)
Definition Parse (text : string) : ParseResult :=
  parse_loop (String.length text) text.

(** A [reflect.Value] met during evaluation: the zero Value (a missing map
    entry), a string, or the argument map. *)
Inductive Value : Type :=
| VInvalid
| VString (s : string)
| VMap (m : option (gmap string string)).

(** [evalField]: a key of a map; a missing key gives the zero Value; the
    zero Value stays zero; a string has no fields, which is an error of
    execution ([None]). *)
Definition evalField (receiver : Value) (fieldName : string) : option Value :=
  match receiver with
  | VInvalid => Some VInvalid
  | VMap None => Some VInvalid
  | VMap (Some m) =>
    match m !! fieldName with
    | Some v => Some (VString v)
    | None => Some VInvalid
    end
  | VString _ => None
  end.

(** [evalFieldChain] *)
Fixpoint evalFieldChain (receiver : Value) (ident : list string) : option Value :=
  match ident with
  | [] => Some receiver
  | name :: rest =>
    match evalField receiver name with
    | Some v => evalFieldChain v rest
    | None => None
    end
  end.

Definition evalOperand (dot : option (gmap string string)) (o : Operand)
    : option Value :=
  match o with
  | OpDot => Some (VMap dot)
  | OpField ident => evalFieldChain (VMap dot) ident
  end.

(** [validateType] at the parameter type [any]: the zero Value becomes the
    nil interface. *)
Definition validateType (v : Value) : json.any :=
  match v with
  | VInvalid => json.AnyNil
  | VString s => json.AnyString s
  | VMap m => json.AnyMap m
  end.

(** [evalArg] for each argument of a variadic call. *)
Fixpoint evalArgs (dot : option (gmap string string)) (args : list Operand)
    : option (list json.any) :=
  match args with
  | [] => Some []
  | o :: rest =>
    match evalOperand dot o with
    | Some v =>
      match evalArgs dot rest with
      | Some vs => Some (validateType v :: vs)
      | None => None
      end
    | None => None
    end
  end.

(** [printValue]: the zero Value prints as [<no value>]. *)
Definition printValue (v : Value) : string :=
  match v with
  | VInvalid => "<no value>"
  | VString s => s
  | VMap m => fmt.Sprint (json.AnyMap m)
  end.

(** The function map: here the single function [hash], which returns a
    string and an error and may log. *)
Definition FuncMap : Type := list json.any → Logged (string * option string).

Definition evalAction (funcs : FuncMap) (dot : option (gmap string string))
    (a : Action) : Logged (option string) :=
  match a with
  | ActPrint o =>
    match evalOperand dot o with
    | Some v => ret (Some (printValue v))
    | None => ret None
    end
  | ActHash args =>
    match evalArgs dot args with
    | Some vs =>
      bind (funcs vs) (λ r,
        match r with
        | (out, None) => ret (Some out)
        | (_, Some _) => ret None
        end)
    | None => ret None
    end
  end.

(** The method [Execute] of [Template]: the output written when every action succeeds,
    [None] when one fails (what was written before is dropped by the
    caller). *)
Fixpoint Execute (funcs : FuncMap) (tree : list Node)
    (data : option (gmap string string)) : Logged (option string) :=
  match tree with
  | [] => ret (Some EmptyString)
  | TextNode text :: rest =>
    bind (Execute funcs rest data) (λ r, ret ((λ out, text +:+ out) <$> r))
  | ActionNode a :: rest =>
    bind (evalAction funcs data a) (λ r,
      match r with
      | Some out1 =>
        bind (Execute funcs rest data) (λ r2, ret ((λ out, out1 +:+ out) <$> r2))
      | None => ret None
      end)
  end.

End template.

(** ** time *)

Module time.

Local Open Scope Z_scope.

(** A [time.Duration] is a signed 64-bit count of nanoseconds. *)
Definition minDuration : Z := - 2 ^ 63.
Definition maxDuration : Z := 2 ^ 63 - 1.
Definition Second : Z := 1000000000.

(** The wall clock: an instant is its number of nanoseconds since the
    Unix epoch. *)
Definition Time : Type := Z.

(** [Time.Unix]: whole seconds since the epoch. *)
Definition Unix_of (t : Time) : Z := t / Second.

(** [time.Unix(sec, 0)] *)
Definition Unix (sec : Z) : Time := sec * Second.

(** [Time.Sub]: the difference as a [Duration], saturating at the
    smallest and largest representable durations. *)
Definition Sub (t u : Time) : Z :=
  let d := t - u in
  if d <? minDuration then minDuration
  else if maxDuration <? d then maxDuration
  else d.

(** [time.Since(t)] read at the instant [now]. *)
Definition Since (now t : Time) : Z := Sub now t.

End time.

(** ** internal/config *)

Module config.

(** Modelled from the spec: the package [internal/config] is not among the
    sources. The records below carry the fields that [main.go], the cache
    client and [config_test.go] read. A [map[string]string] that the
    program only ranges over (an entry of [Fields]) is the list of its
    entries in the order of that iteration. *)
Record CacheConfig : Type := mkCacheConfig {
  Enabled : bool;
  DatabasePath : string;
  TTL : string;
  MaxCacheSize : Z;
  CleanupInterval : string
}.

Record TemporalConfig : Type := mkTemporalConfig {
  HostPort : string;
  Namespace : string;
  Environment : string;
  DefaultTaskQueue : string
}.

Record ParameterDef : Type := mkParameterDef {
  Type_ : string;
  Fields : list (list (string * string));
  Description : string
}.

Record WorkflowDef : Type := mkWorkflowDef {
  Purpose : string;
  Input : ParameterDef;
  Output : ParameterDef;
  TaskQueue : string;
  WorkflowIDRecipe : string
}.

Record Config : Type := mkConfig {
  Temporal : TemporalConfig;
  Workflows : list (string * WorkflowDef);
  Cache : CacheConfig
}.

End config.

(** ** database/sql over the SQLite table of the cache *)

Module sql.

(** A row of the table [workflow_cache]; the primary key
    [(workflow_name, params_hash)] is the key of the map below, so the
    table holds at most one row per key. *)
Record Row : Type := mkRow {
  row_params : string;
  row_result : string;
  created_at : Z
}.

Abbreviation Table := (gmap (string * string) Row).

(** [SELECT result, created_at FROM workflow_cache
     WHERE workflow_name = ? AND params_hash = ?] *)
Definition QueryRow (db : Table) (workflow_name params_hash : string)
    : option Row :=
  db !! (workflow_name, params_hash).

(** [INSERT OR REPLACE INTO workflow_cache (...) VALUES (?, ?, ?, ?, ?)] *)
Definition InsertOrReplace (db : Table) (workflow_name params_hash : string)
    (r : Row) : Table :=
  <[(workflow_name, params_hash) := r]> db.

(** [DELETE FROM workflow_cache WHERE ...]: the number of rows affected
    and the table that remains. *)
Definition Delete (where_ : string * string → bool) (db : Table) : Z * Table :=
  (Z.of_nat (size (filter (λ kv, where_ kv.1 = true) db)),
   filter (λ kv, where_ kv.1 ≠ true) db).

End sql.

(** ** internal/tool: the result cache *)

Module tool.
Import sql config.

(** [CacheClient]; the handle [db] is the table passed to each
    operation. *)
Record CacheClient : Type := mkCacheClient {
  enabled : bool;
  ttl : Z
}.

(** [NewCacheClient]. [ParseDuration] is [time.ParseDuration]; creating
    the directory, opening the database and creating the table are
    gathered in [openDatabase], which returns the error if one of them
    fails. *)
Definition NewCacheClient (ParseDuration : string → Z + string)
    (openDatabase : string → option string) (cfg : CacheConfig)
    : CacheClient + string :=
  if negb (Enabled cfg) then inl (mkCacheClient false 0%Z)
  else
    match ParseDuration (TTL cfg) with
    | inr err => inr ("invalid TTL format: " +:+ err)
    | inl ttl =>
      match openDatabase (DatabasePath cfg) with
      | Some err => inr err
      | None => inl (mkCacheClient true ttl)
      end
    end.

(** [paramsHash := fmt.Sprintf("%x", paramsBytes)] where [paramsBytes] is
    [json.Marshal(params)]. *)
Definition paramsHash (params : option (gmap string string)) : string :=
  fmt.Sprintf_x (json.Marshal (json.AnyMap params)).

(** [Get] retrieves a cached workflow result. It returns the result, the
    [found] flag and the table it leaves behind. *)
Definition CacheClient_Get (c : CacheClient) (now : time.Time)
    (workflowName : string) (params : option (gmap string string))
    (db : Table) : (string * bool) * Table :=
  if negb (enabled c) then (("", false), db)
  else
    let paramsHash := paramsHash params in
    match QueryRow db workflowName paramsHash with
    | None => (("", false), db)
    | Some row =>
      if (ttl c <? time.Since now (time.Unix (created_at row)))%Z then
        (("", false),
         (Delete (λ k, String.eqb k.1 workflowName && String.eqb k.2 paramsHash)
                 db).2)
      else ((row_result row, true), db)
    end.

(** [Set] stores a workflow result; the error returned is [None] (nil). *)
Definition CacheClient_Set (c : CacheClient) (now : time.Time)
    (workflowName : string) (params : option (gmap string string))
    (result : string) (db : Table) : option string * Table :=
  if negb (enabled c) then (None, db)
  else
    let paramsBytes := json.Marshal (json.AnyMap params) in
    let paramsHash := fmt.Sprintf_x paramsBytes in
    let paramsString := paramsBytes in
    (None,
     InsertOrReplace db workflowName paramsHash
       (mkRow paramsString result (time.Unix_of now))).

(** [Clear] removes cache entries; it returns the number of rows
    affected, the error, and the table it leaves behind. *)
Definition CacheClient_Clear (c : CacheClient) (workflowName : string)
    (db : Table) : (Z * option string) * Table :=
  if negb (enabled c) then ((0%Z, None), db)
  else
    let '(rowsAffected, db') :=
      if String.eqb workflowName "" then Delete (λ _, true) db
      else Delete (λ k, String.eqb k.1 workflowName) db in
    ((rowsAffected, None), db').

End tool.

(** ** protoreflect, as the history redactor uses it *)

Module protoreflect.

#[local] Set Warnings "-register-all".

(** [protoreflect.Kind] *)
Inductive Kind : Type :=
| BoolKind | EnumKind | Int32Kind | Sint32Kind | Uint32Kind | Int64Kind
| Sint64Kind | Uint64Kind | Sfixed32Kind | Fixed32Kind | FloatKind
| Sfixed64Kind | Fixed64Kind | DoubleKind | StringKind | BytesKind
| MessageKind | GroupKind.

Definition Kind_eqb (a b : Kind) : bool :=
  match a, b with
  | BoolKind, BoolKind | EnumKind, EnumKind | Int32Kind, Int32Kind
  | Sint32Kind, Sint32Kind | Uint32Kind, Uint32Kind | Int64Kind, Int64Kind
  | Sint64Kind, Sint64Kind | Uint64Kind, Uint64Kind
  | Sfixed32Kind, Sfixed32Kind | Fixed32Kind, Fixed32Kind
  | FloatKind, FloatKind | Sfixed64Kind, Sfixed64Kind
  | Fixed64Kind, Fixed64Kind | DoubleKind, DoubleKind
  | StringKind, StringKind | BytesKind, BytesKind
  | MessageKind, MessageKind | GroupKind, GroupKind => true
  | _, _ => false
  end.

(** [protoreflect.FieldDescriptor], the parts that are read: the field
    number, [IsList], [IsMap], [Kind], the kind of [MapValue] and the full
    name of the message type that the field (or the value of a map field)
    declares. *)
Record FieldDescriptor : Type := mkFieldDescriptor {
  Number : N;
  IsList : bool;
  IsMap : bool;
  Kind_ : Kind;
  MapValue_Kind : Kind;
  Message_FullName : string
}.

(** A message is its descriptor's full name and its populated fields; a
    [protoreflect.Value] is a scalar, a message, a list or a map. *)
Inductive Message : Type :=
| mkMessage (FullName : string) (fields : list (FieldDescriptor * Value))
with Value : Type :=
| VScalar (v : string)
| VMessage (m : Message)
| VList (items : list Value)
| VMap (entries : list (string * Value)).

Definition FullName (m : Message) : string :=
  match m with mkMessage n _ => n end.

Definition fields (m : Message) : list (FieldDescriptor * Value) :=
  match m with mkMessage _ fs => fs end.

End protoreflect.

(** ** cmd/temporal-mcp/sanitize_history_event.go *)

Module sanitize_history_event.
Import gostring protoreflect.

(** [isPayload] *)
Definition isPayload (m : Message) : bool :=
  let fullType := FullName m in
  HasSuffix fullType ".Payload" || HasSuffix fullType ".Payloads".

(** The loop over a list of messages: [done] holds the items already
    passed, [todo] the items from index [i] on. Truncating the list to
    length 0 ends the loop, since [i < list.Len()] no longer holds. An item
    that is not a message makes [Message()] panic ([None]). *)
Definition sanitizeList (sanitize : Message → option Message)
    : list Value → list Value → option (list Value) :=
  fix loop (done todo : list Value) : option (list Value) :=
    match todo with
    | [] => Some done
    | VMessage item :: rest =>
      if isPayload item then Some []
      else
        match sanitize item with
        | Some item' => loop (done ++ [VMessage item']) rest
        | None => None
        end
    | _ :: _ => None
    end.

(** [mapp.Range]: an entry whose value is a payload is cleared, the value
    of any other entry is sanitized. *)
Definition sanitizeMap (sanitize : Message → option Message)
    : list (string * Value) → option (list (string * Value)) :=
  fix range (entries : list (string * Value)) : option (list (string * Value)) :=
    match entries with
    | [] => Some []
    | (k, VMessage val) :: rest =>
      match range rest with
      | Some rest' =>
        if isPayload val then Some rest'
        else
          match sanitize val with
          | Some val' => Some ((k, VMessage val') :: rest')
          | None => None
          end
      | None => None
      end
    | _ :: _ => None
    end.

(** The function that [sanitizeRecursively] passes to [m.Range], applied
    to one populated field: the switch on the field descriptor. It returns
    the field as it is left ([[]] when it is cleared), or [None] if the
    value does not have the shape its descriptor announces (the accessor
    panics). *)
Definition sanitizeField (sanitize : Message → option Message)
    (fd : FieldDescriptor) (v : Value)
    : option (list (FieldDescriptor * Value)) :=
  if IsList fd then
    if negb (Kind_eqb (Kind_ fd) MessageKind) then Some [(fd, v)]
    else
      match v with
      | VList items =>
        match sanitizeList sanitize [] items with
        | Some items' => Some [(fd, VList items')]
        | None => None
        end
      | _ => None
      end
  else if IsMap fd then
    if negb (Kind_eqb (MapValue_Kind fd) MessageKind) then Some [(fd, v)]
    else
      match v with
      | VMap entries =>
        match sanitizeMap sanitize entries with
        | Some entries' => Some [(fd, VMap entries')]
        | None => None
        end
      | _ => None
      end
  else if Kind_eqb (Kind_ fd) MessageKind then
    match v with
    | VMessage msg =>
      if isPayload msg then Some []
      else
        match sanitize msg with
        | Some msg' => Some [(fd, VMessage msg')]
        | None => None
        end
    | _ => None
    end
  else Some [(fd, v)].

(** [m.Range]: the function is applied to every populated field. *)
Definition Range (f : FieldDescriptor → Value → option (list (FieldDescriptor * Value)))
    : list (FieldDescriptor * Value) → option (list (FieldDescriptor * Value)) :=
  fix range (fs : list (FieldDescriptor * Value)) :=
    match fs with
    | [] => Some []
    | (fd, v) :: rest =>
      match f fd v, range rest with
      | Some field, Some rest' => Some (field ++ rest')
      | _, _ => None
      end
    end.

(** [sanitizeRecursively]: the message as the in-place mutation leaves it.
    An empty list or map is kept in [fields]; it is an unpopulated field,
    over which ranging changes nothing. *)
Fixpoint sanitizeRecursively (m : Message) : option Message :=
  match m with
  | mkMessage name fs =>
    match Range (sanitizeField sanitizeRecursively) fs with
    | Some fs' => Some (mkMessage name fs')
    | None => None
    end
  end.

(** [sanitizeEvent] *)
Definition sanitizeEvent (event : Message) : option Message :=
  sanitizeRecursively event.

End sanitize_history_event.

(** ** The Temporal client and the MCP response, as the handlers use them *)

Module temporal.

(** Go [error] values met by the handlers. *)
Inductive error : Type :=
| TemplateParseError
| TemplateExecError
| EngineError (msg : string).

(** [enums.WorkflowIdReusePolicy] *)
Inductive WorkflowIdReusePolicy : Type :=
| WORKFLOW_ID_REUSE_POLICY_UNSPECIFIED
| WORKFLOW_ID_REUSE_POLICY_ALLOW_DUPLICATE
| WORKFLOW_ID_REUSE_POLICY_ALLOW_DUPLICATE_FAILED_ONLY
| WORKFLOW_ID_REUSE_POLICY_REJECT_DUPLICATE
| WORKFLOW_ID_REUSE_POLICY_TERMINATE_IF_RUNNING.

(** [enums.WorkflowIdConflictPolicy] *)
Inductive WorkflowIdConflictPolicy : Type :=
| WORKFLOW_ID_CONFLICT_POLICY_UNSPECIFIED
| WORKFLOW_ID_CONFLICT_POLICY_FAIL
| WORKFLOW_ID_CONFLICT_POLICY_USE_EXISTING
| WORKFLOW_ID_CONFLICT_POLICY_TERMINATE_EXISTING.

(** [client.StartWorkflowOptions], the fields the handlers set. *)
Record StartWorkflowOptions : Type := mkStartWorkflowOptions {
  TaskQueue : string;
  ID : string;
  WorkflowIDReusePolicy : WorkflowIdReusePolicy;
  WorkflowIDConflictPolicy : WorkflowIdConflictPolicy
}.

(** [client.WorkflowRun]: [Get] waits for the result. *)
Record WorkflowRun : Type := mkWorkflowRun {
  GetID : string;
  GetRunID : string;
  Get : string + error
}.

(** [client.Client]: the engine answers a start request with a run or an
    error. *)
Record Client : Type := mkClient {
  ExecuteWorkflow :
    StartWorkflowOptions → string → option (gmap string string) → WorkflowRun + error
}.

(** The requests a handler sends to the engine, in order. *)
Inductive EngineCall : Type :=
| CallExecuteWorkflow (options : StartWorkflowOptions) (workflow : string)
    (args : option (gmap string string))
| CallRunGet (run : WorkflowRun).

End temporal.

Module mcp.

(** [mcp.NewToolResponse(mcp.NewTextContent(text))] *)
Inductive ToolResponse : Type :=
| NewToolResponse (text : string).

End mcp.

(** ** cmd/temporal-mcp/main.go *)

Module main.
Import gostring log config temporal mcp.

(** [WorkflowParams], the arguments of a tool call. *)
Record WorkflowParams : Type := mkWorkflowParams {
  Params : option (gmap string string);
  ForceRerun : bool
}.

(** What a handler leaves behind: the lines logged and the requests sent
    to the engine. *)
Record Effects : Type := mkEffects {
  logged : list string;
  calls : list EngineCall
}.

(** [computeWorkflowID]: the identity and the error, with the lines logged;
    [None] when the recipe is outside the modelled template fragment. *)
Definition computeWorkflowID (workflow : WorkflowDef)
    (params : option (gmap string string))
    : option (Logged (string * option error)) :=
  match template.Parse (WorkflowIDRecipe workflow) with
  | template.OutsideFragment => None
  | template.ParseError => Some (ret (EmptyString, Some TemplateParseError))
  | template.Parsed tree =>
    Some (bind
      (template.Execute
         (λ paramsToHash, hash_args.hashWorkflowArgs params paramsToHash)
         tree params)
      (λ r, match r with
            | Some out => ret (out, None)
            | None => ret (EmptyString, Some TemplateExecError)
            end))
  end.

(** [args.Params[param]] *)
Definition index (m : option (gmap string string)) (k : string) : string * bool :=
  match m ≫= (λ m, m !! k) with
  | Some v => (v, true)
  | None => (EmptyString, false)
  end.

(** The required parameters: the names of the fields whose description
    does not contain "Optional". *)
Definition requiredParams (workflow : WorkflowDef) : list string :=
  flat_map (λ field,
    flat_map (λ fd : string * string,
      if negb (Contains fd.2 "Optional") then [fd.1] else []) field)
    (Fields (Input workflow)).

Definition missingParams (workflow : WorkflowDef)
    (params : option (gmap string string)) : list string :=
  filter (λ param, (index params param).2 = false ∨ (index params param).1 = EmptyString)
    (requiredParams workflow).

Section handler.

(** The text of an error ([err.Error()]), the quoting of the verb [%q],
    and the identifier that [uuid.NewString] draws. *)
Variable Error : error → string.
Variable Quote : string → string.
Variable uuid_NewString : string.

(** The handler that [registerWorkflowTool] registers for the workflow
    [name]. It returns the response (the error is always nil) and its
    effects; [None] when the recipe is outside the template fragment. *)
Definition registerWorkflowTool_handler (name : string) (workflow : WorkflowDef)
    (tempClient : option Client) (cfg : option Config) (args : WorkflowParams)
    : option (ToolResponse * Effects) :=
  match tempClient with
  | None =>
    Some (NewToolResponse
            "Error: Temporal service is currently unavailable. Please try again later.",
          mkEffects
            ["Error: Temporal client is not available for workflow: " +:+ name] [])
  | Some tempClient =>
    match Params args with
    | None =>
      Some (NewToolResponse
              ("Error: No parameters provided for workflow " +:+ name
               +:+ ". Please provide required parameters."),
            mkEffects [] [])
    | Some _ =>
      let missingParams := missingParams workflow (Params args) in
      if (0 <? length missingParams)%nat then
        Some (NewToolResponse
                ("Error: Missing required parameters for workflow " +:+ name
                 +:+ ": " +:+ Join missingParams ", "),
              mkEffects [] [])
      else
        let '(taskQueue, log1) :=
          match cfg with
          | Some cfg =>
            if String.eqb (config.TaskQueue workflow) EmptyString then
              (DefaultTaskQueue (Temporal cfg),
               ["Using default task queue: " +:+ DefaultTaskQueue (Temporal cfg)
                +:+ " for workflow " +:+ name])
            else (config.TaskQueue workflow, [])
          | None => (config.TaskQueue workflow, [])
          end in
        match computeWorkflowID workflow (Params args) with
        | None => None
        | Some ((_, Some err), log2) =>
          Some (NewToolResponse
                  ("Error computing workflow ID from arguments: " +:+ Error err),
                mkEffects
                  (log1 ++ log2 ++
                   ["Error computing workflow ID from arguments: " +:+ Error err])
                  [])
        | Some ((workflowID, None), log2) =>
          let '(workflowID, log3) :=
            if String.eqb workflowID EmptyString then
              (uuid_NewString,
               ["Workflow " +:+ Quote name +:+
                " has an empty or missing workflowIDRecipe - using a random workflow id"])
            else (workflowID, []) in
          let reusePolicy :=
            if ForceRerun args then WORKFLOW_ID_REUSE_POLICY_ALLOW_DUPLICATE
            else WORKFLOW_ID_REUSE_POLICY_ALLOW_DUPLICATE_FAILED_ONLY in
          let conflictPolicy :=
            if ForceRerun args then WORKFLOW_ID_CONFLICT_POLICY_TERMINATE_EXISTING
            else WORKFLOW_ID_CONFLICT_POLICY_USE_EXISTING in
          let wfOptions :=
            mkStartWorkflowOptions taskQueue workflowID reusePolicy conflictPolicy in
          let log4 :=
            ["Starting workflow " +:+ name +:+ " on task queue " +:+ taskQueue] in
          let call1 := CallExecuteWorkflow wfOptions name (Params args) in
          match ExecuteWorkflow tempClient wfOptions name (Params args) with
          | inr err =>
            Some (NewToolResponse ("Error executing workflow: " +:+ Error err),
                  mkEffects
                    (log1 ++ log2 ++ log3 ++ log4 ++
                     ["Error starting workflow " +:+ name +:+ ": " +:+ Error err])
                    [call1])
          | inl run =>
            let log5 :=
              ["Workflow started: WorkflowID=" +:+ GetID run
               +:+ " RunID=" +:+ GetRunID run] in
            match Get run with
            | inr err =>
              Some (NewToolResponse ("Workflow failed: " +:+ Error err),
                    mkEffects
                      (log1 ++ log2 ++ log3 ++ log4 ++ log5 ++
                       ["Error in workflow " +:+ name +:+ " execution: "
                        +:+ Error err])
                      [call1; CallRunGet run])
            | inl result =>
              Some (NewToolResponse result,
                    mkEffects
                      (log1 ++ log2 ++ log3 ++ log4 ++ log5 ++
                       ["Workflow " +:+ name +:+ " completed successfully"])
                      [call1; CallRunGet run])
            end
          end
        end
    end
  end.

End handler.

End main.

(** ** cmd/temporal-mcp/main.go, the revision that wires in the result cache *)

(** The sources hold a second revision of [main.go] (it follows the tests
    in [main_test.go]) in which [registerWorkflowTool] receives the cache
    client: the handler consults the cache first and stores the result of
    a completed workflow. Its [hashWorkflowArgs] formats the arguments with
    the verb [%+v] instead of [json.Marshal]. *)

Module main_cached.
Import gostring log config temporal mcp sql tool.

Definition WorkflowParams := main.WorkflowParams.

(** [hashWorkflowArgs] of this revision: it returns the hash only. *)
Fixpoint writeAll (hasher : N) (paramsToHash : list json.any) : N :=
  match paramsToHash with
  | [] => hasher
  | arg :: rest => writeAll (fnv.Write hasher (fmt.Sprint arg)) rest
  end.

Definition hashWorkflowArgs (allParams : option (gmap string string))
    (paramsToHash : list json.any) : Logged string :=
  bind (if (length paramsToHash =? 0)%nat
        then bind (Printf hash_args.warning) (λ _, ret [json.AnyMap allParams])
        else ret paramsToHash)
    (λ paramsToHash,
       let hasher := fnv.New32 in
       let hasher := writeAll hasher paramsToHash in
       ret (fmt.Sprintf_d (fnv.Sum32 hasher))).

Definition computeWorkflowID (workflow : WorkflowDef)
    (params : option (gmap string string))
    : option (Logged (string * option error)) :=
  match template.Parse (WorkflowIDRecipe workflow) with
  | template.OutsideFragment => None
  | template.ParseError => Some (ret (EmptyString, Some TemplateParseError))
  | template.Parsed tree =>
    Some (bind
      (template.Execute
         (λ paramsToHash,
            bind (hashWorkflowArgs params paramsToHash) (λ h, ret (h, None)))
         tree params)
      (λ r, match r with
            | Some out => ret (out, None)
            | None => ret (EmptyString, Some TemplateExecError)
            end))
  end.

(** What a handler leaves behind: the lines logged, the requests sent to
    the engine and the cache table. *)
Record Effects : Type := mkEffects {
  logged : list string;
  calls : list EngineCall;
  table : Table
}.

Section handler.

Variable Error : error → string.

(** The handler that [registerWorkflowTool] registers for the workflow
    [name]; [now] is the reading of the clock and [db] the cache table when
    it runs. *)
Definition registerWorkflowTool_handler (name : string) (workflow : WorkflowDef)
    (tempClient : option Client) (cacheClient : option CacheClient)
    (cacheEnabled : bool) (cfg : option Config) (now : time.Time)
    (args : WorkflowParams) (db : Table)
    : option (ToolResponse * Effects) :=
  let lookup :=
    match cacheClient with
    | Some c =>
      if cacheEnabled then
        let '((cachedResult, found), db1) :=
          CacheClient_Get c now name (main.Params args) db in
        if found then inl (cachedResult, db1)
        else inr (["Cache miss for workflow " +:+ name], db1)
      else inr ([], db)
    | None => inr ([], db)
    end in
  match lookup with
  | inl (cachedResult, db1) =>
    Some (NewToolResponse cachedResult,
          mkEffects ["Cache hit for workflow " +:+ name] [] db1)
  | inr (log0, db1) =>
    match tempClient with
    | None =>
      Some (NewToolResponse
              "Error: Temporal service is currently unavailable. Please try again later.",
            mkEffects
              (log0 ++ ["Error: Temporal client is not available for workflow: "
                        +:+ name]) [] db1)
    | Some tempClient =>
      let '(taskQueue, log1) :=
        match cfg with
        | Some cfg =>
          if String.eqb (config.TaskQueue workflow) EmptyString then
            (DefaultTaskQueue (Temporal cfg),
             ["Using default task queue: " +:+ DefaultTaskQueue (Temporal cfg)
              +:+ " for workflow " +:+ name])
          else (config.TaskQueue workflow, [])
        | None => (config.TaskQueue workflow, [])
        end in
      match computeWorkflowID workflow (main.Params args) with
      | None => None
      | Some ((_, Some err), log2) =>
        Some (NewToolResponse
                ("Error computing workflow ID from arguments: " +:+ Error err),
              mkEffects
                (log0 ++ log1 ++ log2 ++
                 ["Error computing workflow ID from arguments: " +:+ Error err])
                [] db1)
      | Some ((workflowID, None), log2) =>
        let reusePolicy :=
          if main.ForceRerun args then WORKFLOW_ID_REUSE_POLICY_ALLOW_DUPLICATE
          else WORKFLOW_ID_REUSE_POLICY_ALLOW_DUPLICATE_FAILED_ONLY in
        let conflictPolicy :=
          if main.ForceRerun args then WORKFLOW_ID_CONFLICT_POLICY_TERMINATE_EXISTING
          else WORKFLOW_ID_CONFLICT_POLICY_USE_EXISTING in
        let wfOptions :=
          mkStartWorkflowOptions taskQueue workflowID reusePolicy conflictPolicy in
        let log4 :=
          ["Starting workflow " +:+ name +:+ " on task queue " +:+ taskQueue] in
        let call1 := CallExecuteWorkflow wfOptions name (main.Params args) in
        match ExecuteWorkflow tempClient wfOptions name (main.Params args) with
        | inr err =>
          Some (NewToolResponse ("Error executing workflow: " +:+ Error err),
                mkEffects
                  (log0 ++ log1 ++ log2 ++ log4 ++
                   ["Error starting workflow " +:+ name +:+ ": " +:+ Error err])
                  [call1] db1)
        | inl run =>
          let log5 :=
            ["Workflow started: WorkflowID=" +:+ GetID run
             +:+ " RunID=" +:+ GetRunID run] in
          match Get run with
          | inr err =>
            Some (NewToolResponse ("Workflow failed: " +:+ Error err),
                  mkEffects
                    (log0 ++ log1 ++ log2 ++ log4 ++ log5 ++
                     ["Error in workflow " +:+ name +:+ " execution: "
                      +:+ Error err])
                    [call1; CallRunGet run] db1)
          | inl result =>
            let log6 := ["Workflow " +:+ name +:+ " completed successfully"] in
            let '(log7, db2) :=
              match cacheClient with
              | Some c =>
                if cacheEnabled then
                  match CacheClient_Set c now name (main.Params args) result db1 with
                  | (Some err, db2) =>
                    (["Warning: Failed to cache result for workflow " +:+ name
                      +:+ ": " +:+ err], db2)
                  | (None, db2) =>
                    (["Cached result for workflow " +:+ name], db2)
                  end
                else ([], db1)
              | None => ([], db1)
              end in
            Some (NewToolResponse result,
                  mkEffects
                    (log0 ++ log1 ++ log2 ++ log4 ++ log5 ++ log6 ++ log7)
                    [call1; CallRunGet run] db2)
          end
        end
      end
    end
  end.

(** The handler of the tool [ClearCache]: the response, or the error it
    returns when [Clear] fails. *)
Definition registerCacheClearTool_handler (cacheClient : option CacheClient)
    (workflowName : string) (db : Table)
    : (ToolResponse + string) * Table :=
  match cacheClient with
  | None => (inl (NewToolResponse "Cache is not initialized"), db)
  | Some c =>
    match CacheClient_Clear c workflowName db with
    | ((_, Some err), db') => (inr ("failed to clear cache: " +:+ err), db')
    | ((rowsCleared, None), db') =>
      let n := fmt.Sprintf_d (Z.to_N rowsCleared) in
      (inl (NewToolResponse
              (if negb (String.eqb workflowName EmptyString) then
                 "Successfully cleared " +:+ n +:+ " cache entries for workflow '"
                 +:+ workflowName +:+ "'"
               else "Successfully cleared " +:+ n +:+ " cache entries")),
       db')
    end
  end.

End handler.

End main_cached.

(** ** cmd/temporal-mcp/main.go: the tool [GetWorkflowHistory] *)

Module history_tool.
Import gostring log temporal mcp protoreflect.

(** [client.HistoryEventIterator]: what the successive calls of [Next]
    return; [HasNext] holds as long as one is left. *)
Definition HistoryEventIterator : Type := list (Message + error).

(** [client.Client], the method that this handler calls:
    [GetWorkflowHistory(ctx, workflowID, runID, false, ALL_EVENT)]. *)
Record Client : Type := mkClient {
  GetWorkflowHistory : string → string → HistoryEventIterator
}.

Section handler.

(** The text of an error, the sanitizer of the package
    [internal/sanitize_history_event] (its source is not part of the
    repository snapshot; it mutates the event in place and is given here
    by the event it leaves, [None] when it panics) and
    [protojson.Marshal]. *)
Variable Error : error → string.
Variable SanitizeHistoryEvent : Message → option Message.
Variable protojson_Marshal : Message → string + error.

(** The loop [for iterator.HasNext()]: it ends with the JSON forms
    gathered in [eventJsons], or with what the handler returns from inside
    the loop (the response or the error, and the lines logged). *)
Fixpoint readEvents (iterator : HistoryEventIterator) (eventJsons : list string)
    : option (list string + (ToolResponse + error) * list string) :=
  match iterator with
  | [] => Some (inl eventJsons)
  | inr err :: _ =>
    let msg :=
      "Error: Failed to get " +:+ fmt.Sprintf_d (N.of_nat (length eventJsons))
      +:+ "th history event: " +:+ Error err in
    Some (inr (inl (NewToolResponse msg), [msg]))
  | inl event :: rest =>
    match SanitizeHistoryEvent event with
    | None => None
    | Some event =>
      match protojson_Marshal event with
      | inr err => Some (inr (inr err, []))
      | inl bytes => readEvents rest (eventJsons ++ [bytes])
      end
    end
  end.

(** The loop [for i, eventJson := range eventJsons] that writes into the
    [strings.Builder]. *)
Fixpoint writeEvents (i : nat) (eventJsons : list string) (allEvents : string)
    : string :=
  match eventJsons with
  | [] => allEvents
  | eventJson :: rest =>
    let allEvents := if (0 <? i)%nat then allEvents +:+ "," else allEvents in
    writeEvents (S i) rest (allEvents +:+ eventJson)
  end.

(** The handler that [registerGetWorkflowHistoryTool] registers: the
    response or the error it returns, and the lines logged; [None] when the
    sanitizer panics. *)
Definition registerGetWorkflowHistoryTool_handler (tempClient : option Client)
    (WorkflowID RunID : string)
    : option ((ToolResponse + error) * list string) :=
  match tempClient with
  | None =>
    Some (inl (NewToolResponse
                 "Error: Temporal client is not available for getting workflow histories"),
          ["Error: Temporal client is not available for getting workflow histories"])
  | Some tempClient =>
    let eventJsons := [] in
    let iterator := GetWorkflowHistory tempClient WorkflowID RunID in
    match readEvents iterator eventJsons with
    | None => None
    | Some (inr returned) => Some returned
    | Some (inl eventJsons) =>
      let allEvents := EmptyString in
      let allEvents := allEvents +:+ "[" in
      let allEvents := writeEvents 0 eventJsons allEvents in
      let allEvents := allEvents +:+ "]" in
      Some (inl (NewToolResponse allEvents), [])
    end
  end.

End handler.

End history_tool.

(** ** internal/temporal/client.go *)

Module temporal_client.
Import gostring.

(** [config.TemporalConfig] as [config.go] declares it, with the field
    [Timeout] that [NewTemporalClient] validates. *)
Record TemporalConfig : Type := mkTemporalConfig {
  HostPort : string;
  Namespace : string;
  Environment : string;
  Timeout : string;
  DefaultTaskQueue : string
}.

(** [client.Options], the fields set from the configuration (the logger
    is the adapter writing to stderr). *)
Record Options : Type := mkOptions {
  Options_HostPort : string;
  Options_Namespace : string
}.

Section dial.

(** [time.ParseDuration] and [client.Dial]. *)
Variable ParseDuration : string → Z + string.
Variable Dial : Options → temporal.Client + string.

(** [NewTemporalClient]: the client or the error, and the calls of
    [client.Dial] it made. *)
Definition NewTemporalClient (cfg : TemporalConfig)
    : (temporal.Client + string) * list Options :=
  let invalid :=
    if negb (String.eqb (Timeout cfg) EmptyString) then
      match ParseDuration (Timeout cfg) with
      | inr err => Some ("invalid timeout format: " +:+ err)
      | inl _ => None
      end
    else None in
  match invalid with
  | Some err => (inr err, [])
  | None =>
    let options := mkOptions (HostPort cfg) (Namespace cfg) in
    if String.eqb (Environment cfg) "local" then
      match Dial options with
      | inr err => (inr ("failed to create Temporal client: " +:+ err), [options])
      | inl temporalClient => (inl temporalClient, [options])
      end
    else if String.eqb (Environment cfg) "remote" then
      (inr "remote environment configuration not implemented yet", [])
    else (inr ("unsupported environment type: " +:+ Environment cfg), [])
  end.

(** [main]: the client handed to the tools is nil when
    [NewTemporalClient] fails; the server then runs in degraded mode. *)
Definition main_temporalClient (cfg : TemporalConfig)
    : option temporal.Client * list string :=
  match (NewTemporalClient cfg).1 with
  | inr temporalError =>
    (None,
     ["WARNING: Failed to connect to Temporal service: " +:+ temporalError;
      "MCP will run in degraded mode - workflow executions will return errors"])
  | inl temporalClient =>
    (Some temporalClient, ["Connected to Temporal service at " +:+ HostPort cfg])
  end.

End dial.

End temporal_client.

(** * Auxiliary definitions used in the statements and proofs *)

Definition m12 : gmap string string := <["two" := "2"]> (<["one" := "1"]> ∅).

Definition quoted (s : string) : string := gostring.dquote +:+ s +:+ gostring.dquote.

Definition db_demo : sql.Table :=
  <[("wfA", tool.paramsHash (Some m12)) := sql.mkRow "p" "old" 100]>
    (<[("wfB", tool.paramsHash None) := sql.mkRow "null" "fresh" 5000]> ∅).

Definition recipe (text : string) : config.WorkflowDef :=
  config.mkWorkflowDef "" (config.mkParameterDef "" [] "")
    (config.mkParameterDef "" [] "") "" text.

(** A template that only refers to variables: text and actions of the form
    [{{ .name }}]. *)
Definition refs_only (tree : list template.Node) : bool :=
  forallb (λ n, match n with
                | template.TextNode _ => true
                | template.ActionNode (template.ActPrint (template.OpField [_])) => true
                | _ => false
                end) tree.

(** What such a template renders to: each variable is replaced by its
    value, or by the sentinel when the argument set has no such entry. *)
Definition render (params : option (gmap string string)) (n : template.Node)
    : string :=
  match n with
  | template.TextNode text => text
  | template.ActionNode (template.ActPrint (template.OpField [name])) =>
    match params ≫= (λ m, m !! name) with
    | Some v => v
    | None => "<no value>"
    end
  | _ => EmptyString
  end.

(** The execution disposition of the spec's decision table, as the pair of
    policies handed to the engine. *)
Definition disposition (force_rerun : bool)
    : temporal.WorkflowIdReusePolicy * temporal.WorkflowIdConflictPolicy :=
  if force_rerun
  then (temporal.WORKFLOW_ID_REUSE_POLICY_ALLOW_DUPLICATE,
        temporal.WORKFLOW_ID_CONFLICT_POLICY_TERMINATE_EXISTING)
  else (temporal.WORKFLOW_ID_REUSE_POLICY_ALLOW_DUPLICATE_FAILED_ONLY,
        temporal.WORKFLOW_ID_CONFLICT_POLICY_USE_EXISTING).

(** The redaction that the spec describes, and the notions used to state
    what it achieves. *)
Module redaction.
Import gostring protoreflect.

(** The opaque-payload convention: a suffix of the type name. *)
Definition matches (typeName : string) : bool :=
  HasSuffix typeName ".Payload" || HasSuffix typeName ".Payloads".

Definition isMessageList (fd : FieldDescriptor) : bool :=
  IsList fd && Kind_eqb (Kind_ fd) MessageKind.

Definition isMessageMap (fd : FieldDescriptor) : bool :=
  negb (IsList fd) && IsMap fd && Kind_eqb (MapValue_Kind fd) MessageKind.

Definition isMessageField (fd : FieldDescriptor) : bool :=
  negb (IsList fd) && negb (IsMap fd) && Kind_eqb (Kind_ fd) MessageKind.

(** Following the spec, for one field: a list whose declared element type
    matches the convention becomes empty, otherwise its elements are
    redacted; in a map the entries whose value type matches are removed and
    the others redacted; a single message field whose type matches is
    cleared, otherwise redacted; nothing else changes. *)
Definition redactItem (redact : Message → Message) (it : Value) : Value :=
  match it with
  | VMessage x => VMessage (redact x)
  | other => other
  end.

Definition redactEntry (redact : Message → Message) (e : string * Value)
    : list (string * Value) :=
  match e.2 with
  | VMessage val =>
    if matches (FullName val) then [] else [(e.1, VMessage (redact val))]
  | _ => [e]
  end.

Definition redactField (redact : Message → Message)
    (fv : FieldDescriptor * Value) : list (FieldDescriptor * Value) :=
  let '(fd, v) := fv in
  match v with
  | VList items =>
    if isMessageList fd then
      if matches (Message_FullName fd) then [(fd, VList [])]
      else [(fd, VList (List.map (redactItem redact) items))]
    else [fv]
  | VMap entries =>
    if isMessageMap fd then
      [(fd, VMap (flat_map (redactEntry redact) entries))]
    else [fv]
  | VMessage msg =>
    if isMessageField fd then
      if matches (Message_FullName fd) then []
      else [(fd, VMessage (redact msg))]
    else [fv]
  | VScalar _ => [fv]
  end.

Fixpoint redact (m : Message) : Message :=
  match m with
  | mkMessage name fs => mkMessage name (flat_map (redactField redact) fs)
  end.

(** A check on the messages held by the message-typed fields. *)
Definition onMessages (item : string → Message → bool) (absent : bool)
    (fv : FieldDescriptor * Value) : bool :=
  let '(fd, v) := fv in
  let value (it : Value) : bool :=
    match it with
    | VMessage x => item (Message_FullName fd) x
    | _ => absent
    end in
  if isMessageList fd then
    match v with VList items => forallb value items | _ => absent end
  else if isMessageMap fd then
    match v with
    | VMap entries => forallb (λ e : string * Value, value e.2) entries
    | _ => absent
    end
  else if isMessageField fd then value v
  else true.

(** The values of the message-typed fields have the shape and the type
    that the descriptor declares (as protobuf guarantees). *)
Fixpoint well_typed (m : Message) : bool :=
  match m with
  | mkMessage _ fs =>
    forallb (onMessages (λ declared x,
               String.eqb (FullName x) declared && well_typed x) false) fs
  end.

(** No message reachable through message-typed fields is a payload. *)
Fixpoint no_payload (m : Message) : bool :=
  match m with
  | mkMessage _ fs =>
    forallb (onMessages (λ _ x, negb (matches (FullName x)) && no_payload x)
               true) fs
  end.

(** The size of a message, for induction. *)
Fixpoint msize (m : Message) : nat :=
  match m with
  | mkMessage _ fs =>
    S (list_sum (List.map (λ fv : FieldDescriptor * Value,
                             let '(_, v) := fv in vsize v) fs))
  end
with vsize (v : Value) : nat :=
  match v with
  | VScalar _ => 0
  | VMessage m => msize m
  | VList items => S (list_sum (List.map vsize items))
  | VMap entries =>
    S (list_sum (List.map (λ e : string * Value,
                             let '(_, v) := e in vsize v) entries))
  end.

(** A field that holds messages. *)
Definition messageTyped (fd : FieldDescriptor) : bool :=
  isMessageList fd || isMessageMap fd || isMessageField fd.

(** [x] is a message held directly by the value [v]. *)
Definition in_value (x : Message) (v : Value) : Prop :=
  match v with
  | VScalar _ => False
  | VMessage m => x = m
  | VList items => VMessage x ∈ items
  | VMap entries => ∃ k, (k, VMessage x) ∈ entries
  end.

End redaction.

(** A history event with a payload list, a header map holding a payload,
    a failure message and a scalar. *)
Definition fd_list : protoreflect.FieldDescriptor :=
  protoreflect.mkFieldDescriptor 1 true false protoreflect.MessageKind
    protoreflect.BoolKind "temporal.api.common.v1.Payload".

Definition fd_map : protoreflect.FieldDescriptor :=
  protoreflect.mkFieldDescriptor 2 false true protoreflect.MessageKind
    protoreflect.MessageKind "temporal.api.common.v1.Payload".

Definition fd_failure : protoreflect.FieldDescriptor :=
  protoreflect.mkFieldDescriptor 3 false false protoreflect.MessageKind
    protoreflect.BoolKind "temporal.api.failure.v1.Failure".

Definition fd_input : protoreflect.FieldDescriptor :=
  protoreflect.mkFieldDescriptor 4 false false protoreflect.MessageKind
    protoreflect.BoolKind "temporal.api.common.v1.Payloads".

Definition fd_text : protoreflect.FieldDescriptor :=
  protoreflect.mkFieldDescriptor 5 false false protoreflect.StringKind
    protoreflect.BoolKind "".

Definition demo_payload : protoreflect.Message :=
  protoreflect.mkMessage "temporal.api.common.v1.Payload"
    [(fd_text, protoreflect.VScalar "data")].

Definition demo_event : protoreflect.Message :=
  protoreflect.mkMessage "temporal.api.history.v1.HistoryEvent"
    [(fd_text, protoreflect.VScalar "started");
     (fd_failure,
      protoreflect.VMessage
        (protoreflect.mkMessage "temporal.api.failure.v1.Failure"
           [(fd_text, protoreflect.VScalar "boom");
            (fd_list, protoreflect.VList
               [protoreflect.VMessage demo_payload;
                protoreflect.VMessage demo_payload]);
            (fd_map, protoreflect.VMap
               [("a", protoreflect.VMessage demo_payload)])]));
     (fd_input,
      protoreflect.VMessage
        (protoreflect.mkMessage "temporal.api.common.v1.Payloads"
           [(fd_list, protoreflect.VList [protoreflect.VMessage demo_payload])]))].

Definition demo_event_redacted : protoreflect.Message :=
  protoreflect.mkMessage "temporal.api.history.v1.HistoryEvent"
    [(fd_text, protoreflect.VScalar "started");
     (fd_failure,
      protoreflect.VMessage
        (protoreflect.mkMessage "temporal.api.failure.v1.Failure"
           [(fd_text, protoreflect.VScalar "boom");
            (fd_list, protoreflect.VList []);
            (fd_map, protoreflect.VMap [])]))].

(** An engine that starts every workflow and completes it with "done". *)
Definition demo_run : temporal.WorkflowRun :=
  temporal.mkWorkflowRun "wf-id" "run-1" (inl "done").

Definition demo_client : temporal.Client :=
  temporal.mkClient (λ _ _ _, inl demo_run).

Definition demo_error (e : temporal.error) : string :=
  match e with
  | temporal.TemplateParseError => "template: parse error"
  | temporal.TemplateExecError => "template: execution error"
  | temporal.EngineError msg => msg
  end.

Definition demo_force : main.WorkflowParams :=
  main.mkWorkflowParams (Some m12) true.

Definition demo_options : temporal.StartWorkflowOptions :=
  temporal.mkStartWorkflowOptions "queue" "id_1"
    temporal.WORKFLOW_ID_REUSE_POLICY_ALLOW_DUPLICATE
    temporal.WORKFLOW_ID_CONFLICT_POLICY_TERMINATE_EXISTING.

Definition demo_effects : main.Effects :=
  main.mkEffects
    ["Using default task queue: queue for workflow wf";
     "Starting workflow wf on task queue queue";
     "Workflow started: WorkflowID=wf-id RunID=run-1";
     "Workflow wf completed successfully"]
    [temporal.CallExecuteWorkflow demo_options "wf" (Some m12);
     temporal.CallRunGet demo_run].

Definition demo_config : config.Config :=
  config.mkConfig (config.mkTemporalConfig "localhost:7233" "default" "local" "queue")
    [] (config.mkCacheConfig true "cache.db" "1h" 0 "10m").

(** Two argument maps that differ only in a byte that is not valid UTF-8. *)
Definition argsFF : option (gmap string string) :=
  Some {["k" := String (ascii_of_N 0xFF) EmptyString]}.

Definition argsFE : option (gmap string string) :=
  Some {["k" := String (ascii_of_N 0xFE) EmptyString]}.

(** A reader for the string literals that [json.appendString] writes. It
    is not part of the program: it serves to show that, on valid UTF-8, the
    literal determines the string it was written from. *)
Module jsonread.
Import gostring.

Definition hexVal (c : ascii) : N :=
  let b := byteN c in
  if (0x30 <=? b) && (b <=? 0x39) then b - 0x30
  else if (0x61 <=? b) && (b <=? 0x66) then b - 0x57
  else 0.

Definition cons_fst (c : ascii) (r : option (string * string))
    : option (string * string) :=
  match r with
  | Some (s, rest) => Some (String c s, rest)
  | None => None
  end.

Definition unescape (e : ascii) : ascii :=
  let b := byteN e in
  if b =? 0x62 then ascii_of_N 0x08
  else if b =? 0x66 then ascii_of_N 0x0C
  else if b =? 0x6E then ascii_of_N 0x0A
  else if b =? 0x72 then ascii_of_N 0x0D
  else if b =? 0x74 then ascii_of_N 0x09
  else e.

(** Reads the body of a literal up to its closing quote; returns the
    string read and what follows the quote. *)
Fixpoint unquote_body (s : string) : option (string * string) :=
  match s with
  | EmptyString => None
  | String c t =>
    if byteN c =? 0x22 then Some (EmptyString, t)
    else if byteN c =? 0x5C then
      match t with
      | String e t1 =>
        if byteN e =? 0x75 then
          match t1 with
          | String h1 (String h2 (String h3 (String h4 t2))) =>
            let code :=
              ((hexVal h1 * 16 + hexVal h2) * 16 + hexVal h3) * 16 + hexVal h4 in
            if code <? 0x80 then cons_fst (ascii_of_N code) (unquote_body t2)
            else if (code =? 0x2028) || (code =? 0x2029) then
              cons_fst (ascii_of_N 0xE2)
                (cons_fst (ascii_of_N 0x80)
                   (cons_fst (ascii_of_N (0x80 + (code - 0x2000)))
                      (unquote_body t2)))
            else None
          | _ => None
          end
        else cons_fst (unescape e) (unquote_body t1)
      | EmptyString => None
      end
    else cons_fst c (unquote_body t)
  end.

Definition unquote (s : string) : option (string * string) :=
  match s with
  | String c t => if byteN c =? 0x22 then unquote_body t else None
  | EmptyString => None
  end.

(** Reads the two hexadecimal digits that [fmt.Sprintf_x] writes per
    byte. *)
Fixpoint unhex (s : string) : string :=
  match s with
  | String h (String l t) =>
    String (ascii_of_N (hexVal h * 16 + hexVal l)) (unhex t)
  | _ => EmptyString
  end.

Definition enc1 (c : ascii) : string :=
  if json.htmlSafeSet (byteN c) then String c EmptyString else json.escapeByte c.

Fixpoint all_high (s : string) : Prop :=
  match s with
  | EmptyString => True
  | String c t => 0x80 ≤ byteN c ∧ all_high t
  end.

Definition app_fst (u : string) (r : option (string * string)) : option (string * string) :=
  match r with
  | Some (s, rest) => Some (u +:+ s, rest)
  | None => None
  end.

Definition read_entry (s : string) : option ((string * string) * string) :=
  match unquote s with
  | Some (k, String c rest) =>
    if byteN c =? 0x3A then
      match unquote rest with
      | Some (v, rest') => Some ((k, v), rest')
      | None => None
      end
    else None
  | _ => None
  end.

Definition valid_entry (kv : string * string) : Prop :=
  utf8.valid kv.1 = true ∧ utf8.valid kv.2 = true.

Definition entries_tail (l : list (string * string)) (rest : string) : string :=
  match l with
  | [] => "}" +:+ rest
  | _ => "," +:+ Join (json.encodeEntry <$> l) "," +:+ "}" +:+ rest
  end.

End jsonread.

(** A map whose keys and values are all valid UTF-8. *)
Definition valid_args (params : option (gmap string string)) : bool :=
  match params with
  | None => true
  | Some m => forallb (λ kv, utf8.valid kv.1 && utf8.valid kv.2) (map_to_list m)
  end.


(** A template without calls of [hash]. *)
Definition hash_free (tree : list template.Node) : bool :=
  forallb (λ n, match n with
                | template.ActionNode (template.ActHash _) => false
                | _ => true
                end) tree.

(** The JSON form that the history tool gives to one event: sanitize,
    then marshal. *)
Definition eventJson
    (SanitizeHistoryEvent : protoreflect.Message → option protoreflect.Message)
    (protojson_Marshal : protoreflect.Message → string + temporal.error)
    (event : protoreflect.Message) : option string :=
  match SanitizeHistoryEvent event with
  | Some event' =>
    match protojson_Marshal event' with
    | inl bytes => Some bytes
    | inr _ => None
    end
  | None => None
  end.

(** A marshaller for examples: the type name of the message and the
    number of its populated fields. *)
Definition demo_marshal (m : protoreflect.Message) : string + temporal.error :=
  inl (protoreflect.FullName m +:+ "/"
       +:+ fmt.Sprintf_d (N.of_nat (length (protoreflect.fields m)))).

Definition demo_history : history_tool.Client :=
  history_tool.mkClient (λ _ _, [inl demo_event; inl demo_payload]).

Definition demo_temporal_config (environment : string)
    : temporal_client.TemporalConfig :=
  temporal_client.mkTemporalConfig "localhost:7233" "default" environment "5s"
    "queue".

(** A cache with a TTL of one hour, and what the cache-aware handler
    leaves behind when the workflow "wf" completes on an empty table. *)
Definition demo_cache : tool.CacheClient := tool.mkCacheClient true 3600000000000.

Definition demo_cached_effects : main_cached.Effects :=
  main_cached.mkEffects
    ["Cache miss for workflow wf";
     "Using default task queue: queue for workflow wf";
     "Starting workflow wf on task queue queue";
     "Workflow started: WorkflowID=wf-id RunID=run-1";
     "Workflow wf completed successfully";
     "Cached result for workflow wf"]
    [temporal.CallExecuteWorkflow demo_options "wf" (Some m12);
     temporal.CallRunGet demo_run]
    (tool.CacheClient_Set demo_cache 5000000000000%Z "wf" (Some m12) "done" ∅).2.

(** The variable that an operand reads from the argument map: the first
    name of a field chain; [None] for the dot, which is the whole map. *)
Definition operandVariable (o : template.Operand) : option string :=
  match o with
  | template.OpField (name :: _) => Some name
  | _ => None
  end.

(** The variables that a template reads, or [None] when it reads the whole
    argument map (through the dot, or through [hash] without arguments). *)
Definition nodeVariables (n : template.Node) : option (list string) :=
  match n with
  | template.TextNode _ => Some []
  | template.ActionNode (template.ActPrint o) =>
    match operandVariable o with Some v => Some [v] | None => None end
  | template.ActionNode (template.ActHash []) => None
  | template.ActionNode (template.ActHash args) => mapM operandVariable args
  end.

Definition variables (tree : list template.Node) : option (list string) :=
  match mapM nodeVariables tree with
  | Some vs => Some (List.concat vs)
  | None => None
  end.

(** * Properties *)

(** ** Checks of the library models against known values *)

Example json_m12 :
  json.Marshal (json.AnyMap (Some m12)) =
  "{" +:+ quoted "one" +:+ ":" +:+ quoted "1" +:+ "," +:+
          quoted "two" +:+ ":" +:+ quoted "2" +:+ "}".
Proof. vm_compute. reflexivity. Qed.

Example fnv_vector_1 : fmt.Sprintf_d (fnv.Write fnv.New32 "map[one:1 two:2]") = "321584698".
Proof. vm_compute. reflexivity. Qed.

Example fnv_vector_2 : fmt.Sprintf_d (fnv.Write fnv.New32 "12") = "544649048".
Proof. vm_compute. reflexivity. Qed.

Example recipe_empty :
  main_cached.computeWorkflowID (recipe "") None = Some (("", None), []).
Proof. reflexivity. Qed.

Example recipe_reference_args :
  main_cached.computeWorkflowID (recipe "id_{{ .one }}_{{ .two }}") (Some m12)
  = Some (("id_1_2", None), []).
Proof. vm_compute. reflexivity. Qed.

Example recipe_reference_missing_args :
  main_cached.computeWorkflowID (recipe "id_{{ .one }}_{{ .missing }}")
    (Some {["one" := "1"]})
  = Some (("id_1_<no value>", None), []).
Proof. vm_compute. reflexivity. Qed.

Example recipe_hash_all_by_accident :
  main_cached.computeWorkflowID (recipe "id_{{ hash }}") (Some m12)
  = Some (("id_321584698", None), [hash_args.warning]).
Proof. vm_compute. reflexivity. Qed.

Example recipe_hash_all_properly :
  main_cached.computeWorkflowID (recipe "id_{{ hash . }}") (Some m12)
  = Some (("id_321584698", None), []).
Proof. vm_compute. reflexivity. Qed.

Example recipe_hash_some :
  main_cached.computeWorkflowID (recipe "id_{{ hash .one .two }}") (Some m12)
  = Some (("id_544649048", None), []).
Proof. vm_compute. reflexivity. Qed.

Example recipe_unclosed_action :
  main.computeWorkflowID (recipe "id_{{ .one") (Some m12)
  = Some (("", Some temporal.TemplateParseError), []).
Proof. vm_compute. reflexivity. Qed.

Example recipe_undefined_function :
  main.computeWorkflowID (recipe "id_{{ sha .one }}") (Some m12)
  = Some (("", Some temporal.TemplateParseError), []).
Proof. vm_compute. reflexivity. Qed.

Example recipe_pipeline_not_modelled :
  main.computeWorkflowID (recipe "id_{{ .one | len }}") (Some m12) = None.
Proof. vm_compute. reflexivity. Qed.

(** ** The JSON encoding of argument maps can be inverted on valid UTF-8 *)

Section json_props.
Import gostring.

Lemma lor_shiftl_add a b k : b < 2 ^ k → N.lor (N.shiftl a k) b = a * 2 ^ k + b.
Proof.
  intros Hb.
  assert (Hland : N.land (N.shiftl a k) b = 0).
  { apply N.bits_inj_0. intros n. rewrite N.land_spec.
    destruct (N.lt_ge_cases n k) as [Hlt|Hge].
    - rewrite N.shiftl_spec_low by done. done.
    - destruct (N.eq_dec b 0) as [->|Hnz].
      + rewrite N.bits_0. apply andb_false_r.
      + rewrite (N.bits_above_log2 b n); [apply andb_false_r|].
        apply N.lt_le_trans with k; [|done].
        apply N.log2_lt_pow2; lia. }
  rewrite <- N.lxor_lor by done. rewrite <- N.add_nocarry_lxor by done.
  by rewrite N.shiftl_mul_pow2.
Qed.

Lemma append_cons x (a b : string) : String x a +:+ b = String x (a +:+ b).
Proof. reflexivity. Qed.

Lemma append_nil_l (b : string) : EmptyString +:+ b = b.
Proof. reflexivity. Qed.

Lemma app_assoc_s (a b c : string) : (a +:+ b) +:+ c = a +:+ (b +:+ c).
Proof. induction a as [|x a IH]; [done|]. rewrite !append_cons. by rewrite IH. Qed.

Lemma byteN_lt c : byteN c < 256.
Proof. apply N_ascii_bounded. Qed.

Lemma byteN_inj c n : byteN c = n → c = ascii_of_N n.
Proof. intros <-. unfold byteN. by rewrite ascii_N_embedding. Qed.

Lemma unquote_enc1 c rest :
  byteN c < 0x80 →
  jsonread.unquote_body (jsonread.enc1 c +:+ rest) = jsonread.cons_fst c (jsonread.unquote_body rest).
Proof.
  destruct c as [[] [] [] [] [] [] [] []]; intros H;
    try (vm_compute in H; discriminate H); reflexivity.
Qed.

Lemma unhex_pair c t :
  jsonread.unhex (json.hexDigit (N.shiftr (byteN c) 4) +:+ json.hexDigit (N.land (byteN c) 0xF) +:+ t)
  = String c (jsonread.unhex t).
Proof.
  destruct c as [[] [] [] [] [] [] [] []]; reflexivity.
Qed.

Lemma unhex_Sprintf_x s : jsonread.unhex (fmt.Sprintf_x s) = s.
Proof.
  induction s as [|c s IH]; [done|].
  change (fmt.Sprintf_x (String c s)) with (json.hexDigit (N.shiftr (byteN c) 4) +:+ json.hexDigit (N.land (byteN c) 0xF) +:+ fmt.Sprintf_x s). rewrite unhex_pair. by rewrite IH.
Qed.

Lemma at_lt u i : at_ u i < 256.
Proof. unfold at_. destruct (String.get i u); [apply byteN_lt|lia]. Qed.

Lemma first_cases s0 :
  s0 < 256 →
  (s0 < 0x80 ∧ utf8.first s0 = 0xF0) ∨
  (0x80 ≤ s0 ∧ utf8.first s0 = 0xF1) ∨
  (0xC2 ≤ s0 < 0xE0 ∧ utf8.first s0 = 0x02) ∨
  (s0 = 0xE0 ∧ utf8.first s0 = 0x13) ∨
  (0xE1 ≤ s0 < 0xF0 ∧ s0 ≠ 0xED ∧ utf8.first s0 = 0x03) ∨
  (s0 = 0xED ∧ utf8.first s0 = 0x23) ∨
  (s0 = 0xF0 ∧ utf8.first s0 = 0x34) ∨
  (0xF1 ≤ s0 < 0xF4 ∧ utf8.first s0 = 0x04) ∨
  (s0 = 0xF4 ∧ utf8.first s0 = 0x44).
Proof.
  intros H. unfold utf8.first.
  repeat match goal with
  | |- context [?a <? ?b] => destruct (N.ltb_spec a b)
  | |- context [?a =? ?b] => destruct (N.eqb_spec a b)
  end; lia.
Qed.

Lemma rune2_lt a b : N.lor (N.shiftl (N.land a utf8.mask2) 6) (N.land b utf8.maskx) < 0x800.
Proof.
  change utf8.mask2 with (N.ones 5). change utf8.maskx with (N.ones 6).
  rewrite !N.land_ones. rewrite lor_shiftl_add by (apply N.mod_lt; done).
  pose proof (N.mod_lt a (2^5)). pose proof (N.mod_lt b (2^6)). lia.
Qed.

Lemma rune3_eq a b c :
  N.lor (N.lor (N.shiftl (N.land a utf8.mask3) 12) (N.shiftl (N.land b utf8.maskx) 6))
        (N.land c utf8.maskx)
  = ((a mod 16) * 64 + b mod 64) * 64 + c mod 64.
Proof.
  change utf8.mask3 with (N.ones 4). change utf8.maskx with (N.ones 6).
  rewrite !N.land_ones.
  pose proof (N.mod_lt a (2^4)). pose proof (N.mod_lt b (2^6)).
  pose proof (N.mod_lt c (2^6)).
  replace (N.shiftl (a mod 2 ^ 4) 12) with (N.shiftl (a mod 2^4 * 2^6) 6).
  2:{ rewrite !N.shiftl_mul_pow2. lia. }
  rewrite <- N.shiftl_lor. rewrite <- N.shiftl_mul_pow2.
  rewrite (lor_shiftl_add (a mod 2^4) (b mod 2^6) 6) by lia.
  rewrite lor_shiftl_add by lia. change (2^4) with 16. change (2^6) with 64. lia.
Qed.

Lemma rune4_ge a b c d :
  1 ≤ (a mod 8) * 64 + b mod 64 / 16 →
  0x10000 ≤ N.lor (N.lor (N.lor (N.shiftl (N.land a utf8.mask4) 18)
                           (N.shiftl (N.land b utf8.maskx) 12))
                    (N.shiftl (N.land c utf8.maskx) 6))
             (N.land d utf8.maskx).
Proof.
  intros Hab.
  change utf8.mask4 with (N.ones 3). change utf8.maskx with (N.ones 6).
  rewrite !N.land_ones.
  pose proof (N.mod_lt a (2^3)). pose proof (N.mod_lt b (2^6)).
  pose proof (N.mod_lt c (2^6)). pose proof (N.mod_lt d (2^6)).
  replace (N.shiftl (a mod 2 ^ 3) 18) with (N.shiftl (N.shiftl (N.shiftl (a mod 2^3) 6) 6) 6).
  2:{ rewrite !N.shiftl_mul_pow2. lia. }
  replace (N.shiftl (b mod 2 ^ 6) 12) with (N.shiftl (N.shiftl (b mod 2^6) 6) 6).
  2:{ rewrite !N.shiftl_mul_pow2. lia. }
  rewrite <- !N.shiftl_lor.
  rewrite (lor_shiftl_add (a mod 2^3) (b mod 2^6) 6) by lia.
  rewrite (lor_shiftl_add _ (c mod 2^6) 6) by lia.
  rewrite (lor_shiftl_add _ (d mod 2^6) 6) by lia.
  change (2^3) with 8 in *. change (2^6) with 64 in *.
  pose proof (N.Div0.div_mod (b mod 64) 16) as Hdm.
  remember ((b mod 64) / 16) as q eqn:Eq. remember ((b mod 64) mod 16) as r eqn:Er.
  remember (b mod 64) as bm eqn:Eb. remember (a mod 8) as a8 eqn:Ea.
  remember (c mod 64) as cm eqn:Ec. remember (d mod 64) as dm eqn:Ed.
  clear Eq Er Eb Ea Ec Ed. lia.
Qed.

Lemma mod_decomp x k : k ≠ 0 → ∃ q m, x = k * q + m ∧ m < k ∧ x mod k = m ∧ x / k = q.
Proof.
  intros Hk. exists (x / k), (x mod k). repeat split.
  - apply N.Div0.div_mod.
  - by apply N.mod_lt.
Qed.

Ltac use_mod x k :=
  let q := fresh "q" in let m := fresh "m" in
  let H1 := fresh in let H2 := fresh in let H3 := fresh in let H4 := fresh in
  destruct (mod_decomp x k ltac:(done)) as (q & m & H1 & H2 & H3 & H4);
  rewrite ?H3, ?H4 in *; clear H3 H4.

Ltac eval_first x :=
  let b := eval vm_compute in (0xF0 <=? x) in
  let t := eval vm_compute in (N.testbit x 0) in
  let sz := eval vm_compute in (N.to_nat (N.land x 7)) in
  let ar := eval vm_compute in (utf8.acceptRanges (N.shiftr x 4)) in
  change (0xF0 <=? x) with b;
  change (N.testbit x 0) with t;
  change (N.to_nat (N.land x 7)) with sz;
  change (utf8.acceptRanges (N.shiftr x 4)) with ar;
  cbv beta iota zeta;
  change utf8.locb with 0x80; change utf8.hicb with 0xBF;
  repeat match goal with
  | |- context [(?a <=? ?b)%nat] =>
      let v := eval vm_compute in (a <=? b)%nat in change (a <=? b)%nat with v
  end;
  cbv beta iota zeta.

Ltac split_checks :=
  repeat match goal with
  | |- context [(String.length ?u <? ?k)%nat] =>
      destruct (Nat.ltb_spec (String.length u) k);
      [intros [= <- <-]; intros Hx; by cbn in Hx|]
  | |- context [(?a <? ?b) || (?c <? ?d)] =>
      destruct (N.ltb_spec a b); [intros [= <- <-]; intros Hx; by cbn in Hx|];
      destruct (N.ltb_spec c d); [intros [= <- <-]; intros Hx; by cbn in Hx|];
      cbv beta iota zeta; cbn [orb]
  end.

Lemma decode_facts u r size :
  0x80 ≤ at_ u 0 →
  utf8.DecodeRuneInString u = (r, size) →
  (r =? utf8.RuneError) && (size =? 1)%nat = false →
  (2 ≤ size ≤ 4)%nat ∧ (size ≤ String.length u)%nat ∧
  (∀ i, (i < size)%nat → 0x80 ≤ at_ u i) ∧
  ((r = 0x2028 ∨ r = 0x2029) →
     size = 3%nat ∧ at_ u 0 = 0xE2 ∧ at_ u 1 = 0x80 ∧ at_ u 2 = 0x80 + (r - 0x2000)).
Proof.
  intros H0. unfold utf8.DecodeRuneInString.
  destruct (Nat.ltb_spec (String.length u) 1) as [Hn|Hn].
  { destruct u as [|c u]; [change (at_ EmptyString 0) with 0 in H0; lia|]. change (String.length (String c u)) with (S (String.length u)) in Hn. lia. }
  pose proof (at_lt u 0) as Hb0. pose proof (at_lt u 1) as Hb1.
  pose proof (at_lt u 2) as Hb2. pose proof (at_lt u 3) as Hb3.
  cbv zeta.
  destruct (first_cases (at_ u 0) Hb0)
    as [[? _]|[[_ E]|[[? E]|[[? E]|[[? [? E]]|[[? E]|[[? E]|[[? E]|[? E]]]]]]]]];
    [lia|rewrite E..];
    match goal with |- context [0xF0 <=? ?x] => eval_first x end.
  - intros [= <- <-]. intros Hx. by cbn in Hx.
  - split_checks. 
    intros [= <- <-] _.
    pose proof (rune2_lt (at_ u 0) (at_ u 1)). 
    repeat split; try lia.
    intros i Hi. assert (i = 0 ∨ i = 1)%nat as [->| ->] by lia; lia.
  - split_checks. rewrite rune3_eq. intros [= <- <-] _.
    use_mod (at_ u 0) 16. use_mod (at_ u 1) 64. use_mod (at_ u 2) 64.
    repeat split; try lia.
    intros i Hi. assert (i = 0 ∨ i = 1 ∨ i = 2)%nat as [->|[->| ->]] by lia; lia.
  - split_checks. rewrite rune3_eq. intros [= <- <-] _.
    use_mod (at_ u 0) 16. use_mod (at_ u 1) 64. use_mod (at_ u 2) 64.
    repeat split; try lia.
    intros i Hi. assert (i = 0 ∨ i = 1 ∨ i = 2)%nat as [->|[->| ->]] by lia; lia.
  - split_checks. rewrite rune3_eq. intros [= <- <-] _.
    use_mod (at_ u 0) 16. use_mod (at_ u 1) 64. use_mod (at_ u 2) 64.
    repeat split; try lia.
    intros i Hi. assert (i = 0 ∨ i = 1 ∨ i = 2)%nat as [->|[->| ->]] by lia; lia.
  - split_checks. intros [= <- <-] _.
    pose proof (rune4_ge (at_ u 0) (at_ u 1) (at_ u 2) (at_ u 3)) as Hge.
    use_mod (at_ u 0) 8. use_mod (at_ u 1) 64. use_mod m0 16.
    repeat split; try lia.
    intros i Hi. assert (i = 0 ∨ i = 1 ∨ i = 2 ∨ i = 3)%nat as [->|[->|[->| ->]]] by lia; lia.
  - split_checks. intros [= <- <-] _.
    pose proof (rune4_ge (at_ u 0) (at_ u 1) (at_ u 2) (at_ u 3)) as Hge.
    use_mod (at_ u 0) 8. use_mod (at_ u 1) 64. use_mod m0 16.
    repeat split; try lia.
    intros i Hi. assert (i = 0 ∨ i = 1 ∨ i = 2 ∨ i = 3)%nat as [->|[->|[->| ->]]] by lia; lia.
  - split_checks. intros [= <- <-] _.
    pose proof (rune4_ge (at_ u 0) (at_ u 1) (at_ u 2) (at_ u 3)) as Hge.
    use_mod (at_ u 0) 8. use_mod (at_ u 1) 64. use_mod m0 16.
    repeat split; try lia.
    intros i Hi. assert (i = 0 ∨ i = 1 ∨ i = 2 ∨ i = 3)%nat as [->|[->|[->| ->]]] by lia; lia.
Qed.

Lemma length_cons c t : String.length (String c t) = S (String.length t).
Proof. reflexivity. Qed.

Lemma length_nil : String.length EmptyString = 0%nat.
Proof. reflexivity. Qed.

Lemma take_drop n s : take n s +:+ drop n s = s.
Proof.
  revert s; induction n as [|n IH]; intros [|c t]; try done.
  cbn [take drop]. rewrite append_cons. by rewrite IH.
Qed.

Lemma length_drop n s : String.length (drop n s) = (String.length s - n)%nat.
Proof.
  revert s; induction n as [|n IH]; intros [|c t]; try done.
  cbn [drop]. rewrite IH. done.
Qed.

Lemma length_take n s : String.length (take n s) = (n `min` String.length s)%nat.
Proof.
  revert s; induction n as [|n IH]; intros [|c t]; try done.
  cbn [take]. change (String.length (String c ?x)) with (S (String.length x)).
  cbn [String.length]. rewrite IH. lia.
Qed.

Lemma at_take k s i : (i < k)%nat → at_ (take k s) i = at_ s i.
Proof.
  unfold at_. revert s i; induction k as [|k IH]; intros [|c t] i Hi; try done; try lia.
  destruct i as [|i]; [done|]. cbn [take String.get]. apply IH. lia.
Qed.

Lemma all_high_take k s :
  (k ≤ String.length s)%nat → (∀ i, (i < k)%nat → 0x80 ≤ at_ s i) → jsonread.all_high (take k s).
Proof.
  revert s; induction k as [|k IH]; intros [|c t] Hk H; try done.
  rewrite length_cons in Hk. cbn [take jsonread.all_high]. split.
  - apply (H 0%nat). lia.
  - apply IH; [lia|]. intros i Hi. apply (H (S i)). lia.
Qed.

Lemma unquote_raw u rest :
  jsonread.all_high u → jsonread.unquote_body (u +:+ rest) = jsonread.app_fst u (jsonread.unquote_body rest).
Proof.
  induction u as [|c u IH]; intros Hu.
  - rewrite append_nil_l. by destruct (jsonread.unquote_body rest) as [[??]|].
  - destruct Hu as [Hc Hu]. rewrite append_cons. cbn [jsonread.unquote_body].
    destruct (N.eqb_spec (byteN c) 0x22); [lia|].
    destruct (N.eqb_spec (byteN c) 0x5C); [lia|].
    rewrite IH by done. by destruct (jsonread.unquote_body rest) as [[??]|].
Qed.

Lemma appendString_loop_eq f c t :
  json.appendString_loop (S f) (String c t) =
  if byteN c <? utf8.RuneSelf then
    (if json.htmlSafeSet (byteN c) then String c EmptyString else json.escapeByte c)
      +:+ json.appendString_loop f t
  else
    let '(r, size) := utf8.DecodeRuneInString (take utf8.UTFMax (String c t)) in
    if (r =? utf8.RuneError) && (size =? 1)%nat then
      "\ufffd" +:+ json.appendString_loop f (drop size (String c t))
    else if (r =? 0x2028) || (r =? 0x2029) then
      "\u202" +:+ json.hexDigit (N.land r 0xF)
        +:+ json.appendString_loop f (drop size (String c t))
    else
      take size (String c t) +:+ json.appendString_loop f (drop size (String c t)).
Proof. reflexivity. Qed.

Lemma valid_loop_eq f c t :
  utf8.valid_loop (S f) (String c t) =
  if byteN c <? utf8.RuneSelf then utf8.valid_loop f t
  else
    let '(r, size) := utf8.DecodeRuneInString (take utf8.UTFMax (String c t)) in
    if (r =? utf8.RuneError) && (size =? 1)%nat then false
    else utf8.valid_loop f (drop size (String c t)).
Proof. reflexivity. Qed.

(** The fuel given by [appendString] is enough: more fuel does not change
    the result. *)
Lemma appendString_loop_fuel n : ∀ m s,
  (String.length s ≤ n)%nat → (String.length s ≤ m)%nat →
  json.appendString_loop n s = json.appendString_loop m s.
Proof.
  induction n as [|n IH]; intros [|m] [|c t] Hn Hm; try done;
    rewrite ?length_cons in *; try lia.
  rewrite !appendString_loop_eq.
  destruct (N.ltb_spec (byteN c) utf8.RuneSelf) as [Hc|Hc].
  - f_equal. apply IH; lia.
  - destruct (utf8.DecodeRuneInString (take utf8.UTFMax (String c t)))
      as [r size] eqn:Hdec.
    assert (Hrec : json.appendString_loop n (drop size (String c t))
                 = json.appendString_loop m (drop size (String c t))).
    { destruct ((r =? utf8.RuneError) && (size =? 1)%nat) eqn:Herr.
      - apply andb_true_iff in Herr as [_ Hs]. apply Nat.eqb_eq in Hs. subst size.
        apply IH; rewrite length_drop, length_cons; lia.
      - destruct (decode_facts (take utf8.UTFMax (String c t)) r size Hc Hdec Herr)
          as (Hsz & _).
        apply IH; rewrite length_drop, length_cons; lia. }
    by rewrite Hrec.
Qed.

Lemma unquote_u202x r tail :
  r = 0x2028 ∨ r = 0x2029 →
  jsonread.unquote_body ("\u202" +:+ json.hexDigit (N.land r 0xF) +:+ tail)
  = jsonread.cons_fst (ascii_of_N 0xE2) (jsonread.cons_fst (ascii_of_N 0x80)
      (jsonread.cons_fst (ascii_of_N (0x80 + (r - 0x2000))) (jsonread.unquote_body tail))).
Proof. intros [-> | ->]; reflexivity. Qed.

Lemma unquote_loop fuel : ∀ s rest,
  (String.length s ≤ fuel)%nat → utf8.valid_loop fuel s = true →
  jsonread.unquote_body (json.appendString_loop fuel s +:+ dquote +:+ rest) = Some (s, rest).
Proof.
  induction fuel as [|fuel IH]; intros [|c t] rest Hlen Hvalid; try done.

  - rewrite appendString_loop_eq. rewrite valid_loop_eq in Hvalid.
    change (String.length (String c t)) with (S (String.length t)) in Hlen.
    destruct (N.ltb_spec (byteN c) utf8.RuneSelf) as [Hc|Hc].
    + fold (jsonread.enc1 c). rewrite app_assoc_s, unquote_enc1 by done.
      rewrite IH; [done|lia|done].
    + destruct (utf8.DecodeRuneInString (take utf8.UTFMax (String c t)))
        as [r size] eqn:Hdec.
      destruct ((r =? utf8.RuneError) && (size =? 1)%nat) eqn:Herr; [done|].
      destruct (decode_facts (take utf8.UTFMax (String c t)) r size Hc Hdec Herr) as (Hsz & Hle & Hhigh & H28).
      rewrite length_take in Hle.
      change (String.length (String c t)) with (S (String.length t)) in Hle.
      assert (Hrec : jsonread.unquote_body
                (json.appendString_loop fuel (drop size (String c t)) +:+ dquote +:+ rest)
                = Some (drop size (String c t), rest)).
      { apply IH; [|done]. rewrite length_drop.
        change (String.length (String c t)) with (S (String.length t)). lia. }
      destruct ((r =? 0x2028) || (r =? 0x2029)) eqn:Hr.
      * assert (r = 0x2028 ∨ r = 0x2029) as Hr'.
        { apply orb_true_iff in Hr as [Hr|Hr]; apply N.eqb_eq in Hr; auto. }
        destruct (H28 Hr') as (-> & Hb0 & Hb1 & Hb2).
        rewrite !at_take in Hb0, Hb1, Hb2 by (unfold utf8.UTFMax; lia).
        assert (take 3 (String c t) =
                String (ascii_of_N 0xE2) (String (ascii_of_N 0x80)
                  (String (ascii_of_N (0x80 + (r - 0x2000))) EmptyString))) as Htake.
        { destruct t as [|c1 [|c2 t]]; try (rewrite ?length_cons, ?length_nil in Hle; lia).
          cbn [take]. unfold at_ in *. cbn in Hb0, Hb1, Hb2.
          by rewrite (byteN_inj _ _ Hb0), (byteN_inj _ _ Hb1), (byteN_inj _ _ Hb2). }
        rewrite <- (take_drop 3 (String c t)) at 2. rewrite Htake.
        rewrite !app_assoc_s.
        rewrite unquote_u202x, Hrec by done. reflexivity.
      * rewrite app_assoc_s. rewrite unquote_raw, Hrec.
        -- cbn [jsonread.app_fst]. by rewrite take_drop.
        -- apply all_high_take.
           ++ change (String.length (String c t)) with (S (String.length t)).
              unfold utf8.UTFMax in Hle. lia.
           ++ intros i Hi. rewrite <- (at_take utf8.UTFMax) by (unfold utf8.UTFMax; lia).
              by apply Hhigh.
Qed.

Lemma unquote_appendString s rest :
  utf8.valid s = true →
  jsonread.unquote (json.appendString s +:+ rest) = Some (s, rest).
Proof.
  intros Hv. unfold json.appendString. rewrite !app_assoc_s.
  change (dquote +:+ ?x) with (String (ascii_of_nat 34) x).
  cbn [jsonread.unquote].
  change (byteN (ascii_of_nat 34) =? 34) with true. cbv iota.
  by apply unquote_loop.
Qed.

Lemma read_encodeEntry kv rest :
  jsonread.valid_entry kv → jsonread.read_entry (json.encodeEntry kv +:+ rest) = Some (kv, rest).
Proof.
  intros [Hk Hv]. unfold jsonread.read_entry, json.encodeEntry. rewrite !app_assoc_s.
  rewrite unquote_appendString by done. rewrite append_cons, append_nil_l.
  change (byteN ":" =? 58) with true. cbv iota.
  rewrite unquote_appendString by done. by destruct kv.
Qed.

Lemma Join_entries_cons kv l rest :
  Join (json.encodeEntry <$> (kv :: l)) "," +:+ "}" +:+ rest
  = json.encodeEntry kv +:+ jsonread.entries_tail l rest.
Proof.
  destruct l as [|kv' l]; [done|].
  rewrite fmap_cons. cbn [Join]. rewrite fmap_cons. cbn [jsonread.entries_tail].
  rewrite fmap_cons. by rewrite !app_assoc_s.
Qed.

Lemma encodeEntry_head kv : ∃ t, json.encodeEntry kv = String (ascii_of_nat 34) t.
Proof. unfold json.encodeEntry, json.appendString, dquote. eexists. reflexivity. Qed.

Lemma entries_inj l : ∀ l' rest rest',
  Forall jsonread.valid_entry l → Forall jsonread.valid_entry l' →
  Join (json.encodeEntry <$> l) "," +:+ "}" +:+ rest
    = Join (json.encodeEntry <$> l') "," +:+ "}" +:+ rest' →
  l = l'.
Proof.
  induction l as [|kv l IH]; intros [|kv' l'] rest rest' Hl Hl' Heq; [done|..].
  - rewrite Join_entries_cons in Heq. destruct (encodeEntry_head kv') as [t Ht].
    rewrite Ht in Heq. discriminate Heq.
  - rewrite Join_entries_cons in Heq. destruct (encodeEntry_head kv) as [t Ht].
    rewrite Ht in Heq. discriminate Heq.
  - rewrite !Join_entries_cons in Heq.
    apply Forall_cons in Hl as [Hkv Hl]. apply Forall_cons in Hl' as [Hkv' Hl'].
    pose proof (read_encodeEntry kv (jsonread.entries_tail l rest) Hkv) as H1.
    rewrite Heq, read_encodeEntry in H1 by done. injection H1 as -> Htail.
    f_equal. destruct l as [|a l], l' as [|a' l']; [done|discriminate..|].
    cbn [jsonread.entries_tail] in Htail. injection Htail as Htail. symmetry in Htail.
    by eapply IH.
Qed.

Lemma sortedEntries_perm m : json.sortedEntries m ≡ₚ map_to_list m.
Proof. apply merge_sort_Permutation. Qed.

Lemma sortedEntries_inj (m m' : gmap string string) :
  json.sortedEntries m = json.sortedEntries m' → m = m'.
Proof.
  intros H. rewrite <- (list_to_map_to_list m), <- (list_to_map_to_list m').
  apply list_to_map_proper; [apply NoDup_fst_map_to_list|].
  by rewrite <- !sortedEntries_perm, H.
Qed.

Lemma valid_sortedEntries (m : gmap string string) :
  valid_args (Some m) = true → Forall jsonread.valid_entry (json.sortedEntries m).
Proof.
  intros Hm. apply Forall_forall. intros kv Hin.
  rewrite sortedEntries_perm in Hin. cbn [valid_args] in Hm.
  rewrite forallb_forall in Hm. apply list_elem_of_In in Hin.
  apply Hm in Hin. by apply andb_true_iff in Hin.
Qed.

Lemma encodeMap_inj A B :
  valid_args A = true → valid_args B = true →
  json.encodeMap A = json.encodeMap B → A = B.
Proof.
  intros HA HB Heq. destruct A as [a|], B as [b|]; try done.
  f_equal. apply sortedEntries_inj. cbn [json.encodeMap] in Heq.
  injection Heq as Heq.
  eapply (entries_inj _ _ EmptyString EmptyString); eauto using valid_sortedEntries.
Qed.

Lemma Sprintf_x_inj a b : fmt.Sprintf_x a = fmt.Sprintf_x b → a = b.
Proof. intros H. by rewrite <- (unhex_Sprintf_x a), <- (unhex_Sprintf_x b), H. Qed.

Lemma paramsHash_inj A B :
  valid_args A = true → valid_args B = true →
  tool.paramsHash A = tool.paramsHash B → A = B.
Proof.
  intros HA HB H. apply encodeMap_inj; [done..|]. by apply Sprintf_x_inj.
Qed.

End json_props.

(** ** The hash function of identity recipes *)

Section hash_props.
Import gostring log hash_args.

Lemma fnv_Write_app h a b : fnv.Write h (a +:+ b) = fnv.Write (fnv.Write h a) b.
Proof.
  revert h; induction a as [|c a IH]; intros h; [done|].
  rewrite append_cons. cbn [fnv.Write]. apply IH.
Qed.

Lemma writeAll_concat h args :
  writeAll h args = fnv.Write h (concat (json.Marshal <$> args)).
Proof.
  revert h; induction args as [|a args IH]; intros h; [done|].
  rewrite fmap_cons. cbn [writeAll concat]. by rewrite fnv_Write_app, IH.
Qed.

Lemma Parse_hash_bare :
  template.Parse "{{ hash }}"
  = template.Parsed [template.ActionNode (template.ActHash [])].
Proof. vm_compute. reflexivity. Qed.

Lemma Parse_hash_dot :
  template.Parse "{{ hash . }}"
  = template.Parsed [template.ActionNode (template.ActHash [template.OpDot])].
Proof. vm_compute. reflexivity. Qed.

(** C7, as stated, fails: the hasher is fed the arguments one after the
    other, so exchanging two different arguments changes the bytes hashed
    and here also the hash, in the function and in a recipe alike. *)
Lemma hash_argument_order_matters :
  (hashWorkflowArgs None [json.AnyString "1"; json.AnyString "2"]).1
    ≠ (hashWorkflowArgs None [json.AnyString "2"; json.AnyString "1"]).1 ∧
  main.computeWorkflowID (recipe "{{ hash .one .two }}") (Some m12)
    ≠ main.computeWorkflowID (recipe "{{ hash .two .one }}") (Some m12).
Proof. split; vm_compute; discriminate. Qed.

(** C7, amended. With explicit arguments the result of the hash function
    is determined by the canonical JSON forms of those arguments taken in
    the order of the call: it is the FNV-1 hash of their concatenation,
    nothing is logged, and the surrounding argument set plays no part. The
    canonical form of a map does not depend on the order in which its
    entries were inserted. *)
Theorem hash_of_explicit_arguments allParams allParams' args :
  args ≠ [] →
  hashWorkflowArgs allParams args = hashWorkflowArgs allParams' args ∧
  hashWorkflowArgs allParams args
    = ((fmt.Sprintf_d (fnv.Write fnv.New32 (concat (json.Marshal <$> args))), None),
       []) ∧
  (∀ k1 v1 k2 v2 (m : gmap string string), k1 ≠ k2 →
     json.Marshal (json.AnyMap (Some (<[k1 := v1]> (<[k2 := v2]> m))))
     = json.Marshal (json.AnyMap (Some (<[k2 := v2]> (<[k1 := v1]> m))))).
Proof.
  intros Hne. destruct args as [|a args]; [done|].
  assert (H : ∀ p, hashWorkflowArgs p (a :: args)
                = ((fmt.Sprintf_d (fnv.Write fnv.New32
                      (concat (json.Marshal <$> a :: args))), None), [])).
  { intros p. unfold hashWorkflowArgs. cbn [length Nat.eqb bind ret app].
    by rewrite writeAll_concat. }
  split; [by rewrite !H|]. split; [apply H|].
  intros k1 v1 k2 v2 m Hk. by rewrite insert_insert_ne.
Qed.

Lemma hash_of_explicit_arguments_witness :
  hashWorkflowArgs (Some m12) [json.AnyString "1"]
    = hashWorkflowArgs None [json.AnyString "1"] ∧
  hashWorkflowArgs (Some m12) [json.AnyString "1"]
    = ((fmt.Sprintf_d (fnv.Write fnv.New32
          (concat (json.Marshal <$> [json.AnyString "1"]))), None), []) ∧
  (∀ k1 v1 k2 v2 (m : gmap string string), k1 ≠ k2 →
     json.Marshal (json.AnyMap (Some (<[k1 := v1]> (<[k2 := v2]> m))))
     = json.Marshal (json.AnyMap (Some (<[k2 := v2]> (<[k1 := v1]> m))))).
Proof.
  apply (hash_of_explicit_arguments (Some m12) None [json.AnyString "1"]).
  discriminate.
Defined.

(** C8. Called without arguments, the hash function does not fail: it logs
    the diagnostic that recommends [{{ hash . }}] and returns the hash of
    the whole argument set, the value it returns when that set is its one
    explicit argument. So the recipes [{{ hash }}] and [{{ hash . }}] give
    the same identity. *)
Theorem hash_without_arguments allParams :
  (hashWorkflowArgs allParams []).1
    = (hashWorkflowArgs allParams [json.AnyMap allParams]).1 ∧
  (hashWorkflowArgs allParams []).1.2 = None ∧
  (hashWorkflowArgs allParams []).2 = [warning] ∧
  (hashWorkflowArgs allParams [json.AnyMap allParams]).2 = [] ∧
  ∃ id,
    main.computeWorkflowID (recipe "{{ hash }}") allParams
      = Some ((id, None), [warning]) ∧
    main.computeWorkflowID (recipe "{{ hash . }}") allParams
      = Some ((id, None), []).
Proof.
  repeat split.
  unfold main.computeWorkflowID, recipe. cbn [config.WorkflowIDRecipe].
  rewrite Parse_hash_bare, Parse_hash_dot. eexists. split; reflexivity.
Qed.

End hash_props.

(** ** Deriving the execution identity *)

Section identity_props.
Import gostring log temporal.

(** The fuel given by [Parse] is enough. *)
Lemma HasPrefix_length s sep :
  HasPrefix s sep = true → (String.length sep ≤ String.length s)%nat.
Proof.
  unfold HasPrefix. revert s. induction sep as [|c sep IH]; intros [|d s] H;
    rewrite ?length_cons, ?length_nil; try lia; try discriminate H.
  cbn [String.prefix] in H. destruct (ascii_dec c d); [|discriminate H].
  specialize (IH s H). lia.
Qed.

Lemma Cut_length sep s : ∀ before after,
  template.Cut s sep = Some (before, after) →
  (String.length before + String.length sep + String.length after
   = String.length s)%nat.
Proof.
  induction s as [|c s IH]; intros before after H.
  - cbn [template.Cut] in H. destruct (HasPrefix EmptyString sep) eqn:Hp; [|done].
    injection H as <- <-. pose proof (HasPrefix_length _ _ Hp) as Hl.
    rewrite length_drop. rewrite length_nil in *. lia.
  - cbn [template.Cut] in H. destruct (HasPrefix (String c s) sep) eqn:Hp.
    + injection H as <- <-. pose proof (HasPrefix_length _ _ Hp) as Hl.
      rewrite length_drop, length_nil. lia.
    + destruct (template.Cut s sep) as [[b a]|] eqn:Hc; [|done].
      injection H as <- <-. specialize (IH _ _ eq_refl).
      rewrite !length_cons. lia.
Qed.

Lemma parse_loop_fuel n : ∀ m text,
  (String.length text ≤ n)%nat → (String.length text ≤ m)%nat →
  template.parse_loop n text = template.parse_loop m text.
Proof.
  induction n as [|n IH]; intros [|m] text Hn Hm.
  - done.
  - destruct text; [done|]. rewrite length_cons in Hn. lia.
  - destruct text; [done|]. rewrite length_cons in Hm. lia.
  - cbn [template.parse_loop].
    destruct (template.Cut text "{{") as [[before after]|] eqn:H1; [|done].
    destruct (template.Cut after "}}") as [[inside rest]|] eqn:H2; [|done].
    apply Cut_length in H1, H2. change (String.length "{{") with 2%nat in H1.
    change (String.length "}}") with 2%nat in H2.
    destruct (template.parseAction inside); [done|].
    rewrite (IH m rest) by lia. done.
Qed.

Lemma Execute_refs_only funcs params tree :
  refs_only tree = true →
  template.Execute funcs tree params
  = (Some (concat (render params <$> tree)), []).
Proof.
  induction tree as [|n tree IH]; intros Hrefs; [done|].
  cbn [refs_only forallb] in Hrefs. apply andb_true_iff in Hrefs as [Hn Hrefs].
  fold (refs_only tree) in Hrefs. specialize (IH Hrefs).
  rewrite fmap_cons. cbn [concat].
  destruct n as [text|[[|[|name [|??]]]|]]; try discriminate Hn.
  - cbn [template.Execute render]. rewrite IH. reflexivity.
  - cbn [template.Execute template.evalAction template.evalOperand
         template.evalFieldChain template.evalField render].
    destruct params as [m|]; cbn [mbind option_bind].
    + destruct (m !! name) as [v|]; cbn [bind ret]; rewrite IH; reflexivity.
    + cbn [bind ret]. rewrite IH. reflexivity.
Qed.

(** C9, as stated, fails: the recipe [{{ .one.two }}] parses, yet with
    [one] bound to a string its evaluation fails (a string has no field)
    and the identity is not derived. *)
Lemma identity_error_without_parse_error :
  template.Parse "{{ .one.two }}"
    = template.Parsed
        [template.ActionNode (template.ActPrint (template.OpField ["one"; "two"]))] ∧
  main.computeWorkflowID (recipe "{{ .one.two }}") (Some {["one" := "1"]})
    = Some (("", Some TemplateExecError), []).
Proof. split; vm_compute; reflexivity. Qed.

Lemma evalFieldChain_invalid ident :
  template.evalFieldChain template.VInvalid ident = Some template.VInvalid.
Proof. induction ident as [|name ident IH]; [done|]. exact IH. Qed.

Lemma eval_missing_variable funcs (params : option (gmap string string)) name rest :
  params ≫= (λ m, m !! name) = None →
  template.evalAction funcs params
    (template.ActPrint (template.OpField (name :: rest)))
  = (Some "<no value>", []).
Proof.
  intros Hmiss. cbn [template.evalAction template.evalOperand
                     template.evalFieldChain template.evalField].
  destruct params as [m|]; cbn [mbind option_bind] in Hmiss.
  - rewrite Hmiss. by rewrite evalFieldChain_invalid.
  - by rewrite evalFieldChain_invalid.
Qed.

(** C9, amended. Deriving the identity returns an error when the recipe
    fails to parse, and otherwise exactly when the evaluation of the parsed
    recipe fails. A reference to a variable that the argument set lacks is
    not such a failure: the action evaluates to the sentinel "<no value>",
    and a recipe made of text and variable references always evaluates,
    each reference being replaced by the value of the variable or, when it
    is absent, by the sentinel. *)
Theorem identity_errors workflow params :
  match template.Parse (config.WorkflowIDRecipe workflow) with
  | template.ParseError =>
    main.computeWorkflowID workflow params
      = Some (("", Some TemplateParseError), [])
  | template.Parsed tree =>
    let '(r, lg) :=
      template.Execute (hash_args.hashWorkflowArgs params) tree params in
    main.computeWorkflowID workflow params
      = Some (match r with
              | Some out => (out, None)
              | None => ("", Some TemplateExecError)
              end, lg) ∧
    (if refs_only tree
     then main.computeWorkflowID workflow params
            = Some ((concat (render params <$> tree), None), [])
     else True)
  | template.OutsideFragment => main.computeWorkflowID workflow params = None
  end ∧
  ∀ funcs (name : string) rest,
    match params ≫= (λ m : gmap string string, m !! name) with
    | Some _ => True
    | None =>
      template.evalAction funcs params
        (template.ActPrint (template.OpField (name :: rest)))
      = (Some "<no value>", [])
    end.
Proof.
  split.
  - unfold main.computeWorkflowID.
    destruct (template.Parse _) as [tree| |]; [|done..].
    destruct (refs_only tree) eqn:Hrefs.
    + rewrite !(Execute_refs_only _ params tree Hrefs). split; reflexivity.
    + change (λ paramsToHash, hash_args.hashWorkflowArgs params paramsToHash)
        with (hash_args.hashWorkflowArgs params).
      destruct (template.Execute _ _ _) as [[out|] lg]; (split; [|done]);
        cbn [bind ret]; by rewrite app_nil_r.
  - intros funcs name rest.
    destruct (params ≫= (λ m : gmap string string, m !! name)) eqn:Hl; [done|].
    by apply eval_missing_variable.
Qed.

Example identity_missing_variable :
  main.computeWorkflowID (recipe "id_{{ .one }}_{{ .missing }}")
    (Some {["one" := "1"]})
  = Some (("id_1_<no value>", None), []).
Proof. vm_compute. reflexivity. Qed.

End identity_props.

(** ** The result cache *)

Section cache_props.
Import sql config tool.
Implicit Types (db : Table) (c : CacheClient).

Lemma Delete_key_table db name hash :
  (Delete (λ k, String.eqb k.1 name && String.eqb k.2 hash) db).2
  = delete (name, hash) db.
Proof.
  unfold Delete; simpl. apply map_eq; intros [n h].
  destruct (decide ((n, h) = (name, hash))) as [Heq|Hne].
  - inversion Heq; subst. rewrite lookup_delete_eq.
    apply map_lookup_filter_None. right. intros x _. simpl.
    rewrite !String.eqb_refl. simpl. congruence.
  - rewrite lookup_delete_ne by congruence.
    destruct (db !! (n, h)) as [r|] eqn:Hl.
    + apply map_lookup_filter_Some. split; [done|]. simpl.
      destruct (String.eqb_spec n name), (String.eqb_spec h hash); simpl;
        congruence.
    + apply map_lookup_filter_None. by left.
Qed.

Lemma Delete_count_split (w : string * string → bool) db :
  (Z.to_nat (Delete w db).1 + size (Delete w db).2 = size db)%nat.
Proof.
  unfold Delete; simpl. rewrite Nat2Z.id.
  rewrite <- (map_filter_union_complement (λ kv, w kv.1 = true) db) at 3.
  rewrite map_size_disj_union; [done|].
  apply map_disjoint_filter_complement.
Qed.

Lemma NewCacheClient_enabled PD OD cfg c :
  Enabled cfg = true → NewCacheClient PD OD cfg = inl c →
  enabled c = true ∧ PD (TTL cfg) = inl (ttl c).
Proof.
  unfold NewCacheClient. intros ->. simpl.
  destruct (PD (TTL cfg)) as [t|e]; [|discriminate].
  destruct (OD _); [discriminate|]. intros [= <-]. done.
Qed.

(** Unless the difference leaves the range of a [Duration] (about 292
    years), the age that [Get] compares with the TTL is the exact time
    elapsed since the second [created_at]. *)
Lemma Since_exact now created :
  (time.minDuration ≤ now - created * time.Second ≤ time.maxDuration)%Z →
  time.Since now (time.Unix created) = (now - created * time.Second)%Z.
Proof.
  intros [Hlo Hhi]. unfold time.Since, time.Sub, time.Unix.
  destruct (Z.ltb_spec (now - created * time.Second) time.minDuration); [lia|].
  destruct (Z.ltb_spec time.maxDuration (now - created * time.Second)); [lia|].
  done.
Qed.

(** C6. With caching disabled, the client that [NewCacheClient] builds
    makes [Get], [Set] and [Clear] no-ops: for every input they return
    ("", false), nil and (0, nil), and leave the table as it was. *)
Theorem disabled_cache_is_noop PD OD cfg :
  Enabled cfg = false →
  ∃ c, NewCacheClient PD OD cfg = inl c ∧ enabled c = false ∧
    ∀ now workflowName params result db,
      CacheClient_Get c now workflowName params db = (("", false), db) ∧
      CacheClient_Set c now workflowName params result db = (None, db) ∧
      CacheClient_Clear c workflowName db = ((0%Z, None), db).
Proof.
  intros Hoff. exists (mkCacheClient false 0%Z).
  unfold NewCacheClient. rewrite Hoff. simpl. repeat split.
Qed.

Lemma disabled_cache_is_noop_witness :
  ∃ c, NewCacheClient (λ _, inr "bad") (λ _, None)
         (mkCacheConfig false "cache.db" "1h" 0 "10m") = inl c ∧
       enabled c = false ∧
    ∀ now workflowName params result db,
      CacheClient_Get c now workflowName params db = (("", false), db) ∧
      CacheClient_Set c now workflowName params result db = (None, db) ∧
      CacheClient_Clear c workflowName db = ((0%Z, None), db).
Proof. apply disabled_cache_is_noop. reflexivity. Defined.

(** C1. For an enabled cache, [Get] on the key (tool name, hash of the
    arguments): with no row it reports not found and changes nothing;
    with a row whose age [time.Since(created_at)] exceeds the TTL it
    deletes that row (one row fewer, the key is gone) and reports not
    found; otherwise it returns the stored result with found = true and
    changes nothing. Hence whatever [Get] returns as found is the result
    of a row that has not expired. *)
Theorem Get_lazy_expiry c now workflowName params db :
  enabled c = true →
  let key := (workflowName, paramsHash params) in
  let age row := time.Since now (time.Unix (created_at row)) in
  (db !! key = None →
     CacheClient_Get c now workflowName params db = (("", false), db)) ∧
  (∀ row, db !! key = Some row → (age row > ttl c)%Z →
     CacheClient_Get c now workflowName params db
       = (("", false), delete key db) ∧
     (size (delete key db) + 1 = size db)%nat ∧
     delete key db !! key = None) ∧
  (∀ row, db !! key = Some row → (age row ≤ ttl c)%Z →
     CacheClient_Get c now workflowName params db
       = ((row_result row, true), db)) ∧
  (∀ r db', CacheClient_Get c now workflowName params db = ((r, true), db') →
     ∃ row, db !! key = Some row ∧ row_result row = r ∧
            (age row ≤ ttl c)%Z ∧ db' = db).
Proof.
  intros Hen key age. unfold CacheClient_Get, QueryRow. rewrite Hen.
  cbn [negb]. fold key. repeat split.
  - intros ->. done.
  - rewrite H. unfold age in *. rewrite (proj2 (Z.ltb_lt _ _)) by lia.
    unfold key. by rewrite Delete_key_table.
  - pose proof (map_size_delete_Some key db (ex_intro _ row H)) as Hs.
    assert (size db ≠ 0%nat).
    { apply map_size_non_empty_iff. intros ->. by rewrite lookup_empty in H. }
    lia.
  - apply lookup_delete_eq.
  - intros row Hrow Hage. rewrite Hrow. unfold age in Hage.
    by rewrite (proj2 (Z.ltb_ge _ _)) by lia.
  - intros r db'. destruct (db !! key) as [row|] eqn:Hrow; [|intros [=]].
    destruct (Z.ltb_spec (ttl c) (time.Since now (time.Unix (created_at row))));
      intros [= <- <-].
    exists row. unfold age. done.
Qed.

Lemma Get_lazy_expiry_witness :
  let c := mkCacheClient true 3600000000000 in
  let now := 5001000000000%Z in
  let key := ("wfA", paramsHash (Some m12)) in
  let age row := time.Since now (time.Unix (created_at row)) in
  (db_demo !! key = None →
     CacheClient_Get c now "wfA" (Some m12) db_demo = (("", false), db_demo)) ∧
  (∀ row, db_demo !! key = Some row → (age row > ttl c)%Z →
     CacheClient_Get c now "wfA" (Some m12) db_demo
       = (("", false), delete key db_demo) ∧
     (size (delete key db_demo) + 1 = size db_demo)%nat ∧
     delete key db_demo !! key = None) ∧
  (∀ row, db_demo !! key = Some row → (age row ≤ ttl c)%Z →
     CacheClient_Get c now "wfA" (Some m12) db_demo
       = ((row_result row, true), db_demo)) ∧
  (∀ r db', CacheClient_Get c now "wfA" (Some m12) db_demo = ((r, true), db') →
     ∃ row, db_demo !! key = Some row ∧ row_result row = r ∧
            (age row ≤ ttl c)%Z ∧ db' = db_demo).
Proof.
  apply (Get_lazy_expiry (mkCacheClient true 3600000000000) 5001000000000%Z
           "wfA" (Some m12) db_demo).
  reflexivity.
Defined.

(** C5. For an enabled cache, [Clear] with the empty name deletes every
    row, whatever its workflow name; [Clear] with a non-empty name deletes
    exactly the rows of that workflow and leaves every other row as it
    was. Both return the number of rows removed with a nil error, also
    when that number is 0. *)
Theorem Clear_scope c db :
  enabled c = true →
  CacheClient_Clear c "" db = ((Z.of_nat (size db), None), ∅) ∧
  (∀ workflowName, workflowName ≠ "" →
    ∃ n db', CacheClient_Clear c workflowName db = ((n, None), db') ∧
      (∀ k, db' !! k = if decide (k.1 = workflowName) then None else db !! k) ∧
      n = Z.of_nat (size (filter (λ kv, kv.1.1 = workflowName) db)) ∧
      (Z.to_nat n + size db' = size db)%nat) ∧
  (∀ workflowName,
    (∀ k, is_Some (db !! k) → workflowName ≠ "" ∧ k.1 ≠ workflowName) →
    CacheClient_Clear c workflowName db = ((0%Z, None), db)).
Proof.
  intros Hen. unfold CacheClient_Clear. rewrite Hen. cbn [negb].
  split; [|split].
  - cbn. f_equal; [f_equal; f_equal|].
    + f_equal. apply map_filter_id. done.
    + apply map_empty. intros k. apply map_lookup_filter_None. right.
      intros x _. simpl. congruence.
  - intros name Hne. destruct (String.eqb_spec name "") as [|_]; [done|].
    pose proof (Delete_count_split (λ k, String.eqb k.1 name) db) as Hsplit.
    destruct (Delete (λ k, String.eqb k.1 name) db) as [n db'] eqn:HD.
    exists n, db'. unfold Delete in HD. injection HD as Hn Hdb.
    split; [done|]. split; [|split].
    + intros k. subst db'. case_decide as Hk.
      * apply map_lookup_filter_None. right. intros x _. simpl.
        rewrite Hk, String.eqb_refl. congruence.
      * destruct (db !! k) as [r|] eqn:Hl.
        -- apply map_lookup_filter_Some. split; [done|]. simpl.
           destruct (String.eqb_spec k.1 name); congruence.
        -- apply map_lookup_filter_None. by left.
    + subst n. f_equal. f_equal. apply map_filter_ext. intros k x _. simpl.
      destruct (String.eqb_spec k.1 name); split; congruence.
    + exact Hsplit.
  - intros name Hnone.
    assert (Hid : filter (λ kv : string * string * Row,
                            String.eqb kv.1.1 name ≠ true) db = db).
    { apply map_filter_id. intros k x Hk. simpl.
      destruct (Hnone k (ex_intro _ x Hk)) as [_ Hk1].
      destruct (String.eqb_spec k.1 name); congruence. }
    assert (Hnil : filter (λ kv : string * string * Row,
                             String.eqb kv.1.1 name = true) db = ∅).
    { apply map_empty. intros k. apply map_lookup_filter_None.
      destruct (db !! k) as [x|] eqn:Hk; [right|by left].
      intros y Hy. simpl. destruct (Hnone k (ex_intro _ x Hk)) as [_ Hk1].
      destruct (String.eqb_spec k.1 name); congruence. }
    destruct (String.eqb_spec name "") as [->|Hne].
    + assert (db = ∅) as ->.
      { apply map_empty. intros k. destruct (db !! k) eqn:Hk; [|done].
        destruct (Hnone k (ex_intro _ _ Hk)) as [Hbad _]. done. }
      cbn. rewrite !map_filter_empty. done.
    + unfold Delete. cbn. rewrite Hid, Hnil. done.
Qed.

Lemma Clear_scope_witness :
  let c := mkCacheClient true 3600000000000 in
  CacheClient_Clear c "" db_demo = ((Z.of_nat (size db_demo), None), ∅) ∧
  (∀ workflowName, workflowName ≠ "" →
    ∃ n db', CacheClient_Clear c workflowName db_demo = ((n, None), db') ∧
      (∀ k, db' !! k = if decide (k.1 = workflowName) then None else db_demo !! k) ∧
      n = Z.of_nat (size (filter (λ kv, kv.1.1 = workflowName) db_demo)) ∧
      (Z.to_nat n + size db' = size db_demo)%nat) ∧
  (∀ workflowName,
    (∀ k, is_Some (db_demo !! k) → workflowName ≠ "" ∧ k.1 ≠ workflowName) →
    CacheClient_Clear c workflowName db_demo = ((0%Z, None), db_demo)).
Proof.
  apply (Clear_scope (mkCacheClient true 3600000000000) db_demo). reflexivity.
Defined.

(** A result stored by [Set] is returned by [Get] until its age exceeds
    the TTL, and is dropped by the first [Get] after that. *)
Lemma Set_then_Get c t0 t1 workflowName params result db :
  enabled c = true →
  let db1 := (CacheClient_Set c t0 workflowName params result db).2 in
  let age := time.Since t1 (time.Unix (time.Unix_of t0)) in
  CacheClient_Get c t1 workflowName params db1
  = if (ttl c <? age)%Z
    then (("", false), delete (workflowName, paramsHash params) db1)
    else ((result, true), db1).
Proof.
  intros Hen db1 age. subst db1.
  unfold CacheClient_Get, CacheClient_Set, QueryRow, InsertOrReplace.
  rewrite Hen. cbn [negb snd]. fold (paramsHash params).
  rewrite lookup_insert_eq. cbn [created_at row_result]. fold age.
  destruct (ttl c <? age)%Z; [|done]. by rewrite Delete_key_table.
Qed.

Lemma Set_other_key c now workflowName B result db k :
  k ≠ (workflowName, paramsHash B) →
  (CacheClient_Set c now workflowName B result db).2 !! k = db !! k.
Proof.
  intros Hk. unfold CacheClient_Set, InsertOrReplace.
  destruct (enabled c); cbn [negb snd]; [|done].
  rewrite lookup_insert_ne; [done|]. intros Heq. apply Hk. by rewrite <- Heq.
Qed.

Lemma Get_result_of_lookup c now workflowName A db db' :
  db' !! (workflowName, paramsHash A) = db !! (workflowName, paramsHash A) →
  (CacheClient_Get c now workflowName A db').1
  = (CacheClient_Get c now workflowName A db).1.
Proof.
  intros Hl. unfold CacheClient_Get, QueryRow. destruct (enabled c); [|done].
  cbn [negb]. rewrite Hl. destruct (db !! _) as [row|]; [|done].
  by destruct (_ <? _)%Z.
Qed.

(** C10, as stated, fails: the maps {k: 0xFF} and {k: 0xFE} are different,
    yet [json.Marshal] coerces both values to the replacement rune, so they
    get the same primary key and [Get] for one returns what [Set] stored
    for the other. *)
Lemma cache_key_collision :
  argsFF ≠ argsFE ∧
  ("wf", paramsHash argsFF) = ("wf", paramsHash argsFE) ∧
  (CacheClient_Get (mkCacheClient true 1000) 0%Z "wf" argsFF
     (CacheClient_Set (mkCacheClient true 1000) 0%Z "wf" argsFE "result of FE" ∅).2).1
  = ("result of FE", true).
Proof.
  split; [|split].
  - intros H.
    apply (f_equal (λ a, a ≫= (λ m : gmap string string, m !! "k"))) in H.
    vm_compute in H. discriminate H.
  - vm_compute. reflexivity.
  - vm_compute. reflexivity.
Qed.

(** C10, amended. The argument hash is the hexadecimal form of the JSON
    serialization with keys in bytewise order. On argument maps whose keys
    and values are valid UTF-8 it is injective: two primary keys coincide
    exactly when tool name and argument map do; hence a [Set] for a
    different argument map leaves the row of this one untouched, and [Get]
    answers as it did before that [Set]. *)
Theorem cache_key_injective_on_utf8 A B :
  valid_args A = true → valid_args B = true →
  paramsHash A = fmt.Sprintf_x (json.encodeMap A) ∧
  (∀ m, Sorted json.key_le (json.sortedEntries m)) ∧
  (∀ toolA toolB : string,
     (toolA, paramsHash A) = (toolB, paramsHash B) ↔ toolA = toolB ∧ A = B) ∧
  (A ≠ B → ∀ c nowS nowG workflowName result db,
     let db' := (CacheClient_Set c nowS workflowName B result db).2 in
     db' !! (workflowName, paramsHash A) = db !! (workflowName, paramsHash A) ∧
     (CacheClient_Get c nowG workflowName A db').1
     = (CacheClient_Get c nowG workflowName A db).1).
Proof.
  intros HA HB. split; [done|]. split; [|split].
  - intros m. apply Sorted_merge_sort.
    intros x y. unfold json.key_le. apply (total String.le).
  - intros toolA toolB. split.
    + intros [= -> Hh]. split; [done|]. by apply paramsHash_inj.
    + by intros [-> ->].
  - intros Hne c nowS nowG workflowName result db db'.
    assert (Hl : db' !! (workflowName, paramsHash A)
                 = db !! (workflowName, paramsHash A)).
    { apply Set_other_key. intros [= Hh]. apply Hne. by apply paramsHash_inj. }
    split; [done|]. by apply Get_result_of_lookup.
Qed.

Lemma cache_key_injective_on_utf8_witness :
  paramsHash (Some m12) = fmt.Sprintf_x (json.encodeMap (Some m12)) ∧
  (∀ m, Sorted json.key_le (json.sortedEntries m)) ∧
  (∀ toolA toolB : string,
     (toolA, paramsHash (Some m12)) = (toolB, paramsHash None)
     ↔ toolA = toolB ∧ Some m12 = None) ∧
  (Some m12 ≠ None → ∀ c nowS nowG workflowName result db,
     let db' := (CacheClient_Set c nowS workflowName None result db).2 in
     db' !! (workflowName, paramsHash (Some m12))
       = db !! (workflowName, paramsHash (Some m12)) ∧
     (CacheClient_Get c nowG workflowName (Some m12) db').1
     = (CacheClient_Get c nowG workflowName (Some m12) db).1).
Proof.
  apply (cache_key_injective_on_utf8 (Some m12) None); vm_compute; reflexivity.
Defined.

End cache_props.

(** ** The tool handlers *)

Section handler_props.
Import gostring log config temporal mcp sql tool.

(** C3. Whatever the tool, its configuration, the arguments and the
    answers of the engine, every start request the handler sends carries
    the pair of policies that the decision table assigns to the override
    flag: allow-duplicate-failed-only with use-existing when [force_rerun]
    is false, allow-duplicate with terminate-existing when it is true. *)
Theorem disposition_from_override_flag Error Quote uuid name workflow tempClient
    cfg args resp eff :
  main.registerWorkflowTool_handler Error Quote uuid name workflow tempClient
    cfg args = Some (resp, eff) →
  ∀ options wf a,
    CallExecuteWorkflow options wf a ∈ main.calls eff →
    (WorkflowIDReusePolicy options, WorkflowIDConflictPolicy options)
      = disposition (main.ForceRerun args) ∧
    disposition false = (WORKFLOW_ID_REUSE_POLICY_ALLOW_DUPLICATE_FAILED_ONLY,
                         WORKFLOW_ID_CONFLICT_POLICY_USE_EXISTING) ∧
    disposition true = (WORKFLOW_ID_REUSE_POLICY_ALLOW_DUPLICATE,
                        WORKFLOW_ID_CONFLICT_POLICY_TERMINATE_EXISTING).
Proof.
  unfold main.registerWorkflowTool_handler. intros H options wf a Hin.
  split; [|done].
  repeat case_match; simplify_eq; cbn [main.calls] in Hin;
    repeat (apply elem_of_cons in Hin as [Hin|Hin]; simplify_eq);
    try (by apply elem_of_nil in Hin);
    cbn [WorkflowIDReusePolicy WorkflowIDConflictPolicy];
    by destruct (main.ForceRerun args).
Qed.

Lemma disposition_from_override_flag_witness :
  main.registerWorkflowTool_handler demo_error (λ s, s) "uuid" "wf"
    (recipe "id_{{ .one }}") (Some demo_client) (Some demo_config) demo_force
    = Some (NewToolResponse "done", demo_effects) ∧
  ∀ options wf a,
    CallExecuteWorkflow options wf a ∈ main.calls demo_effects →
    (WorkflowIDReusePolicy options, WorkflowIDConflictPolicy options)
      = disposition (main.ForceRerun demo_force) ∧
    disposition false = (WORKFLOW_ID_REUSE_POLICY_ALLOW_DUPLICATE_FAILED_ONLY,
                         WORKFLOW_ID_CONFLICT_POLICY_USE_EXISTING) ∧
    disposition true = (WORKFLOW_ID_REUSE_POLICY_ALLOW_DUPLICATE,
                        WORKFLOW_ID_CONFLICT_POLICY_TERMINATE_EXISTING).
Proof.
  split; [vm_compute; reflexivity|].
  apply (disposition_from_override_flag demo_error (λ s, s) "uuid" "wf"
           (recipe "id_{{ .one }}") (Some demo_client) (Some demo_config)
           demo_force (NewToolResponse "done") demo_effects).
  vm_compute. reflexivity.
Defined.

(** The revision with the cache selects the policies in the same way. *)
Lemma disposition_from_override_flag_cached Error name workflow tempClient
    cacheClient cacheEnabled cfg now args db resp eff :
  main_cached.registerWorkflowTool_handler Error name workflow tempClient
    cacheClient cacheEnabled cfg now args db = Some (resp, eff) →
  ∀ options wf a,
    CallExecuteWorkflow options wf a ∈ main_cached.calls eff →
    (WorkflowIDReusePolicy options, WorkflowIDConflictPolicy options)
      = disposition (main.ForceRerun args).
Proof.
  unfold main_cached.registerWorkflowTool_handler. intros H options wf a Hin.
  repeat case_match; simplify_eq; cbn [main_cached.calls] in Hin;
    repeat (apply elem_of_cons in Hin as [Hin|Hin]; simplify_eq);
    try (by apply elem_of_nil in Hin);
    cbn [WorkflowIDReusePolicy WorkflowIDConflictPolicy];
    by destruct (main.ForceRerun args).
Qed.

(** C4. In the revision of the handler that receives the cache client,
    with caching enabled, the cache is consulted first: when [Get] finds a
    result, the handler returns it and sends no request to the engine,
    whatever the tool, its configuration, the value of [force_rerun], and
    whether or not an engine client is available. *)
Theorem cache_hit_bypasses_engine Error name workflow tempClient c cfg now
    args db cachedResult :
  (CacheClient_Get c now name (main.Params args) db).1 = (cachedResult, true) →
  ∃ eff,
    main_cached.registerWorkflowTool_handler Error name workflow tempClient
      (Some c) true cfg now args db
      = Some (NewToolResponse cachedResult, eff) ∧
    main_cached.calls eff = [] ∧
    main_cached.table eff = db ∧
    enabled c = true.
Proof.
  intros Hget. unfold main_cached.registerWorkflowTool_handler.
  destruct (CacheClient_Get c now name (main.Params args) db)
    as [[r found] db1] eqn:HG.
  cbn [fst] in Hget. injection Hget as -> ->.
  eexists. split; [reflexivity|]. cbn [main_cached.calls main_cached.table].
  split; [done|].
  unfold CacheClient_Get in HG. destruct (enabled c); cbn [negb] in HG;
    [|discriminate HG].
  split; [|done]. repeat case_match; simplify_eq; done.
Qed.

Lemma cache_hit_bypasses_engine_witness :
  ∃ eff,
    main_cached.registerWorkflowTool_handler demo_error "wfB"
      (recipe "{{ .one.two }}") None
      (Some (mkCacheClient true 3600000000000)) true None 5001000000000%Z
      (main.mkWorkflowParams None true) db_demo
      = Some (NewToolResponse "fresh", eff) ∧
    main_cached.calls eff = [] ∧
    main_cached.table eff = db_demo ∧
    enabled (mkCacheClient true 3600000000000) = true.
Proof.
  apply (cache_hit_bypasses_engine demo_error "wfB" (recipe "{{ .one.two }}")
           None (mkCacheClient true 3600000000000) None 5001000000000%Z
           (main.mkWorkflowParams None true) db_demo "fresh").
  vm_compute. reflexivity.
Defined.

(** On a miss, or without a cache, a missing engine client is reported. *)
Lemma cache_miss_without_engine Error name workflow c cfg now args db :
  (CacheClient_Get c now name (main.Params args) db).1.2 = false →
  ∃ eff,
    main_cached.registerWorkflowTool_handler Error name workflow None
      (Some c) true cfg now args db
      = Some (NewToolResponse
                "Error: Temporal service is currently unavailable. Please try again later.",
              eff) ∧
    main_cached.calls eff = [].
Proof.
  intros Hget. unfold main_cached.registerWorkflowTool_handler.
  destruct (CacheClient_Get c now name (main.Params args) db)
    as [[r found] db1] eqn:HG.
  cbn [fst snd] in Hget. subst found. eexists. split; reflexivity.
Qed.

(** The current [main.go] passes no cache to its handler: without an
    engine client every invocation is answered with the error text. *)
Lemma http_handler_without_engine Error Quote uuid name workflow cfg args :
  main.registerWorkflowTool_handler Error Quote uuid name workflow None cfg args
  = Some (NewToolResponse
            "Error: Temporal service is currently unavailable. Please try again later.",
          main.mkEffects
            ["Error: Temporal client is not available for workflow: " +:+ name] []).
Proof. reflexivity. Qed.

End handler_props.

(** ** The history redactor *)

Section redaction_props.
Import gostring protoreflect sanitize_history_event redaction.

Example sanitize_demo_event :
  sanitizeEvent demo_event = Some demo_event_redacted ∧
  redact demo_event = demo_event_redacted ∧
  well_typed demo_event = true.
Proof. vm_compute. done. Qed.

Lemma list_sum_elem {A} (f : A → nat) (l : list A) x :
  x ∈ l → (f x ≤ list_sum (List.map f l))%nat.
Proof.
  induction l as [|y l IH]; intros H; [by apply elem_of_nil in H|].
  apply elem_of_cons in H as [->|H]; simpl; [lia|].
  specialize (IH H). lia.
Qed.

Lemma in_value_size x v : in_value x v → (msize x ≤ vsize v)%nat.
Proof.
  destruct v as [s|m|items|entries]; cbn [in_value vsize].
  - done.
  - by intros ->.
  - intros H. pose proof (list_sum_elem vsize items _ H) as Hs. cbn [vsize] in Hs. lia.
  - intros [k H].
    pose proof (list_sum_elem (λ e : string * Value, let '(_, v) := e in vsize v) entries _ H) as Hs.
    cbn [vsize] in Hs. lia.
Qed.

Lemma Message_ind_direct (P : Message → Prop) :
  (∀ name fs,
     (∀ fd v x, (fd, v) ∈ fs → in_value x v → P x) → P (mkMessage name fs)) →
  ∀ m, P m.
Proof.
  intros Hstep m. remember (msize m) as n eqn:Hn. revert m Hn.
  induction n as [n IH] using lt_wf_ind. intros [name fs] ->.
  apply Hstep. intros fd v x Hin Hx. apply (IH (msize x)); [|done].
  pose proof (in_value_size x v Hx).
  pose proof (list_sum_elem (λ fv : FieldDescriptor * Value, let '(_, v) := fv in vsize v) fs _ Hin) as Hs.
  cbn [msize]. cbn beta iota in Hs. lia.
Qed.

Lemma isPayload_matches x : isPayload x = matches (FullName x).
Proof. reflexivity. Qed.

Lemma sanitizeList_spec sanitize redactf T items : ∀ done,
  (∀ x, VMessage x ∈ items → sanitize x = Some (redactf x)) →
  forallb (λ it, match it with
                 | VMessage x => String.eqb (FullName x) T
                 | _ => false
                 end) items = true →
  sanitizeList sanitize done items
  = Some (if matches T
          then match items with [] => done | _ => [] end
          else done ++ List.map (redactItem redactf) items).
Proof.
  induction items as [|it items IH]; intros done Hs Hty.
  - cbn. destruct (matches T); by rewrite ?app_nil_r.
  - cbn [forallb] in Hty. apply andb_true_iff in Hty as [Hit Hty].
    destruct it as [|x| |]; try discriminate Hit.
    apply String.eqb_eq in Hit.
    cbn [sanitizeList]. rewrite isPayload_matches, Hit.
    destruct (matches T) eqn:HT; [done|].
    rewrite Hs by apply list_elem_of_here.
    rewrite IH; [| |done].
    + cbn [List.map redactItem]. by rewrite <- app_assoc.
    + intros y Hy. apply Hs. by apply list_elem_of_further.
Qed.

Lemma sanitizeMap_spec sanitize redactf entries :
  (∀ k x, (k, VMessage x) ∈ entries → sanitize x = Some (redactf x)) →
  forallb (λ e : string * Value, match e.2 with VMessage _ => true | _ => false end)
    entries = true →
  sanitizeMap sanitize entries = Some (flat_map (redactEntry redactf) entries).
Proof.
  induction entries as [|[k v] entries IH]; intros Hs Hty; [done|].
  cbn [forallb] in Hty. apply andb_true_iff in Hty as [Hv Hty].
  destruct v as [|x| |]; try discriminate Hv.
  cbn [sanitizeMap flat_map]. rewrite IH; [| |done].
  - change (redactEntry redactf (k, VMessage x))
      with (if matches (FullName x) then [] else [(k, VMessage (redactf x))]).
    rewrite isPayload_matches.
    destruct (matches (FullName x)); [done|].
    rewrite (Hs k x) by apply list_elem_of_here. done.
  - intros k' y Hy. apply (Hs k'). by apply list_elem_of_further.
Qed.

Lemma forallb_weaken {A} (f g : A → bool) l :
  (∀ x, x ∈ l → f x = true → g x = true) → forallb f l = true → forallb g l = true.
Proof.
  intros H. rewrite !forallb_forall. intros Hf x Hx.
  apply H; [by apply list_elem_of_In|by apply Hf].
Qed.

Lemma sanitizeField_spec sanitize redactf fd v :
  (∀ x, messageTyped fd = true → in_value x v → sanitize x = Some (redactf x)) →
  onMessages (λ declared x, String.eqb (FullName x) declared) false (fd, v) = true →
  sanitizeField sanitize fd v = Some (redactField redactf (fd, v)).
Proof.
  intros Hs Hty. unfold sanitizeField, redactField, onMessages, messageTyped,
    isMessageList, isMessageMap, isMessageField in *.
  destruct (IsList fd) eqn:HL; cbn [andb negb orb] in *.
  - destruct (Kind_eqb (Kind_ fd) MessageKind) eqn:HK; cbn [negb orb] in *.
    + destruct v as [| |items|]; try discriminate Hty.
      rewrite (sanitizeList_spec sanitize redactf (Message_FullName fd));
        [|by auto|done].
      destruct (matches _); [by destruct items|done].
    + by destruct v.
  - destruct (IsMap fd) eqn:HM; cbn [andb negb orb] in *.
    + destruct (Kind_eqb (MapValue_Kind fd) MessageKind) eqn:HK; cbn [negb orb] in *.
      * destruct v as [| | |entries]; try discriminate Hty.
        rewrite (sanitizeMap_spec sanitize redactf).
        -- done.
        -- intros k x Hx. apply Hs; [done|]. by exists k.
        -- eapply forallb_weaken; [|exact Hty]. intros [k e] _. cbn. by destruct e.
      * by destruct v.
    + destruct (Kind_eqb (Kind_ fd) MessageKind) eqn:HK; cbn [orb] in *.
      * destruct v as [|x| |]; try discriminate Hty.
        apply String.eqb_eq in Hty. rewrite isPayload_matches, Hty.
        destruct (matches _); [done|]. by rewrite Hs.
      * by destruct v.
Qed.

Lemma Range_spec f g fs :
  (∀ fd v, (fd, v) ∈ fs → f fd v = Some (g (fd, v))) →
  Range f fs = Some (flat_map g fs).
Proof.
  induction fs as [|[fd v] fs IH]; intros H; [done|].
  cbn [Range flat_map]. rewrite H by apply list_elem_of_here.
  rewrite IH; [done|]. intros fd' v' Hin. apply H. by apply list_elem_of_further.
Qed.

Lemma onMessages_weaken (p q : string → Message → bool) a fd v :
  (∀ d x, in_value x v → p d x = true → q d x = true) →
  onMessages p a (fd, v) = true → onMessages q a (fd, v) = true.
Proof.
  intros H. unfold onMessages.
  destruct (isMessageList fd); [|destruct (isMessageMap fd); [|destruct (isMessageField fd); [|done]]].
  - destruct v as [| |items|]; try done.
    apply forallb_weaken. intros [|x| |] Hin; try done. by apply H.
  - destruct v as [| | |entries]; try done.
    apply forallb_weaken. intros [k [|x| |]] Hin; cbn [snd]; try done.
    apply H. by exists k.
  - destruct v as [|x| |]; try done. by apply H.
Qed.

Lemma onMessages_in p fd v x :
  onMessages p false (fd, v) = true → messageTyped fd = true → in_value x v →
  p (Message_FullName fd) x = true.
Proof.
  unfold onMessages, messageTyped. intros Hp Hm Hx.
  destruct (isMessageList fd); [|destruct (isMessageMap fd);
    [|destruct (isMessageField fd); [|done]]].
  - destruct v as [| |items|]; try done. cbn [in_value] in Hx.
    rewrite forallb_forall in Hp. apply list_elem_of_In in Hx. exact (Hp _ Hx).
  - destruct v as [| | |entries]; try done. destruct Hx as [k Hx].
    rewrite forallb_forall in Hp. apply list_elem_of_In in Hx. exact (Hp _ Hx).
  - destruct v as [|y| |]; try done. cbn [in_value] in Hx. by subst y.
Qed.

Lemma well_typed_field name fs fd v :
  well_typed (mkMessage name fs) = true → (fd, v) ∈ fs →
  onMessages (λ declared x, String.eqb (FullName x) declared && well_typed x)
    false (fd, v) = true.
Proof.
  cbn [well_typed]. rewrite forallb_forall. intros Hwt Hin.
  apply list_elem_of_In in Hin. exact (Hwt _ Hin).
Qed.

Theorem sanitize_refines_redact m :
  well_typed m = true → sanitizeRecursively m = Some (redact m).
Proof.
  induction m as [name fs IH] using Message_ind_direct. intros Hwt.
  cbn [sanitizeRecursively redact].
  rewrite (Range_spec _ (redactField redact)); [done|].
  intros fd v Hin. pose proof (well_typed_field _ _ _ _ Hwt Hin) as Hf.
  apply sanitizeField_spec.
  - intros x Hm Hx. apply (IH fd v x Hin Hx).
    pose proof (onMessages_in _ _ _ _ Hf Hm Hx) as Hp. cbn beta in Hp.
    by apply andb_true_iff in Hp as [_ ?].
  - eapply onMessages_weaken; [|exact Hf]. intros d x _ Hp. cbn beta in Hp.
    by apply andb_true_iff in Hp as [? _].
Qed.

Lemma redact_FullName m : FullName (redact m) = FullName m.
Proof. by destruct m. Qed.

Lemma forallb_flat_map {A B} (p : B → bool) (g : A → list B) l :
  (∀ x, x ∈ l → forallb p (g x) = true) → forallb p (flat_map g l) = true.
Proof.
  induction l as [|x l IH]; intros H; [done|].
  cbn [flat_map]. rewrite forallb_app, H by apply list_elem_of_here.
  rewrite IH; [done|]. intros y Hy. apply H. by apply list_elem_of_further.
Qed.

Lemma forallb_map_in {A B} (p : B → bool) (g : A → B) l :
  (∀ x, x ∈ l → p (g x) = true) → forallb p (List.map g l) = true.
Proof.
  induction l as [|x l IH]; intros H; [done|].
  cbn [List.map forallb]. rewrite H by apply list_elem_of_here.
  rewrite IH; [done|]. intros y Hy. apply H. by apply list_elem_of_further.
Qed.

Lemma redactField_no_payload redactf fd v :
  onMessages (λ declared x, String.eqb (FullName x) declared) false (fd, v) = true →
  (∀ x, messageTyped fd = true → in_value x v →
        FullName (redactf x) = FullName x ∧ no_payload (redactf x) = true) →
  forallb (onMessages (λ _ x, negb (matches (FullName x)) && no_payload x) true)
    (redactField redactf (fd, v)) = true.
Proof.
  intros Hty Hs. unfold redactField.
  unfold onMessages, messageTyped in *.
  destruct (isMessageList fd) eqn:HL; cbn [orb] in *.
  { destruct v as [| |items|]; try discriminate Hty.
    destruct (matches (Message_FullName fd)) eqn:HT; cbn [forallb]; rewrite HL; [done|].
    rewrite andb_true_r. apply forallb_map_in. intros [|x| |] Hx; cbn [redactItem]; try done.
    rewrite forallb_forall in Hty. pose proof Hx as Hx'. apply list_elem_of_In in Hx'.
    specialize (Hty _ Hx'). cbn beta iota in Hty. apply String.eqb_eq in Hty.
    destruct (Hs x eq_refl Hx) as [Hn Hp]. by rewrite Hn, Hty, HT, Hp. }
  destruct (isMessageMap fd) eqn:HM; cbn [orb] in *.
  { destruct v as [| | |entries]; try discriminate Hty.
    cbn [forallb]. rewrite HL, HM, andb_true_r.
    apply forallb_flat_map. intros [k [|x| |]] Hx; unfold redactEntry; cbn [fst snd]; try done.
    destruct (matches (FullName x)) eqn:HT; [done|]. cbn [forallb snd].
    destruct (Hs x eq_refl (ex_intro _ k Hx)) as [Hn Hp]. by rewrite Hn, HT, Hp. }
  destruct (isMessageField fd) eqn:HF; cbn [orb] in *.
  { destruct v as [|x| |]; try discriminate Hty.
    apply String.eqb_eq in Hty.
    destruct (matches (Message_FullName fd)) eqn:HT; [done|].
    cbn [forallb]. rewrite HL, HM, HF.
    destruct (Hs x eq_refl eq_refl) as [Hn Hp]. by rewrite Hn, Hty, HT, Hp. }
  destruct v; cbn [forallb]; by rewrite HL, HM, HF.
Qed.

Theorem redact_no_payload m : well_typed m = true → no_payload (redact m) = true.
Proof.
  induction m as [name fs IH] using Message_ind_direct. intros Hwt.
  cbn [redact no_payload]. apply forallb_flat_map. intros [fd v] Hin.
  pose proof (well_typed_field _ _ _ _ Hwt Hin) as Hf.
  apply redactField_no_payload.
  - eapply onMessages_weaken; [|exact Hf]. intros d x _ Hp. cbn beta in Hp.
    by apply andb_true_iff in Hp as [? _].
  - intros x Hm Hx. split; [apply redact_FullName|].
    apply (IH fd v x Hin Hx).
    pose proof (onMessages_in _ _ _ _ Hf Hm Hx) as Hp. cbn beta in Hp.
    by apply andb_true_iff in Hp as [_ ?].
Qed.

Lemma flat_map_id {A} (g : A → list A) l :
  (∀ x, x ∈ l → g x = [x]) → flat_map g l = l.
Proof.
  induction l as [|x l IH]; intros H; [done|].
  cbn [flat_map]. rewrite H by apply list_elem_of_here. cbn [app]. f_equal.
  apply IH. intros y Hy. apply H. by apply list_elem_of_further.
Qed.

Lemma map_id_in {A} (g : A → A) l : (∀ x, x ∈ l → g x = x) → List.map g l = l.
Proof.
  induction l as [|x l IH]; intros H; [done|].
  cbn [List.map]. rewrite H by apply list_elem_of_here. f_equal.
  apply IH. intros y Hy. apply H. by apply list_elem_of_further.
Qed.

Lemma redactField_id redactf fd v :
  onMessages (λ declared x, String.eqb (FullName x) declared) false (fd, v) = true →
  onMessages (λ _ x, negb (matches (FullName x)) && no_payload x) true (fd, v) = true →
  (∀ x, messageTyped fd = true → in_value x v → redactf x = x) →
  redactField redactf (fd, v) = [(fd, v)].
Proof.
  intros Hty Hcl Hs. unfold redactField, onMessages, messageTyped in *.
  destruct (isMessageList fd) eqn:HL; cbn [orb] in *.
  { destruct v as [| |items|]; try discriminate Hty.
    destruct (matches (Message_FullName fd)) eqn:HT.
    - destruct items as [|[|x| |] items]; try done.
      cbn [forallb] in Hty, Hcl.
      apply andb_true_iff in Hty as [Hx _]. apply String.eqb_eq in Hx.
      rewrite Hx, HT in Hcl. discriminate Hcl.
    - do 2 f_equal. f_equal. apply map_id_in. intros [|x| |] Hx; cbn [redactItem]; try done.
      f_equal. by apply Hs. }
  destruct (isMessageMap fd) eqn:HM; cbn [orb] in *.
  { destruct v as [| | |entries]; try discriminate Hty.
    do 2 f_equal. f_equal. apply flat_map_id.
    intros [k [|x| |]] Hx; unfold redactEntry; cbn [fst snd]; try done.
    rewrite forallb_forall in Hcl. pose proof Hx as Hx'. apply list_elem_of_In in Hx'.
    specialize (Hcl _ Hx'). cbn [snd] in Hcl. apply andb_true_iff in Hcl as [Hm _].
    apply negb_true_iff in Hm. rewrite Hm. do 3 f_equal. apply Hs; [done|]. by exists k. }
  destruct (isMessageField fd) eqn:HF; cbn [orb] in *.
  { destruct v as [|x| |]; try discriminate Hty.
    apply String.eqb_eq in Hty. apply andb_true_iff in Hcl as [Hm _].
    apply negb_true_iff in Hm. rewrite <- Hty, Hm. do 3 f_equal. by apply Hs. }
  by destruct v.
Qed.

Theorem redact_without_payload m :
  well_typed m = true → no_payload m = true → redact m = m.
Proof.
  induction m as [name fs IH] using Message_ind_direct. intros Hwt Hcl.
  cbn [redact]. f_equal. apply flat_map_id. intros [fd v] Hin.
  pose proof (well_typed_field _ _ _ _ Hwt Hin) as Hf.
  assert (Hc : onMessages (λ _ x, negb (matches (FullName x)) && no_payload x)
                 true (fd, v) = true).
  { cbn [no_payload] in Hcl. rewrite forallb_forall in Hcl.
    apply Hcl. by apply list_elem_of_In. }
  apply redactField_id; [|done|].
  - eapply onMessages_weaken; [|exact Hf]. intros d x _ Hp. cbn beta in Hp.
    by apply andb_true_iff in Hp as [? _].
  - intros x Hm Hx.
    pose proof (onMessages_in _ _ _ _ Hf Hm Hx) as Hp. cbn beta in Hp.
    apply andb_true_iff in Hp as [Hname Hwx].
    apply (IH fd v x Hin Hx Hwx).
    clear -Hc Hf Hm Hx. unfold onMessages, messageTyped in *.
    destruct (isMessageList fd); [|destruct (isMessageMap fd);
      [|destruct (isMessageField fd); [|done]]].
    + destruct v as [| |items|]; try done. cbn [in_value] in Hx.
      rewrite forallb_forall in Hc. apply list_elem_of_In in Hx.
      specialize (Hc _ Hx). cbn beta iota in Hc. by apply andb_true_iff in Hc as [_ ?].
    + destruct v as [| | |entries]; try done. destruct Hx as [k Hx].
      rewrite forallb_forall in Hc. apply list_elem_of_In in Hx.
      specialize (Hc _ Hx). cbn [snd] in Hc. by apply andb_true_iff in Hc as [_ ?].
    + destruct v as [|y| |]; try done. cbn [in_value] in Hx. subst y.
      by apply andb_true_iff in Hc as [_ ?].
Qed.

Lemma drop_app_length (p s : string) : drop (String.length p) (p +:+ s) = s.
Proof. induction p as [|c p IH]; [done|]. exact IH. Qed.

Lemma length_app_s (p s : string) :
  String.length (p +:+ s) = (String.length p + String.length s)%nat.
Proof. induction p as [|c p IH]; [done|]. cbn [String.length]. change (String c p +:+ s) with (String c (p +:+ s)). cbn [String.length]. by rewrite IH. Qed.

Lemma HasSuffix_app p suffix : HasSuffix (p +:+ suffix) suffix = true.
Proof.
  unfold HasSuffix. rewrite length_app_s.
  replace (String.length p + String.length suffix - String.length suffix)%nat
    with (String.length p) by lia.
  rewrite drop_app_length, String.eqb_refl, andb_true_r.
  apply Nat.leb_le. lia.
Qed.

Lemma isPayload_by_suffix p fs fs' :
  isPayload (mkMessage (p +:+ ".Payload") fs) = true ∧
  isPayload (mkMessage (p +:+ ".Payloads") fs) = true ∧
  ∀ name, isPayload (mkMessage name fs) = isPayload (mkMessage name fs').
Proof.
  unfold isPayload. cbn [FullName]. rewrite !HasSuffix_app.
  repeat split. by rewrite orb_true_r.
Qed.

(** C2. On every history event (a tree whose message-typed fields hold
    values of the declared shape and type), [sanitizeEvent] does not fail
    and leaves exactly the tree that the spec describes: a list whose
    element type follows the payload convention is emptied, the entries of
    a map whose value type follows it are removed, a single message field
    whose type follows it is cleared, and every other message-typed value
    is redacted in turn. No payload is left in any message-typed field, and
    a tree without payloads is left as it was. The convention is decided
    by the suffix of the type name alone. *)
Theorem sanitize_removes_payload_nodes m :
  well_typed m = true →
  sanitizeEvent m = Some (redact m) ∧
  no_payload (redact m) = true ∧
  (no_payload m = true → sanitizeEvent m = Some m) ∧
  (∀ x, isPayload x
        = HasSuffix (FullName x) ".Payload" || HasSuffix (FullName x) ".Payloads") ∧
  (∀ p fs, isPayload (mkMessage (p +:+ ".Payload") fs) = true ∧
           isPayload (mkMessage (p +:+ ".Payloads") fs) = true).
Proof.
  intros Hwt. unfold sanitizeEvent. rewrite sanitize_refines_redact by done.
  split; [done|]. split; [by apply redact_no_payload|].
  split; [intros Hcl; by rewrite redact_without_payload|].
  split; [done|]. intros p fs. by destruct (isPayload_by_suffix p fs fs) as (? & ? & _).
Qed.

Lemma sanitize_removes_payload_nodes_witness :
  sanitizeEvent demo_event = Some (redact demo_event) ∧
  no_payload (redact demo_event) = true ∧
  (no_payload demo_event = true → sanitizeEvent demo_event = Some demo_event) ∧
  (∀ x, isPayload x
        = HasSuffix (FullName x) ".Payload" || HasSuffix (FullName x) ".Payloads") ∧
  (∀ p fs, isPayload (mkMessage (p +:+ ".Payload") fs) = true ∧
           isPayload (mkMessage (p +:+ ".Payloads") fs) = true).
Proof. apply (sanitize_removes_payload_nodes demo_event). reflexivity. Defined.

End redaction_props.

(** ** The result cache: how its operations compose *)

Section cache_composition.
Import sql config tool.
Implicit Types (db : Table) (c : CacheClient).

(** [Set] stores the creation time in whole seconds. *)
Lemma Unix_of_floor t :
  (t - 999999999 ≤ time.Unix_of t * time.Second ≤ t)%Z.
Proof.
  unfold time.Unix_of, time.Second.
  pose proof (Z.div_mod t 1000000000 ltac:(lia)) as Hdm.
  pose proof (Z.mod_pos_bound t 1000000000 ltac:(lia)) as Hb.
  remember (t / 1000000000)%Z as q. remember (t mod 1000000000)%Z as r.
  lia.
Qed.

(** X1. Round trip of the cache: a result stored by [Set] at the instant
    [t0] is returned by [Get] for the same tool and arguments at every
    later instant [t1] such that the time elapsed plus the second lost by
    storing the creation time in whole seconds fits in the TTL; the table
    is left as [Set] left it. *)
Theorem Set_Get_round_trip c t0 t1 workflowName params result db :
  enabled c = true → (t0 ≤ t1)%Z → (t1 - t0 + 999999999 ≤ ttl c)%Z →
  let db1 := (CacheClient_Set c t0 workflowName params result db).2 in
  CacheClient_Get c t1 workflowName params db1 = ((result, true), db1).
Proof.
  intros Hen Hle Httl db1. subst db1. rewrite Set_then_Get by done.
  pose proof (Unix_of_floor t0) as Hf.
  unfold time.Since, time.Sub, time.Unix.
  set (d := (t1 - time.Unix_of t0 * time.Second)%Z) in *.
  assert (0 ≤ d ≤ ttl c)%Z by (unfold d; lia).
  destruct (Z.ltb_spec d time.minDuration) as [H1|H1];
    [unfold time.minDuration in H1; lia|].
  destruct (Z.ltb_spec time.maxDuration d) as [H2|H2].
  - destruct (Z.ltb_spec (ttl c) time.maxDuration); [lia|done].
  - destruct (Z.ltb_spec (ttl c) d); [lia|done].
Qed.

Lemma Set_Get_round_trip_witness :
  let db1 := (CacheClient_Set demo_cache 5000500000000%Z "wf" (Some m12) "done"
                db_demo).2 in
  enabled demo_cache = true ∧ (5000500000000 ≤ 5001000000000)%Z ∧
  (5001000000000 - 5000500000000 + 999999999 ≤ ttl demo_cache)%Z ∧
  CacheClient_Get demo_cache 5001000000000%Z "wf" (Some m12) db1
  = (("done", true), db1).
Proof.
  intros db1. split; [reflexivity|]. split; [lia|]. split; [simpl; lia|].
  apply (Set_Get_round_trip demo_cache 5000500000000%Z 5001000000000%Z "wf"
           (Some m12) "done" db_demo); [reflexivity|lia|simpl; lia].
Defined.

(** X2. The creation time is truncated to the second while the age is
    measured in nanoseconds: with a TTL shorter than the part of the second
    already elapsed when [Set] runs, a [Get] at that very instant finds the
    entry expired, reports not found and deletes it. *)
Theorem Set_Get_subsecond_ttl c t0 workflowName params result db :
  enabled c = true → (ttl c < t0 `mod` time.Second)%Z →
  let db1 := (CacheClient_Set c t0 workflowName params result db).2 in
  CacheClient_Get c t0 workflowName params db1
  = (("", false), delete (workflowName, paramsHash params) db).
Proof.
  intros Hen Httl db1. subst db1. rewrite Set_then_Get by done.
  assert (Hage : time.Since t0 (time.Unix (time.Unix_of t0))
                 = (t0 `mod` time.Second)%Z).
  { unfold time.Since, time.Sub, time.Unix, time.Unix_of, time.Second.
    pose proof (Z.div_mod t0 1000000000 ltac:(lia)) as Hdm.
    pose proof (Z.mod_pos_bound t0 1000000000 ltac:(lia)) as Hb.
    remember (t0 / 1000000000)%Z as q. remember (t0 mod 1000000000)%Z as r.
    replace (t0 - q * 1000000000)%Z with r by lia.
    destruct (Z.ltb_spec r time.minDuration) as [H1|H1];
      [unfold time.minDuration in H1; lia|].
    destruct (Z.ltb_spec time.maxDuration r) as [H2|H2];
      [unfold time.maxDuration in H2; lia|]. done. }
  rewrite Hage. rewrite (proj2 (Z.ltb_lt _ _)) by done.
  unfold CacheClient_Set, InsertOrReplace. rewrite Hen. cbn [negb snd].
  fold (paramsHash params). by rewrite delete_insert_eq.
Qed.

Lemma Set_Get_subsecond_ttl_witness :
  let c := mkCacheClient true 100000000%Z in
  let db1 := (CacheClient_Set c 5000500000000%Z "wf" (Some m12) "done" db_demo).2 in
  enabled c = true ∧ (ttl c < 5000500000000 `mod` time.Second)%Z ∧
  CacheClient_Get c 5000500000000%Z "wf" (Some m12) db1
  = (("", false), delete ("wf", paramsHash (Some m12)) db_demo).
Proof.
  intros c db1. split; [reflexivity|]. split; [vm_compute; reflexivity|].
  apply (Set_Get_subsecond_ttl c 5000500000000%Z "wf" (Some m12) "done" db_demo);
    [reflexivity|vm_compute; reflexivity].
Defined.

Lemma Delete_lookup (w : string * string → bool) db k :
  (Delete w db).2 !! k = if w k then None else db !! k.
Proof.
  unfold Delete; simpl. destruct (w k) eqn:Hw.
  - apply map_lookup_filter_None. right. intros x _. simpl. congruence.
  - destruct (db !! k) as [r|] eqn:Hl.
    + apply map_lookup_filter_Some. split; [done|]. simpl. congruence.
    + apply map_lookup_filter_None. by left.
Qed.

Lemma Clear_lookup c name db k :
  enabled c = true →
  (CacheClient_Clear c name db).2 !! k
  = if String.eqb name "" then None
    else if String.eqb k.1 name then None else db !! k.
Proof.
  intros Hen. unfold CacheClient_Clear. rewrite Hen. cbn [negb].
  destruct (String.eqb name "").
  - destruct (Delete (λ _, true) db) as [n db'] eqn:HD. cbn [snd].
    change db' with (n, db').2. rewrite <- HD. by rewrite Delete_lookup.
  - destruct (Delete (λ k0, String.eqb k0.1 name) db) as [n db'] eqn:HD.
    cbn [snd]. change db' with (n, db').2. rewrite <- HD.
    by rewrite Delete_lookup.
Qed.

Lemma Get_by_lookup c now name params db :
  enabled c = true →
  (CacheClient_Get c now name params db).1
  = match db !! (name, paramsHash params) with
    | None => ("", false)
    | Some row =>
      if (ttl c <? time.Since now (time.Unix (created_at row)))%Z
      then ("", false) else (row_result row, true)
    end.
Proof.
  intros Hen. unfold CacheClient_Get, QueryRow. rewrite Hen. cbn [negb].
  destruct (db !! _) as [row|]; [|done].
  by destruct (_ <? _)%Z.
Qed.

(** X3. [Set] is an upsert. Storing a second result for the same tool and
    arguments replaces the first: the table is the one that the second
    [Set] alone would have produced, it has as many rows as after the first
    [Set], the row of the key holds the second result, and no other row is
    touched. *)
Theorem Set_upsert c t0 t1 workflowName params r1 r2 db :
  enabled c = true →
  let key := (workflowName, paramsHash params) in
  let db1 := (CacheClient_Set c t0 workflowName params r1 db).2 in
  let db2 := (CacheClient_Set c t1 workflowName params r2 db1).2 in
  db2 = (CacheClient_Set c t1 workflowName params r2 db).2 ∧
  size db2 = size db1 ∧
  (row_result <$> db2 !! key) = Some r2 ∧
  (∀ k, k ≠ key → db2 !! k = db !! k).
Proof.
  intros Hen key db1 db2. subst db1 db2 key.
  unfold CacheClient_Set, InsertOrReplace. rewrite Hen. cbn [negb snd].
  fold (paramsHash params). repeat split.
  - by rewrite insert_insert_eq.
  - rewrite insert_insert_eq.
    destruct (db !! (workflowName, paramsHash params)) as [r|] eqn:Hl.
    + rewrite !map_size_insert_Some; eauto.
    + rewrite !map_size_insert_None; eauto.
  - by rewrite lookup_insert_eq.
  - intros k Hk. by rewrite !lookup_insert_ne.
Qed.

Lemma Set_upsert_witness :
  let key := ("wf", paramsHash (Some m12)) in
  let db1 := (CacheClient_Set demo_cache 1000%Z "wf" (Some m12) "first" db_demo).2 in
  let db2 := (CacheClient_Set demo_cache 2000%Z "wf" (Some m12) "second" db1).2 in
  enabled demo_cache = true ∧
  db2 = (CacheClient_Set demo_cache 2000%Z "wf" (Some m12) "second" db_demo).2 ∧
  size db2 = size db1 ∧
  (row_result <$> db2 !! key) = Some "second" ∧
  (∀ k, k ≠ key → db2 !! k = db_demo !! k).
Proof.
  intros key db1 db2. split; [reflexivity|].
  apply (Set_upsert demo_cache 1000%Z 2000%Z "wf" (Some m12) "first" "second"
           db_demo).
  reflexivity.
Defined.

(** X4. [Clear] followed by [Get]. After clearing the whole cache no tool
    finds a result; after clearing one tool that tool finds none, whatever
    the arguments; and clearing one tool does not change what [Get] answers
    for any other tool. *)
Theorem Clear_then_Get c now workflowName params db :
  enabled c = true →
  (∀ name,
     (CacheClient_Get c now name params (CacheClient_Clear c "" db).2).1
     = ("", false)) ∧
  (CacheClient_Get c now workflowName params
     (CacheClient_Clear c workflowName db).2).1 = ("", false) ∧
  (∀ other : string, workflowName ≠ "" → other ≠ workflowName →
     (CacheClient_Get c now other params (CacheClient_Clear c workflowName db).2).1
     = (CacheClient_Get c now other params db).1).
Proof.
  intros Hen. repeat split.
  - intros name. rewrite Get_by_lookup, Clear_lookup by done. done.
  - rewrite Get_by_lookup, Clear_lookup by done. cbn [fst].
    rewrite String.eqb_refl. by destruct (String.eqb workflowName "").
  - intros other Hne Hother. rewrite !Get_by_lookup, Clear_lookup by done.
    cbn [fst]. destruct (String.eqb_spec workflowName ""); [done|].
    destruct (String.eqb_spec other workflowName); done.
Qed.

Lemma Clear_then_Get_witness :
  enabled demo_cache = true ∧
  (∀ name,
     (CacheClient_Get demo_cache 5001000000000%Z name (Some m12)
        (CacheClient_Clear demo_cache "" db_demo).2).1 = ("", false)) ∧
  (CacheClient_Get demo_cache 5001000000000%Z "wfA" (Some m12)
     (CacheClient_Clear demo_cache "wfA" db_demo).2).1 = ("", false) ∧
  (∀ other : string, "wfA" ≠ "" → other ≠ "wfA" →
     (CacheClient_Get demo_cache 5001000000000%Z other (Some m12)
        (CacheClient_Clear demo_cache "wfA" db_demo).2).1
     = (CacheClient_Get demo_cache 5001000000000%Z other (Some m12) db_demo).1).
Proof.
  split; [reflexivity|].
  apply (Clear_then_Get demo_cache 5001000000000%Z "wfA" (Some m12) db_demo).
  reflexivity.
Defined.

(** X5. The footprint of [Get]: it never adds a row, it leaves every row
    other than the one of its own key as it was, and when it reports a
    result as found it has not changed the table at all. *)
Theorem Get_frame c now workflowName params db :
  let db' := (CacheClient_Get c now workflowName params db).2 in
  (∀ k, k ≠ (workflowName, paramsHash params) → db' !! k = db !! k) ∧
  db' ⊆ db ∧
  ((CacheClient_Get c now workflowName params db).1.2 = true → db' = db).
Proof.
  intros db'. subst db'. unfold CacheClient_Get, QueryRow.
  destruct (enabled c); cbn [negb]; [|done].
  destruct (db !! _) as [row|] eqn:Hl; [|done].
  destruct (_ <? _)%Z; [|done].
  rewrite Delete_key_table. cbn [fst snd]. repeat split.
  - intros k Hk. by rewrite lookup_delete_ne.
  - apply delete_subseteq.
  - discriminate.
Qed.

(** X6. The tool [ClearCache]: with an enabled cache its response states
    the number of rows that were stored for the named workflow (for all
    workflows when the name is empty), exactly those rows are gone from the
    table, and the others are untouched. *)
Theorem ClearCache_reports_rows c workflowName db :
  enabled c = true →
  let rows :=
    filter (λ kv : (string * string) * Row,
              workflowName = "" ∨ kv.1.1 = workflowName) db in
  ∃ text db',
    main_cached.registerCacheClearTool_handler (Some c) workflowName db
      = (inl (mcp.NewToolResponse text), db') ∧
    text = "Successfully cleared " +:+ fmt.Sprintf_d (N.of_nat (size rows))
           +:+ (if String.eqb workflowName "" then " cache entries"
                else " cache entries for workflow '" +:+ workflowName +:+ "'") ∧
    (size db' + size rows = size db)%nat ∧
    (∀ k, db' !! k = if decide (workflowName = "" ∨ k.1 = workflowName)
                     then None else db !! k).
Proof.
  intros Hen rows.
  unfold main_cached.registerCacheClearTool_handler, CacheClient_Clear.
  rewrite Hen. cbn [negb].
  destruct (String.eqb_spec workflowName "") as [->|Hne].
  - set (D := Delete (λ _, true) db).
    pose proof (Delete_count_split (λ _, true) db) as Hsz. fold D in Hsz.
    pose proof (Delete_lookup (λ _, true) db) as Hlk. fold D in Hlk.
    assert (Hrows : D.1 = Z.of_nat (size rows)).
    { unfold D, Delete; cbn [fst]. apply (f_equal Z.of_nat), (f_equal size).
      subst rows. apply map_filter_ext. intros; simpl. tauto. }
    destruct D as [n db']. cbn [fst snd] in *. subst n.
    eexists _, db'. split; [reflexivity|]. cbn [negb]. repeat split.
    + by rewrite <- nat_N_Z, N2Z.id.
    + rewrite Nat2Z.id in Hsz. lia.
    + intros k. rewrite Hlk. destruct (decide _) as [|[]]; [done|]. by left.
  - set (D := Delete (λ k, String.eqb k.1 workflowName) db).
    pose proof (Delete_count_split (λ k, String.eqb k.1 workflowName) db) as Hsz.
    fold D in Hsz.
    pose proof (Delete_lookup (λ k, String.eqb k.1 workflowName) db) as Hlk.
    fold D in Hlk.
    assert (Hrows : D.1 = Z.of_nat (size rows)).
    { unfold D, Delete; cbn [fst]. apply (f_equal Z.of_nat), (f_equal size).
      subst rows. apply map_filter_ext. intros [n h] r _; simpl.
      destruct (String.eqb_spec n workflowName); split; intros; try tauto;
        try done. }
    destruct D as [n db']. cbn [fst snd] in *. subst n.
    eexists _, db'. split; [reflexivity|]. cbn [negb]. repeat split.
    + by rewrite <- nat_N_Z, N2Z.id.
    + rewrite Nat2Z.id in Hsz. lia.
    + intros k. rewrite Hlk. destruct (String.eqb_spec k.1 workflowName);
        destruct (decide _) as [[|]|]; try done. exfalso; tauto.
Qed.

Lemma ClearCache_reports_rows_witness :
  let rows :=
    filter (λ kv : (string * string) * Row, "wfA" = "" ∨ kv.1.1 = "wfA")
      db_demo in
  enabled demo_cache = true ∧
  ∃ text db',
    main_cached.registerCacheClearTool_handler (Some demo_cache) "wfA" db_demo
      = (inl (mcp.NewToolResponse text), db') ∧
    text = "Successfully cleared " +:+ fmt.Sprintf_d (N.of_nat (size rows))
           +:+ (if String.eqb "wfA" "" then " cache entries"
                else " cache entries for workflow '" +:+ "wfA" +:+ "'") ∧
    (size db' + size rows = size db_demo)%nat ∧
    (∀ k, db' !! k = if decide ("wfA" = "" ∨ k.1 = "wfA")
                     then None else db_demo !! k).
Proof.
  intros rows. split; [reflexivity|].
  apply (ClearCache_reports_rows demo_cache "wfA" db_demo). reflexivity.
Defined.

End cache_composition.

(** ** The tool handlers: validation, the start request, the cache *)

Section handler_composition.
Import gostring log config temporal mcp sql tool.

Lemma missingParams_nil workflow params :
  main.missingParams workflow (Some params) = [] →
  ∀ p, p ∈ main.requiredParams workflow →
       ∃ v, params !! p = Some v ∧ v ≠ "".
Proof.
  unfold main.missingParams. intros Hnil p Hp.
  destruct (params !! p) as [v|] eqn:Hl.
  - exists v. split; [done|]. intros ->.
    assert (p ∈ ([] : list string)) as Hin; [|by apply elem_of_nil in Hin].
    rewrite <- Hnil. apply list_elem_of_filter. split; [|done].
    right. unfold main.index. cbn. by rewrite Hl.
  - assert (p ∈ ([] : list string)) as Hin; [|by apply elem_of_nil in Hin].
    rewrite <- Hnil. apply list_elem_of_filter. split; [|done].
    left. unfold main.index. cbn. by rewrite Hl.
Qed.

(** X7. Validation comes before the engine. Whenever the handler of
    [main.go] sends a request to the engine, an engine client was
    available, the call carried an argument map, and every required
    parameter of the workflow (a field whose description does not contain
    "Optional") is present in it with a non-empty value. *)
Theorem engine_call_needs_required_params Error Quote uuid name workflow
    tempClient cfg args resp eff :
  main.registerWorkflowTool_handler Error Quote uuid name workflow tempClient
    cfg args = Some (resp, eff) →
  main.calls eff ≠ [] →
  ∃ client params,
    tempClient = Some client ∧ main.Params args = Some params ∧
    ∀ p, p ∈ main.requiredParams workflow →
         ∃ v, params !! p = Some v ∧ v ≠ "".
Proof.
  unfold main.registerWorkflowTool_handler. intros H Hcalls.
  destruct tempClient as [client|]; [|by simplify_eq].
  destruct (main.Params args) as [params|] eqn:HP; [|by simplify_eq].
  exists client, params. split; [done|]. split; [done|].
  destruct (main.missingParams workflow (Some params)) as [|m ms] eqn:Hm.
  - by apply missingParams_nil.
  - cbn in H. by simplify_eq.
Qed.

Lemma engine_call_needs_required_params_witness :
  main.registerWorkflowTool_handler demo_error (λ s, s) "uuid" "wf"
    (recipe "id_{{ .one }}") (Some demo_client) (Some demo_config) demo_force
    = Some (NewToolResponse "done", demo_effects) ∧
  main.calls demo_effects ≠ [] ∧
  ∃ client params,
    Some demo_client = Some client ∧ main.Params demo_force = Some params ∧
    ∀ p, p ∈ main.requiredParams (recipe "id_{{ .one }}") →
         ∃ v, params !! p = Some v ∧ v ≠ "".
Proof.
  split; [vm_compute; reflexivity|]. split; [discriminate|].
  apply (engine_call_needs_required_params demo_error (λ s, s) "uuid" "wf"
           (recipe "id_{{ .one }}") (Some demo_client) (Some demo_config)
           demo_force (NewToolResponse "done") demo_effects).
  - vm_compute. reflexivity.
  - discriminate.
Defined.

(** X8. What a start request carries. Provided [uuid.NewString] does not
    return the empty string, every start request of the handler of
    [main.go] has a non-empty workflow ID: the identity computed from the
    recipe, or the random identifier when that identity is empty. The
    workflow type is the name of the tool, the input is the argument map of
    the call, and the task queue is the one of the workflow or, when that
    is empty and a configuration is present, the default task queue. *)
Theorem start_request_contents Error Quote uuid name workflow tempClient
    cfg args resp eff :
  uuid ≠ "" →
  main.registerWorkflowTool_handler Error Quote uuid name workflow tempClient
    cfg args = Some (resp, eff) →
  ∀ options wf a,
    CallExecuteWorkflow options wf a ∈ main.calls eff →
    ID options ≠ "" ∧ wf = name ∧ a = main.Params args ∧
    TaskQueue options
    = match cfg with
      | Some cfg => if String.eqb (config.TaskQueue workflow) ""
                    then DefaultTaskQueue (Temporal cfg)
                    else config.TaskQueue workflow
      | None => config.TaskQueue workflow
      end ∧
    ∃ identity log,
      main.computeWorkflowID workflow (main.Params args)
        = Some ((identity, None), log) ∧
      ID options = if String.eqb identity "" then uuid else identity.
Proof.
  unfold main.registerWorkflowTool_handler. intros Huuid H options wf a Hin.
  repeat case_match; simplify_eq; cbn [main.calls] in Hin;
    repeat (apply elem_of_cons in Hin as [Hin|Hin]; simplify_eq);
    try (by apply elem_of_nil in Hin); cbn [ID TaskQueue].
  all: split;
    [first [done | by apply String.eqb_neq]|];
    split; [done|]; split; [done|]; split; [done|].
  all: eexists _, _; split; [reflexivity|].
  all: match goal with H : String.eqb _ "" = _ |- _ => by rewrite H end.
Qed.

Lemma start_request_contents_witness :
  "uuid" ≠ "" ∧
  main.registerWorkflowTool_handler demo_error (λ s, s) "uuid" "wf"
    (recipe "id_{{ .one }}") (Some demo_client) (Some demo_config) demo_force
    = Some (NewToolResponse "done", demo_effects) ∧
  ∀ options wf a,
    CallExecuteWorkflow options wf a ∈ main.calls demo_effects →
    ID options ≠ "" ∧ wf = "wf" ∧ a = main.Params demo_force ∧
    TaskQueue options
    = match Some demo_config with
      | Some cfg => if String.eqb (config.TaskQueue (recipe "id_{{ .one }}")) ""
                    then DefaultTaskQueue (Temporal cfg)
                    else config.TaskQueue (recipe "id_{{ .one }}")
      | None => config.TaskQueue (recipe "id_{{ .one }}")
      end ∧
    ∃ identity log,
      main.computeWorkflowID (recipe "id_{{ .one }}") (main.Params demo_force)
        = Some ((identity, None), log) ∧
      ID options = if String.eqb identity "" then "uuid" else identity.
Proof.
  split; [discriminate|]. split; [vm_compute; reflexivity|].
  apply (start_request_contents demo_error (λ s, s) "uuid" "wf"
           (recipe "id_{{ .one }}") (Some demo_client) (Some demo_config)
           demo_force (NewToolResponse "done") demo_effects).
  - discriminate.
  - vm_compute. reflexivity.
Defined.

(** X9. The exchange with the engine. An invocation of the handler of
    [main.go] sends nothing, or exactly one start request; it waits for the
    result only of the run that this request returned, and then only once.
    The response is the error text when the start fails, the result of the
    run when it completes, and the failure text when it fails. *)
Theorem engine_protocol Error Quote uuid name workflow tempClient cfg args
    resp eff :
  main.registerWorkflowTool_handler Error Quote uuid name workflow tempClient
    cfg args = Some (resp, eff) →
  main.calls eff = [] ∨
  ∃ client options,
    tempClient = Some client ∧
    let start := CallExecuteWorkflow options name (main.Params args) in
    match ExecuteWorkflow client options name (main.Params args) with
    | inr err =>
      main.calls eff = [start] ∧
      resp = NewToolResponse ("Error executing workflow: " +:+ Error err)
    | inl run =>
      main.calls eff = [start; CallRunGet run] ∧
      resp = NewToolResponse
               match Get run with
               | inl result => result
               | inr err => "Workflow failed: " +:+ Error err
               end
    end.
Proof.
  unfold main.registerWorkflowTool_handler. intros H.
  repeat case_match; simplify_eq; cbn [main.calls]; try (by left); right;
    eexists _, _; (split; [reflexivity|]); cbn zeta;
    match goal with H : ExecuteWorkflow _ _ _ _ = _ |- _ => rewrite H end;
    try match goal with H : Get _ = _ |- _ => rewrite H end; done.
Qed.

Lemma engine_protocol_witness :
  main.registerWorkflowTool_handler demo_error (λ s, s) "uuid" "wf"
    (recipe "id_{{ .one }}") (Some demo_client) (Some demo_config) demo_force
    = Some (NewToolResponse "done", demo_effects) ∧
  (main.calls demo_effects = [] ∨
   ∃ client options,
     Some demo_client = Some client ∧
     let start := CallExecuteWorkflow options "wf" (main.Params demo_force) in
     match ExecuteWorkflow client options "wf" (main.Params demo_force) with
     | inr err =>
       main.calls demo_effects = [start] ∧
       NewToolResponse "done"
       = NewToolResponse ("Error executing workflow: " +:+ demo_error err)
     | inl run =>
       main.calls demo_effects = [start; CallRunGet run] ∧
       NewToolResponse "done"
       = NewToolResponse
           match Get run with
           | inl result => result
           | inr err => "Workflow failed: " +:+ demo_error err
           end
     end).
Proof.
  split; [vm_compute; reflexivity|].
  apply (engine_protocol demo_error (λ s, s) "uuid" "wf"
           (recipe "id_{{ .one }}") (Some demo_client) (Some demo_config)
           demo_force (NewToolResponse "done") demo_effects).
  vm_compute. reflexivity.
Defined.

(** X10. The footprint of the cache-aware handler on the table. Whatever
    happens, only the row of the key (tool name, hash of the arguments) can
    change. Unless a run completed with a result, nothing is written: the
    table can only have lost the expired row of that key. Without a cache
    client, with caching switched off for the handler, or with a disabled
    client, the table is left as it was. *)
Theorem handler_cache_footprint Error name workflow tempClient cacheClient
    cacheEnabled cfg now args db resp eff :
  main_cached.registerWorkflowTool_handler Error name workflow tempClient
    cacheClient cacheEnabled cfg now args db = Some (resp, eff) →
  let key := (name, paramsHash (main.Params args)) in
  (∀ k, k ≠ key → main_cached.table eff !! k = db !! k) ∧
  ((∀ run result, CallRunGet run ∈ main_cached.calls eff →
                  Get run ≠ inl result) →
   main_cached.table eff ⊆ db) ∧
  (cacheEnabled = false ∨ cacheClient = None ∨
   (∃ c, cacheClient = Some c ∧ enabled c = false) →
   main_cached.table eff = db).
Proof.
  intros H key.
  assert (HG : ∀ c,
    (∀ k, k ≠ key →
       (CacheClient_Get c now name (main.Params args) db).2 !! k = db !! k) ∧
    (CacheClient_Get c now name (main.Params args) db).2 ⊆ db ∧
    (enabled c = false →
       (CacheClient_Get c now name (main.Params args) db).2 = db)).
  { intros c. unfold CacheClient_Get, QueryRow.
    destruct (enabled c); cbn [negb]; [|done].
    destruct (db !! _) as [row|] eqn:Hl; [|done].
    destruct (_ <? _)%Z; [|done].
    rewrite Delete_key_table. cbn [fst snd]. repeat split; [|apply delete_subseteq|done].
    intros k Hk. by rewrite lookup_delete_ne. }
  assert (HS : ∀ c result db1,
    (∀ k, k ≠ key →
       (CacheClient_Set c now name (main.Params args) result db1).2 !! k
       = db1 !! k) ∧
    (enabled c = false →
       (CacheClient_Set c now name (main.Params args) result db1).2 = db1)).
  { intros c result db1. unfold CacheClient_Set, InsertOrReplace.
    destruct (enabled c); cbn [negb snd]; [|done]. split; [|done].
    intros k Hk. fold (paramsHash (main.Params args)).
    by rewrite lookup_insert_ne. }
  unfold main_cached.registerWorkflowTool_handler in H.
  destruct cacheClient as [c|]; [destruct cacheEnabled|].
  - destruct (HG c) as (HG1 & HG2 & HG3).
    destruct (CacheClient_Get c now name (main.Params args) db)
      as [[r found] db1] eqn:HGet. cbn [snd] in *.
    repeat case_match; simplify_eq; cbn [main_cached.table main_cached.calls];
      (split; [|split]);
      try done;
      try (intros [|[|(c' & ? & Hd)]]; simplify_eq; by auto);
      try (intros k Hk;
           match goal with
           | H : CacheClient_Set ?c ?n ?nm ?p ?r ?d = (_, ?t) |- ?t !! _ = _ =>
             pose proof (proj1 (HS c r d) k Hk) as HS1; rewrite H in HS1;
             cbn [snd] in HS1; rewrite HS1; by apply HG1
           end);
      try (intros Hno; exfalso;
           match goal with
           | H : Get ?run = inl ?res |- _ =>
             apply (Hno run res); [|done];
             apply list_elem_of_further, list_elem_of_here
           end);
      try (intros [|[|(c' & ? & Hd)]]; simplify_eq;
           match goal with
           | H : CacheClient_Set ?c ?n ?nm ?p ?r ?d = (_, ?t) |- ?t = _ =>
             pose proof (proj2 (HS c r d) Hd) as HS1; rewrite H in HS1;
             cbn [snd] in HS1; rewrite HS1; by apply HG3
           end).
  - repeat case_match; simplify_eq; cbn [main_cached.table]; done.
  - repeat case_match; simplify_eq; cbn [main_cached.table]; done.
Qed.

Lemma handler_cache_footprint_witness :
  let key := ("wf", paramsHash (main.Params demo_force)) in
  main_cached.registerWorkflowTool_handler demo_error "wf"
    (recipe "id_{{ .one }}") (Some demo_client) (Some demo_cache) true
    (Some demo_config) 5000000000000%Z demo_force ∅
    = Some (NewToolResponse "done", demo_cached_effects) ∧
  (∀ k, k ≠ key →
        main_cached.table demo_cached_effects !! k = (∅ : Table) !! k) ∧
  ((∀ run result, CallRunGet run ∈ main_cached.calls demo_cached_effects →
                  Get run ≠ inl result) →
   main_cached.table demo_cached_effects ⊆ ∅) ∧
  (true = false ∨ Some demo_cache = None ∨
   (∃ c, Some demo_cache = Some c ∧ enabled c = false) →
   main_cached.table demo_cached_effects = ∅).
Proof.
  intros key. split; [vm_compute; reflexivity|].
  apply (handler_cache_footprint demo_error "wf" (recipe "id_{{ .one }}")
           (Some demo_client) (Some demo_cache) true (Some demo_config)
           5000000000000%Z demo_force ∅ (NewToolResponse "done")
           demo_cached_effects).
  vm_compute. reflexivity.
Defined.

(** X11. A completed result is served from the cache. When an invocation
    of the cache-aware handler has run the workflow to completion, its
    response is the result of the run, and any later invocation of the tool
    with the same arguments, as long as the time elapsed plus one second
    fits in the TTL, returns that result from the cache without a request
    to the engine, whatever the value of [force_rerun], the configuration
    and the availability of the engine. *)
Theorem completed_result_is_served_again Error name workflow tempClient c cfg
    t0 args db resp eff run result :
  enabled c = true →
  main_cached.registerWorkflowTool_handler Error name workflow tempClient
    (Some c) true cfg t0 args db = Some (resp, eff) →
  CallRunGet run ∈ main_cached.calls eff →
  Get run = inl result →
  resp = NewToolResponse result ∧
  ∀ t1 workflow' tempClient' cfg' args',
    (t0 ≤ t1)%Z → (t1 - t0 + 999999999 ≤ ttl c)%Z →
    main.Params args' = main.Params args →
    main_cached.registerWorkflowTool_handler Error name workflow' tempClient'
      (Some c) true cfg' t1 args' (main_cached.table eff)
    = Some (NewToolResponse result,
            main_cached.mkEffects ["Cache hit for workflow " +:+ name] []
              (main_cached.table eff)).
Proof.
  intros Hen H Hin Hres.
  assert (Htab : resp = NewToolResponse result ∧ ∃ db1,
            main_cached.table eff
            = (CacheClient_Set c t0 name (main.Params args) result db1).2).
  { unfold main_cached.registerWorkflowTool_handler in H.
    destruct (CacheClient_Get c t0 name (main.Params args) db)
      as [[r found] db1] eqn:HGet.
    repeat case_match; simplify_eq; cbn [main_cached.calls] in Hin;
      repeat (apply elem_of_cons in Hin as [Hin|Hin]; simplify_eq);
      try (by apply elem_of_nil in Hin); try congruence;
      match goal with
      | H1 : Get _ = inl ?a |- _ =>
        assert (a = result) by congruence; subst a
      end;
      (split; [done|]); cbn [main_cached.table];
      match goal with
      | H : CacheClient_Set ?c ?n ?nm ?p ?r ?d = (_, ?t) |- _ =>
        exists d; by rewrite H
      end. }
  destruct Htab as [-> [db1 Htab]]. split; [done|].
  intros t1 workflow' tempClient' cfg' args' Hle Httl Hargs.
  unfold main_cached.registerWorkflowTool_handler.
  rewrite Hargs, Htab.
  pose proof (Unix_of_floor t0) as Hf.
  rewrite Set_then_Get by done.
  assert (Hage : (ttl c <? time.Since t1 (time.Unix (time.Unix_of t0)))%Z = false).
  { unfold time.Since, time.Sub, time.Unix.
    set (d := (t1 - time.Unix_of t0 * time.Second)%Z) in *.
    assert (0 ≤ d ≤ ttl c)%Z by (unfold d; lia).
    destruct (Z.ltb_spec d time.minDuration) as [H1|H1];
      [unfold time.minDuration in H1; lia|].
    destruct (Z.ltb_spec time.maxDuration d) as [H2|H2].
    - destruct (Z.ltb_spec (ttl c) time.maxDuration); [lia|done].
    - destruct (Z.ltb_spec (ttl c) d); [lia|done]. }
  by rewrite Hage.
Qed.

Lemma completed_result_is_served_again_witness :
  enabled demo_cache = true ∧
  main_cached.registerWorkflowTool_handler demo_error "wf"
    (recipe "id_{{ .one }}") (Some demo_client) (Some demo_cache) true
    (Some demo_config) 5000000000000%Z demo_force ∅
    = Some (NewToolResponse "done", demo_cached_effects) ∧
  CallRunGet demo_run ∈ main_cached.calls demo_cached_effects ∧
  Get demo_run = inl "done" ∧
  NewToolResponse "done" = NewToolResponse "done" ∧
  ∀ t1 workflow' tempClient' cfg' args',
    (5000000000000 ≤ t1)%Z → (t1 - 5000000000000 + 999999999 ≤ ttl demo_cache)%Z →
    main.Params args' = main.Params demo_force →
    main_cached.registerWorkflowTool_handler demo_error "wf" workflow' tempClient'
      (Some demo_cache) true cfg' t1 args' (main_cached.table demo_cached_effects)
    = Some (NewToolResponse "done",
            main_cached.mkEffects ["Cache hit for workflow " +:+ "wf"] []
              (main_cached.table demo_cached_effects)).
Proof.
  split; [reflexivity|]. split; [vm_compute; reflexivity|].
  split; [apply list_elem_of_further, list_elem_of_here|].
  split; [reflexivity|].
  apply (completed_result_is_served_again demo_error "wf"
           (recipe "id_{{ .one }}") (Some demo_client) demo_cache
           (Some demo_config) 5000000000000%Z demo_force ∅
           (NewToolResponse "done") demo_cached_effects demo_run "done").
  - reflexivity.
  - vm_compute. reflexivity.
  - apply list_elem_of_further, list_elem_of_here.
  - reflexivity.
Defined.

End handler_composition.

(** ** Identity recipes: literal recipes, the two revisions, the bytes hashed *)

Section identity_composition.
Import gostring log config temporal.

Lemma append_nil_r (s : string) : s +:+ "" = s.
Proof. induction s as [|c s IH]; [done|]. by rewrite append_cons, IH. Qed.

Lemma Cut_not_Contains s sep :
  Contains s sep = false → template.Cut s sep = None.
Proof.
  induction s as [|c s IH]; cbn [Contains template.Cut]; intros H;
    apply orb_false_iff in H as [-> H]; [done|]. by rewrite IH.
Qed.

Lemma Parse_literal text :
  Contains text "{{" = false →
  template.Parse text = template.Parsed (template.textNode text).
Proof.
  intros H. unfold template.Parse. destruct text as [|c t]; [done|].
  rewrite length_cons. cbn [template.parse_loop]. by rewrite Cut_not_Contains.
Qed.

Lemma Execute_literal funcs text params :
  template.Execute funcs (template.textNode text) params = (Some text, []).
Proof.
  destruct text as [|c t]; [done|].
  cbn [template.textNode template.Execute bind ret fmap option_fmap option_map app].
  by rewrite append_nil_r.
Qed.

(** X12. A recipe without a left delimiter is taken literally: in both
    revisions [computeWorkflowID] returns the recipe itself as the
    identity, without error and without logging, for every argument map.
    All invocations of such a tool therefore share one identity (and with
    the empty recipe the handler of [main.go] falls back to a random
    one). *)
Theorem literal_recipe_is_the_identity workflow params :
  Contains (WorkflowIDRecipe workflow) "{{" = false →
  main.computeWorkflowID workflow params
    = Some ((WorkflowIDRecipe workflow, None), []) ∧
  main_cached.computeWorkflowID workflow params
    = Some ((WorkflowIDRecipe workflow, None), []).
Proof.
  intros H. unfold main.computeWorkflowID, main_cached.computeWorkflowID.
  rewrite (Parse_literal _ H), !Execute_literal. done.
Qed.

Lemma literal_recipe_is_the_identity_witness :
  Contains (WorkflowIDRecipe (recipe "nightly-report")) "{{" = false ∧
  main.computeWorkflowID (recipe "nightly-report") (Some m12)
    = Some ((WorkflowIDRecipe (recipe "nightly-report"), None), []) ∧
  main_cached.computeWorkflowID (recipe "nightly-report") (Some m12)
    = Some ((WorkflowIDRecipe (recipe "nightly-report"), None), []).
Proof.
  split; [reflexivity|].
  apply (literal_recipe_is_the_identity (recipe "nightly-report") (Some m12)).
  reflexivity.
Defined.

Lemma Execute_hash_free funcs1 funcs2 tree params :
  hash_free tree = true →
  template.Execute funcs1 tree params = template.Execute funcs2 tree params.
Proof.
  induction tree as [|n tree IH]; intros H; [done|].
  cbn [hash_free forallb] in H. apply andb_true_iff in H as [Hn H].
  fold (hash_free tree) in H. specialize (IH H).
  destruct n as [text|[o|args]]; [| |discriminate Hn];
    cbn [template.Execute template.evalAction]; by rewrite IH.
Qed.

(** X13. The two revisions of [computeWorkflowID] differ only through the
    function [hash]: on a recipe that parses to a template without a call
    of [hash] they return the same identity, the same error and the same
    log lines for every argument map. *)
Theorem revisions_agree_without_hash workflow params tree :
  template.Parse (WorkflowIDRecipe workflow) = template.Parsed tree →
  hash_free tree = true →
  main_cached.computeWorkflowID workflow params
  = main.computeWorkflowID workflow params.
Proof.
  intros HP Hf. unfold main_cached.computeWorkflowID, main.computeWorkflowID.
  rewrite HP. by rewrite (Execute_hash_free _ (hash_args.hashWorkflowArgs params)).
Qed.

Lemma revisions_agree_without_hash_witness :
  let tree := [template.TextNode "id_";
               template.ActionNode (template.ActPrint (template.OpField ["one"]))] in
  template.Parse (WorkflowIDRecipe (recipe "id_{{ .one }}")) = template.Parsed tree ∧
  hash_free tree = true ∧
  main_cached.computeWorkflowID (recipe "id_{{ .one }}") (Some m12)
  = main.computeWorkflowID (recipe "id_{{ .one }}") (Some m12).
Proof.
  intros tree. split; [vm_compute; reflexivity|]. split; [reflexivity|].
  apply (revisions_agree_without_hash (recipe "id_{{ .one }}") (Some m12) tree);
    [vm_compute; reflexivity|reflexivity].
Defined.

Lemma writeAll_cached_concat h args :
  main_cached.writeAll h args = fnv.Write h (concat (fmt.Sprint <$> args)).
Proof.
  revert h; induction args as [|a args IH]; intros h; [done|].
  rewrite fmap_cons. cbn [main_cached.writeAll concat].
  by rewrite fnv_Write_app, IH.
Qed.

(** X14. In the revision that formats the arguments with [%+v], the hash
    of explicit arguments depends only on the concatenation of their
    printed forms: two argument lists that print to the same bytes, such
    as ("ab", "c") and ("a", "bc"), get the same hash and log nothing. *)
Theorem formatted_hash_ignores_argument_boundaries allParams
    (args1 args2 : list json.any) :
  args1 ≠ [] → args2 ≠ [] →
  concat (fmt.Sprint <$> args1) = concat (fmt.Sprint <$> args2) →
  main_cached.hashWorkflowArgs allParams args1
  = main_cached.hashWorkflowArgs allParams args2.
Proof.
  intros H1 H2 Heq. destruct args1 as [|a1 l1]; [done|].
  destruct args2 as [|a2 l2]; [done|].
  unfold main_cached.hashWorkflowArgs. cbn [length Nat.eqb bind ret app].
  by rewrite !writeAll_cached_concat, Heq.
Qed.

Lemma formatted_hash_ignores_argument_boundaries_witness :
  [json.AnyString "ab"; json.AnyString "c"] ≠ [] ∧
  [json.AnyString "a"; json.AnyString "bc"] ≠ [] ∧
  concat (fmt.Sprint <$> [json.AnyString "ab"; json.AnyString "c"])
  = concat (fmt.Sprint <$> [json.AnyString "a"; json.AnyString "bc"]) ∧
  main_cached.hashWorkflowArgs None [json.AnyString "ab"; json.AnyString "c"]
  = main_cached.hashWorkflowArgs None [json.AnyString "a"; json.AnyString "bc"].
Proof.
  split; [discriminate|]. split; [discriminate|]. split; [reflexivity|].
  apply (formatted_hash_ignores_argument_boundaries None
           [json.AnyString "ab"; json.AnyString "c"]
           [json.AnyString "a"; json.AnyString "bc"]);
    [discriminate|discriminate|reflexivity].
Defined.

Lemma appendString_head s :
  ∃ t, json.appendString s = String (ascii_of_nat 34) t.
Proof. unfold json.appendString, dquote. rewrite append_cons. eauto. Qed.

(** X15. In [hash_args.go] the hasher is fed the JSON forms of the
    arguments, and for string arguments these keep the boundaries: the
    bytes written for a list of valid UTF-8 strings determine the list. Two
    different lists of strings can thus get the same hash only through a
    collision of FNV-1 itself. *)
Theorem marshalled_strings_keep_their_boundaries (l1 l2 : list string) :
  forallb utf8.valid l1 = true → forallb utf8.valid l2 = true →
  (∀ h, hash_args.writeAll h (json.AnyString <$> l1)
        = fnv.Write h (concat (json.Marshal <$> (json.AnyString <$> l1)))) ∧
  (concat (json.Marshal <$> (json.AnyString <$> l1))
   = concat (json.Marshal <$> (json.AnyString <$> l2)) →
   l1 = l2).
Proof.
  intros H1 H2. split; [intros h; apply writeAll_concat|]. revert H1 H2.
  revert l2. induction l1 as [|s1 l1 IH]; intros [|s2 l2] H1 H2 Heq.
  - done.
  - rewrite !fmap_cons in Heq. cbn [concat json.Marshal] in Heq.
    destruct (appendString_head s2) as [t Ht]. rewrite Ht, append_cons in Heq.
    discriminate Heq.
  - rewrite !fmap_cons in Heq. cbn [concat json.Marshal] in Heq.
    destruct (appendString_head s1) as [t Ht]. rewrite Ht, append_cons in Heq.
    discriminate Heq.
  - rewrite !fmap_cons in Heq. cbn [concat json.Marshal] in Heq.
    cbn [forallb] in H1, H2.
    apply andb_true_iff in H1 as [Hv1 H1]. apply andb_true_iff in H2 as [Hv2 H2].
    apply (f_equal jsonread.unquote) in Heq.
    rewrite !unquote_appendString in Heq by done.
    injection Heq as -> Heq. f_equal. by apply IH.
Qed.

Lemma marshalled_strings_keep_their_boundaries_witness :
  forallb utf8.valid ["ab"; "c"] = true ∧
  forallb utf8.valid ["a"; "bc"] = true ∧
  (∀ h, hash_args.writeAll h (json.AnyString <$> ["ab"; "c"])
        = fnv.Write h
            (concat (json.Marshal <$> (json.AnyString <$> ["ab"; "c"])))) ∧
  (concat (json.Marshal <$> (json.AnyString <$> ["ab"; "c"]))
   = concat (json.Marshal <$> (json.AnyString <$> ["a"; "bc"])) →
   ["ab"; "c"] = ["a"; "bc"]).
Proof.
  split; [vm_compute; reflexivity|]. split; [vm_compute; reflexivity|].
  apply (marshalled_strings_keep_their_boundaries ["ab"; "c"] ["a"; "bc"]);
    vm_compute; reflexivity.
Defined.

End identity_composition.

(** ** The history redactor: what it leaves behind *)

Section redaction_composition.
Import gostring protoreflect sanitize_history_event redaction.

Lemma sanitize_FullName m m' :
  sanitizeRecursively m = Some m' → FullName m' = FullName m.
Proof.
  destruct m as [name fs]. cbn [sanitizeRecursively].
  destruct (Range _ fs); intros [= <-]; done.
Qed.

Lemma sanitize_isPayload m m' :
  sanitizeRecursively m = Some m' → isPayload m' = isPayload m.
Proof. intros H. unfold isPayload. by rewrite (sanitize_FullName _ _ H). Qed.

Lemma sanitizeList_out sanitize items : ∀ done out,
  sanitizeList sanitize done items = Some out →
  out = [] ∨
  ∃ its, out = done ++ its ∧
    Forall2 (λ it it', ∃ x x', it = VMessage x ∧ it' = VMessage x' ∧
                               isPayload x = false ∧ sanitize x = Some x')
      items its.
Proof.
  induction items as [|it items IH]; intros done out H.
  - cbn in H. injection H as <-. right. exists []. by rewrite app_nil_r.
  - destruct it as [|x| |]; try discriminate H. cbn [sanitizeList] in H.
    destruct (isPayload x) eqn:Hp; [injection H as <-; by left|].
    destruct (sanitize x) as [x'|] eqn:Hx; [|discriminate H].
    apply IH in H as [->|(its & -> & HF)]; [by left|].
    right. exists (VMessage x' :: its). rewrite <- app_assoc. split; [done|].
    constructor; [|done]. by exists x, x'.
Qed.

Lemma sanitizeList_stable sanitize its : ∀ done,
  Forall (λ it', ∃ x', it' = VMessage x' ∧ isPayload x' = false ∧
                       sanitize x' = Some x') its →
  sanitizeList sanitize done its = Some (done ++ its).
Proof.
  induction its as [|it its IH]; intros done HF.
  - cbn. by rewrite app_nil_r.
  - inversion HF as [|? ? (x' & -> & Hp & Hx) HF']; subst.
    cbn [sanitizeList]. rewrite Hp, Hx, IH by done. by rewrite <- app_assoc.
Qed.

Lemma sanitizeMap_out sanitize entries : ∀ out,
  sanitizeMap sanitize entries = Some out →
  Forall (λ e', ∃ k x x', e' = (k, VMessage x') ∧ (k, VMessage x) ∈ entries ∧
                          isPayload x = false ∧ sanitize x = Some x') out.
Proof.
  induction entries as [|[k v] entries IH]; intros out H.
  - cbn in H. injection H as <-. constructor.
  - destruct v as [|x| |]; try discriminate H. cbn [sanitizeMap] in H.
    destruct (sanitizeMap sanitize entries) as [rest'|] eqn:Hr; [|discriminate H].
    specialize (IH _ eq_refl).
    assert (Hw : Forall (λ e', ∃ k0 x0 x', e' = (k0, VMessage x') ∧
                   (k0, VMessage x0) ∈ (k, VMessage x) :: entries ∧
                   isPayload x0 = false ∧ sanitize x0 = Some x') rest').
    { eapply Forall_impl; [exact IH|]. intros e' (k0 & x0 & x' & -> & Hin & ? & ?).
      exists k0, x0, x'. repeat split; try done. by apply list_elem_of_further. }
    destruct (isPayload x) eqn:Hp; [by injection H as <-|].
    destruct (sanitize x) as [x'|] eqn:Hx; [|discriminate H].
    injection H as <-. constructor; [|done].
    exists k, x, x'. repeat split; try done. apply list_elem_of_here.
Qed.

Lemma sanitizeMap_stable sanitize out :
  Forall (λ e', ∃ k x', e' = (k, VMessage x') ∧ isPayload x' = false ∧
                        sanitize x' = Some x') out →
  sanitizeMap sanitize out = Some out.
Proof.
  induction out as [|e out IH]; intros HF; [done|].
  inversion HF as [|? ? (k & x' & -> & Hp & Hx) HF']; subst.
  cbn [sanitizeMap]. by rewrite IH, Hp, Hx.
Qed.

Lemma Range_app f a b :
  Range f (a ++ b)
  = match Range f a, Range f b with
    | Some a', Some b' => Some (a' ++ b')
    | _, _ => None
    end.
Proof.
  induction a as [|[fd v] a IH]; cbn [app Range].
  - by destruct (Range f b).
  - rewrite IH. destruct (f fd v), (Range f a), (Range f b); try done.
    by rewrite app_assoc.
Qed.

Lemma Range_stable f fs : ∀ fs',
  Range f fs = Some fs' →
  (∀ fd v out, (fd, v) ∈ fs → f fd v = Some out →
     ∀ fd' v', (fd', v') ∈ out → f fd' v' = Some [(fd', v')]) →
  Range f fs' = Some fs'.
Proof.
  induction fs as [|[fd v] fs IH]; intros fs' H Hs.
  - by injection H as <-.
  - cbn [Range] in H. destruct (f fd v) as [out|] eqn:Hf; [|discriminate H].
    destruct (Range f fs) as [rest'|] eqn:Hr; [|discriminate H].
    injection H as <-. rewrite Range_app.
    rewrite (IH rest' eq_refl).
    2:{ intros fd0 v0 out0 Hin. apply Hs. by apply list_elem_of_further. }
    assert (Hout : Range f out = Some out).
    { specialize (Hs fd v out (list_elem_of_here _ _) Hf).
      clear -Hs. induction out as [|[fd' v'] out IH]; [done|].
      cbn [Range]. rewrite (Hs fd' v') by apply list_elem_of_here.
      rewrite IH; [done|]. intros. apply Hs. by apply list_elem_of_further. }
    by rewrite Hout.
Qed.

Lemma Range_forall f (P : FieldDescriptor * Value → Prop) fs : ∀ fs',
  Range f fs = Some fs' →
  (∀ fd v out, (fd, v) ∈ fs → f fd v = Some out → Forall P out) →
  Forall P fs'.
Proof.
  induction fs as [|[fd v] fs IH]; intros fs' H Hs.
  - injection H as <-. constructor.
  - cbn [Range] in H. destruct (f fd v) as [out|] eqn:Hf; [|discriminate H].
    destruct (Range f fs) as [rest'|] eqn:Hr; [|discriminate H].
    injection H as <-. apply Forall_app. split.
    + apply (Hs fd v); [apply list_elem_of_here|done].
    + apply IH; [done|]. intros fd0 v0 out0 Hin. apply Hs.
      by apply list_elem_of_further.
Qed.

(** Every field that the switch of [sanitizeRecursively] leaves behind is
    left unchanged by a second pass and holds no payload, provided this is
    so for the messages it recursed into. *)
Lemma sanitizeField_settled fd v out :
  sanitizeField sanitizeRecursively fd v = Some out →
  (∀ x x', in_value x v → sanitizeRecursively x = Some x' →
           no_payload x' = true ∧ sanitizeRecursively x' = Some x') →
  ∀ fd' v', (fd', v') ∈ out →
    sanitizeField sanitizeRecursively fd' v' = Some [(fd', v')] ∧
    onMessages (λ _ x, negb (matches (FullName x)) && no_payload x) true
      (fd', v') = true.
Proof.
  intros H IH fd' v' Hin.
  unfold sanitizeField in H. unfold onMessages, isMessageList,
    isMessageMap, isMessageField.
  destruct (IsList fd) eqn:HL.
  - destruct (Kind_eqb (Kind_ fd) MessageKind) eqn:HK; cbn [negb] in H.
    + destruct v as [| |items|]; try discriminate H.
      destruct (sanitizeList _ [] items) as [items'|] eqn:Hs; [|discriminate H].
      injection H as <-. apply list_elem_of_singleton in Hin.
      injection Hin as -> ->.
      unfold sanitizeField. rewrite HL, HK. cbn [negb andb].
      apply sanitizeList_out in Hs as [->|(its & -> & HF)]; [done|].
      cbn [app].
      assert (HS : Forall (λ it', ∃ x', it' = VMessage x' ∧
                     isPayload x' = false ∧ no_payload x' = true ∧
                     sanitizeRecursively x' = Some x') its).
      { clear -HF IH.
        induction HF as [|it it' items its (x & x' & -> & -> & Hp & Hx) HF IHF];
          constructor.
        - exists x'. split; [done|].
          split; [by rewrite (sanitize_isPayload _ _ Hx)|].
          apply (IH x x'); [|done]. cbn. apply list_elem_of_here.
        - apply IHF. intros y y' Hy. apply IH. cbn in *.
          by apply list_elem_of_further. }
      split.
      * rewrite (sanitizeList_stable _ its []); [done|].
        eapply Forall_impl; [exact HS|].
        intros it' (x' & -> & Hp & _ & Hx). eauto.
      * apply forallb_forall. intros it' Hit. apply list_elem_of_In in Hit.
        rewrite Forall_forall in HS.
        destruct (HS _ Hit) as (x' & -> & Hp & Hn & _).
        rewrite <- isPayload_matches, Hp, Hn. done.
    + injection H as <-. apply list_elem_of_singleton in Hin.
      injection Hin as -> ->.
      unfold sanitizeField. rewrite HL, HK. done.
  - destruct (IsMap fd) eqn:HM.
    + destruct (Kind_eqb (MapValue_Kind fd) MessageKind) eqn:HK; cbn [negb] in H.
      * destruct v as [| | |entries]; try discriminate H.
        destruct (sanitizeMap _ entries) as [entries'|] eqn:Hs; [|discriminate H].
        injection H as <-. apply list_elem_of_singleton in Hin.
        injection Hin as -> ->.
        unfold sanitizeField. rewrite HL, HM, HK. cbn [negb andb].
        apply sanitizeMap_out in Hs.
        assert (HS : Forall (λ e', ∃ k x', e' = (k, VMessage x') ∧
                       isPayload x' = false ∧ no_payload x' = true ∧
                       sanitizeRecursively x' = Some x') entries').
        { eapply Forall_impl; [exact Hs|].
          intros e' (k & x & x' & -> & Hx & Hp & Hsx). exists k, x'.
          split; [done|]. split; [by rewrite (sanitize_isPayload _ _ Hsx)|].
          apply (IH x x'); [|done]. cbn. by exists k. }
        split.
        -- rewrite sanitizeMap_stable; [done|].
           eapply Forall_impl; [exact HS|].
           intros e' (k & x' & -> & Hp & _ & Hx). eauto.
        -- apply forallb_forall. intros e' He. apply list_elem_of_In in He.
           rewrite Forall_forall in HS.
           destruct (HS _ He) as (k & x' & -> & Hp & Hn & _).
           cbn [snd]. rewrite <- isPayload_matches, Hp, Hn. done.
      * injection H as <-. apply list_elem_of_singleton in Hin.
        injection Hin as -> ->.
        unfold sanitizeField. rewrite HL, HM, HK. done.
    + destruct (Kind_eqb (Kind_ fd) MessageKind) eqn:HK.
      * destruct v as [|x| |]; try discriminate H.
        destruct (isPayload x) eqn:Hp;
          [injection H as <-; by apply elem_of_nil in Hin|].
        destruct (sanitizeRecursively x) as [x'|] eqn:Hx; [|discriminate H].
        injection H as <-. apply list_elem_of_singleton in Hin.
        injection Hin as -> ->.
        destruct (IH x x' eq_refl Hx) as (Hn & Hs').
        pose proof (sanitize_isPayload _ _ Hx) as Hp'. rewrite Hp in Hp'.
        unfold sanitizeField. rewrite HL, HM, HK, Hp', Hs'. cbn [negb andb].
        rewrite <- isPayload_matches, Hp', Hn. done.
      * injection H as <-. apply list_elem_of_singleton in Hin.
        injection Hin as -> ->.
        unfold sanitizeField. rewrite HL, HM, HK. done.
Qed.

Lemma sanitize_settles m : ∀ m',
  sanitizeRecursively m = Some m' →
  no_payload m' = true ∧ sanitizeRecursively m' = Some m'.
Proof.
  induction m as [name fs IH] using Message_ind_direct. intros m' H.
  cbn [sanitizeRecursively] in H.
  destruct (Range (sanitizeField sanitizeRecursively) fs) as [fs'|] eqn:HR;
    [|discriminate H].
  injection H as <-.
  assert (Hfield : ∀ fd v out, (fd, v) ∈ fs →
            sanitizeField sanitizeRecursively fd v = Some out →
            ∀ fd' v', (fd', v') ∈ out →
              sanitizeField sanitizeRecursively fd' v' = Some [(fd', v')] ∧
              onMessages (λ _ x, negb (matches (FullName x)) && no_payload x)
                true (fd', v') = true).
  { intros fd v out Hin Hf. apply (sanitizeField_settled fd v out Hf).
    intros x x' Hx Hs. exact (IH fd v x Hin Hx x' Hs). }
  split.
  - cbn [no_payload]. apply forallb_forall. intros [fd' v'] Hin'.
    apply list_elem_of_In in Hin'. revert fd' v' Hin'.
    assert (HF : Forall (λ fv,
              onMessages (λ _ x, negb (matches (FullName x)) && no_payload x)
                true fv = true) fs').
    { apply (Range_forall _ _ fs fs' HR). intros fd v out Hin Hf.
      apply Forall_forall. intros [fd' v'] Hin'.
      by apply (Hfield fd v out Hin Hf fd' v'). }
    rewrite Forall_forall in HF. intros fd' v' Hin'. exact (HF _ Hin').
  - cbn [sanitizeRecursively]. rewrite (Range_stable _ fs fs' HR); [done|].
    intros fd v out Hin Hf fd' v' Hin'.
    by apply (Hfield fd v out Hin Hf fd' v').
Qed.

(** X16. Whenever [sanitizeEvent] returns, on any message tree and
    without assuming that the values agree with the declared types, the
    event it leaves holds no payload in any message-typed field, is left
    unchanged by a second pass (the redaction is idempotent) and keeps its
    type name. *)
Theorem sanitized_event_is_clean_and_stable event event' :
  sanitizeEvent event = Some event' →
  no_payload event' = true ∧
  sanitizeEvent event' = Some event' ∧
  FullName event' = FullName event.
Proof.
  unfold sanitizeEvent. intros H. destruct (sanitize_settles _ _ H) as [Hn Hs].
  repeat split; try done. by apply sanitize_FullName.
Qed.

Lemma sanitized_event_is_clean_and_stable_witness :
  sanitizeEvent demo_event = Some demo_event_redacted ∧
  no_payload demo_event_redacted = true ∧
  sanitizeEvent demo_event_redacted = Some demo_event_redacted ∧
  FullName demo_event_redacted = FullName demo_event.
Proof.
  split; [vm_compute; reflexivity|].
  apply (sanitized_event_is_clean_and_stable demo_event demo_event_redacted).
  vm_compute. reflexivity.
Defined.







End redaction_composition.

(** ** The tool GetWorkflowHistory *)

Section history_props.
Import gostring log temporal mcp protoreflect history_tool.

Lemma writeEvents_Join eventJsons : ∀ i allEvents,
  writeEvents i eventJsons allEvents
  = allEvents +:+ (match eventJsons with
                   | [] => ""
                   | _ => if (0 <? i)%nat then "," else ""
                   end) +:+ Join eventJsons ",".
Proof.
  induction eventJsons as [|e rest IH]; intros i allEvents.
  - cbn [writeEvents Join]. by rewrite append_nil_l, append_nil_r.
  - cbn [writeEvents]. rewrite IH. change (0 <? S i)%nat with true.
    destruct rest as [|e' rest'].
    + cbn [Join]. rewrite append_nil_l, append_nil_r.
      destruct (0 <? i)%nat; by rewrite ?app_assoc_s, ?append_nil_l.
    + change (Join (e :: e' :: rest') ",")
        with (e +:+ "," +:+ Join (e' :: rest') ",").
      destruct (0 <? i)%nat; by rewrite ?app_assoc_s, ?append_nil_l.
Qed.

Lemma readEvents_all Error SHE PM events : ∀ jsons eventJsons tail,
  mapM (eventJson SHE PM) events = Some jsons →
  readEvents Error SHE PM ((inl <$> events) ++ tail) eventJsons
  = readEvents Error SHE PM tail (eventJsons ++ jsons).
Proof.
  induction events as [|e events IH]; intros jsons eventJsons tail H.
  - cbn in H. injection H as <-. by rewrite app_nil_r.
  - rewrite mapM_Some in H.
    destruct jsons as [|j jsons]; [by apply Forall2_nil_inv_r in H|].
    apply Forall2_cons_1 in H as [Hj H]. apply mapM_Some in H.
    unfold eventJson in Hj. rewrite fmap_cons. cbn [app readEvents].
    destruct (SHE e) as [e'|]; [|done].
    destruct (PM e') as [b|]; [|done]. injection Hj as ->.
    rewrite (IH jsons) by done. by rewrite <- app_assoc.
Qed.

(** X18. The response of the history tool. When every event of the history
    is read, sanitized and marshalled, the response is the JSON array of
    the forms of the sanitized events in the order of the history: an
    opening bracket, the forms separated by commas, a closing bracket (and
    [[]] for an empty history). When reading fails after [n] events, the
    response and the log line are the error message that names [n] and the
    error, and nothing that follows in the history is looked at. *)
Theorem history_is_a_json_array Error SHE PM client WorkflowID RunID events
    jsons :
  mapM (eventJson SHE PM) events = Some jsons →
  (GetWorkflowHistory client WorkflowID RunID = inl <$> events →
   registerGetWorkflowHistoryTool_handler Error SHE PM (Some client)
     WorkflowID RunID
   = Some (inl (NewToolResponse ("[" +:+ Join jsons "," +:+ "]")), [])) ∧
  (∀ err rest,
     GetWorkflowHistory client WorkflowID RunID
       = (inl <$> events) ++ inr err :: rest →
     let msg :=
       "Error: Failed to get " +:+ fmt.Sprintf_d (N.of_nat (length events))
       +:+ "th history event: " +:+ Error err in
     registerGetWorkflowHistoryTool_handler Error SHE PM (Some client)
       WorkflowID RunID
     = Some (inl (NewToolResponse msg), [msg])).
Proof.
  intros H. unfold registerGetWorkflowHistoryTool_handler. split.
  - intros ->. rewrite <- (app_nil_r (inl <$> events)).
    rewrite (readEvents_all _ _ _ _ jsons) by done. cbn [readEvents app].
    rewrite writeEvents_Join. change (0 <? 0)%nat with false.
    destruct jsons; by rewrite ?append_nil_l, ?app_assoc_s.
  - intros err rest ->. rewrite (readEvents_all _ _ _ _ jsons) by done.
    cbn [readEvents app]. apply mapM_Some, Forall2_length in H.
    cbn [length]. by rewrite <- H.
Qed.

Lemma history_is_a_json_array_witness :
  let SHE := sanitize_history_event.sanitizeEvent in
  let events := [demo_event; demo_payload] in
  let jsons := ["temporal.api.history.v1.HistoryEvent/2";
                "temporal.api.common.v1.Payload/1"] in
  mapM (eventJson SHE demo_marshal) events = Some jsons ∧
  (GetWorkflowHistory demo_history "wf-id" "" = inl <$> events →
   registerGetWorkflowHistoryTool_handler demo_error SHE demo_marshal
     (Some demo_history) "wf-id" ""
   = Some (inl (NewToolResponse ("[" +:+ Join jsons "," +:+ "]")), [])) ∧
  (∀ err rest,
     GetWorkflowHistory demo_history "wf-id" ""
       = (inl <$> events) ++ inr err :: rest →
     let msg :=
       "Error: Failed to get " +:+ fmt.Sprintf_d (N.of_nat (length events))
       +:+ "th history event: " +:+ demo_error err in
     registerGetWorkflowHistoryTool_handler demo_error SHE demo_marshal
       (Some demo_history) "wf-id" ""
     = Some (inl (NewToolResponse msg), [msg])).
Proof.
  intros SHE events jsons. split; [vm_compute; reflexivity|].
  apply (history_is_a_json_array demo_error SHE demo_marshal demo_history
           "wf-id" "" events jsons).
  vm_compute. reflexivity.
Defined.

End history_props.

(** ** Connecting to the engine *)

Section client_props.
Import gostring log temporal mcp temporal_client.

(** X19. When [NewTemporalClient] reaches for the network. It calls
    [client.Dial] at most once, with the host, port and namespace of the
    configuration, and it does so exactly when the timeout is empty or
    parses as a duration and the environment is "local". It returns a
    client exactly when, in addition, that call returned one. A timeout
    that does not parse is reported before the environment is looked
    at. *)
Theorem client_dialled_only_for_local PD Dial cfg :
  let r := NewTemporalClient PD Dial cfg in
  let options := mkOptions (HostPort cfg) (Namespace cfg) in
  let timeout_ok := Timeout cfg = "" ∨ ∃ d, PD (Timeout cfg) = inl d in
  (r.2 = [options] ∨ r.2 = []) ∧
  (r.2 = [options] ↔ timeout_ok ∧ Environment cfg = "local") ∧
  (∀ c, r.1 = inl c ↔
        timeout_ok ∧ Environment cfg = "local" ∧ Dial options = inl c) ∧
  (¬ timeout_ok → ∃ err, PD (Timeout cfg) = inr err ∧
                         r.1 = inr ("invalid timeout format: " +:+ err)).
Proof.
  intros r options timeout_ok. subst r options timeout_ok.
  unfold NewTemporalClient.
  destruct (String.eqb_spec (Timeout cfg) "") as [Ht|Ht]; cbn [negb];
    [|destruct (PD (Timeout cfg)) as [d|e] eqn:HPD];
    destruct (String.eqb_spec (Environment cfg) "local") as [He|He];
    destruct (Dial _) as [c|e'] eqn:HD;
    destruct (String.eqb (Environment cfg) "remote");
    cbn [fst snd];
    intuition (repeat match goal with H : ∃ _, _ |- _ => destruct H end;
               try congruence; eauto).
  all: exfalso; eauto.
Qed.

(** X20. Degraded mode. When the configured environment is not "local",
    [main] obtains no engine client and no connection is attempted. The
    server still registers its tools, and every invocation of a workflow
    tool is then answered with the text that the service is unavailable
    ([main.go]), or at least sends nothing to the engine (the cache-aware
    revision, which may answer from the cache). *)
Theorem degraded_mode_answers_every_call PD Dial cfg :
  Environment cfg ≠ "local" →
  (main_temporalClient PD Dial cfg).1 = None ∧
  (NewTemporalClient PD Dial cfg).2 = [] ∧
  (∀ Error Quote uuid name workflow conf args,
     main.registerWorkflowTool_handler Error Quote uuid name workflow
       (main_temporalClient PD Dial cfg).1 conf args
     = Some (NewToolResponse
               "Error: Temporal service is currently unavailable. Please try again later.",
             main.mkEffects
               ["Error: Temporal client is not available for workflow: " +:+ name]
               [])) ∧
  (∀ Error name workflow cacheClient cacheEnabled conf now args db resp eff,
     main_cached.registerWorkflowTool_handler Error name workflow
       (main_temporalClient PD Dial cfg).1 cacheClient cacheEnabled conf now
       args db = Some (resp, eff) →
     main_cached.calls eff = []).
Proof.
  intros He.
  assert (H1 : (main_temporalClient PD Dial cfg).1 = None ∧
               (NewTemporalClient PD Dial cfg).2 = []).
  { unfold main_temporalClient, NewTemporalClient.
    destruct (negb _); [destruct (PD _)|];
      destruct (String.eqb_spec (Environment cfg) "local"); try done;
      destruct (String.eqb (Environment cfg) "remote"); done. }
  destruct H1 as [H1 H2]. rewrite H1. repeat split; try done.
  intros Error name workflow cacheClient cacheEnabled conf now args db resp eff H.
  unfold main_cached.registerWorkflowTool_handler in H.
  repeat case_match; by simplify_eq.
Qed.

Lemma degraded_mode_answers_every_call_witness :
  let PD := λ _ : string, inl 5000000000%Z : Z + string in
  let Dial := λ _ : Options, inl demo_client : Client + string in
  let cfg := demo_temporal_config "remote" in
  Environment cfg ≠ "local" ∧
  (main_temporalClient PD Dial cfg).1 = None ∧
  (NewTemporalClient PD Dial cfg).2 = [] ∧
  (∀ Error Quote uuid name workflow conf args,
     main.registerWorkflowTool_handler Error Quote uuid name workflow
       (main_temporalClient PD Dial cfg).1 conf args
     = Some (NewToolResponse
               "Error: Temporal service is currently unavailable. Please try again later.",
             main.mkEffects
               ["Error: Temporal client is not available for workflow: " +:+ name]
               [])) ∧
  (∀ Error name workflow cacheClient cacheEnabled conf now args db resp eff,
     main_cached.registerWorkflowTool_handler Error name workflow
       (main_temporalClient PD Dial cfg).1 cacheClient cacheEnabled conf now
       args db = Some (resp, eff) →
     main_cached.calls eff = []).
Proof.
  intros PD Dial cfg. split; [discriminate|].
  apply (degraded_mode_answers_every_call PD Dial cfg). discriminate.
Defined.

End client_props.

(** ** What an identity depends on, and two further facts on the cache *)

Section dependence_props.
Import gostring log config temporal mcp sql tool.

Lemma evalOperand_agree (p1 p2 : option (gmap string string)) o name :
  operandVariable o = Some name →
  p1 ≫= (λ m, m !! name) = p2 ≫= (λ m, m !! name) →
  template.evalOperand p1 o = template.evalOperand p2 o.
Proof.
  destruct o as [|[|n rest]]; try discriminate. intros [= ->] Hag.
  cbn [template.evalOperand template.evalFieldChain].
  assert (Hf : ∀ p : option (gmap string string),
            template.evalField (template.VMap p) name
            = Some (match p ≫= (λ m, m !! name) with
                    | Some v => template.VString v
                    | None => template.VInvalid
                    end)).
  { intros [m|]; cbn [template.evalField mbind option_bind]; [|done].
    by destruct (m !! name). }
  by rewrite !Hf, Hag.
Qed.

Lemma evalArgs_agree (p1 p2 : option (gmap string string)) args : ∀ vars,
  mapM operandVariable args = Some vars →
  (∀ name, name ∈ vars → p1 ≫= (λ m, m !! name) = p2 ≫= (λ m, m !! name)) →
  template.evalArgs p1 args = template.evalArgs p2 args.
Proof.
  induction args as [|o args IH]; intros vars Hv Hag; [done|].
  apply mapM_Some in Hv. destruct vars as [|v vars];
    [by apply Forall2_nil_inv_r in Hv|].
  apply Forall2_cons_1 in Hv as [Ho Hv]. apply mapM_Some in Hv.
  cbn [template.evalArgs].
  rewrite (evalOperand_agree p1 p2 o v Ho) by (apply Hag, list_elem_of_here).
  rewrite (IH vars Hv); [done|]. intros name Hn. apply Hag.
  by apply list_elem_of_further.
Qed.

Lemma evalArgs_length p args : ∀ vs,
  template.evalArgs p args = Some vs → length vs = length args.
Proof.
  induction args as [|o args IH]; intros vs H.
  - by injection H as <-.
  - cbn [template.evalArgs] in H. destruct (template.evalOperand p o); [|done].
    destruct (template.evalArgs p args) as [vs'|]; [|done].
    injection H as <-. cbn [length]. by rewrite (IH vs').
Qed.

Lemma hash_explicit p1 p2 (vs : list json.any) :
  vs ≠ [] → hash_args.hashWorkflowArgs p1 vs = hash_args.hashWorkflowArgs p2 vs.
Proof. by destruct vs. Qed.

Lemma evalAction_agree (p1 p2 : option (gmap string string)) a vars :
  nodeVariables (template.ActionNode a) = Some vars →
  (∀ name, name ∈ vars → p1 ≫= (λ m, m !! name) = p2 ≫= (λ m, m !! name)) →
  template.evalAction (hash_args.hashWorkflowArgs p1) p1 a
  = template.evalAction (hash_args.hashWorkflowArgs p2) p2 a.
Proof.
  destruct a as [o|args]; cbn [nodeVariables template.evalAction].
  - destruct (operandVariable o) as [v|] eqn:Ho; [|done]. intros [= <-] Hag.
    rewrite (evalOperand_agree p1 p2 o v Ho); [done|].
    apply Hag, list_elem_of_here.
  - destruct args as [|o args]; [done|]. intros Hv Hag.
    rewrite (evalArgs_agree p1 p2 (o :: args) vars Hv Hag).
    destruct (template.evalArgs p2 (o :: args)) as [vs|] eqn:He; [|done].
    rewrite (hash_explicit p1 p2 vs); [done|].
    apply evalArgs_length in He. by destruct vs.
Qed.

Lemma Execute_agree (p1 p2 : option (gmap string string)) tree : ∀ vars,
  variables tree = Some vars →
  (∀ name, name ∈ vars → p1 ≫= (λ m, m !! name) = p2 ≫= (λ m, m !! name)) →
  template.Execute (hash_args.hashWorkflowArgs p1) tree p1
  = template.Execute (hash_args.hashWorkflowArgs p2) tree p2.
Proof.
  unfold variables.
  induction tree as [|n tree IH]; intros vars Hv Hag; [done|].
  destruct (mapM nodeVariables (n :: tree)) as [vss|] eqn:Hm; [|done].
  injection Hv as <-. apply mapM_Some in Hm.
  destruct vss as [|vs vss]; [by apply Forall2_nil_inv_r in Hm|].
  apply Forall2_cons_1 in Hm as [Hn Hm]. apply mapM_Some in Hm.
  cbn [List.concat] in Hag.
  assert (IH' : template.Execute (hash_args.hashWorkflowArgs p1) tree p1
                = template.Execute (hash_args.hashWorkflowArgs p2) tree p2).
  { apply (IH (List.concat vss)); [by rewrite Hm|].
    intros name Hin. apply Hag. apply elem_of_app. by right. }
  destruct n as [text|a]; cbn [template.Execute].
  - by rewrite IH'.
  - rewrite (evalAction_agree p1 p2 a vs Hn), IH'; [done|].
    intros name Hin. apply Hag. apply elem_of_app. by left.
Qed.

(** X21. The identity is a function of the variables that the recipe
    reads. When the recipe parses to a template that reads the argument map
    only through named variables (no dot, no [hash] without arguments), two
    argument maps that agree on those variables yield the same identity,
    the same error and the same log: arguments that the recipe does not
    mention play no part. *)
Theorem identity_depends_only_on_its_variables workflow tree vars
    (p1 p2 : option (gmap string string)) :
  template.Parse (WorkflowIDRecipe workflow) = template.Parsed tree →
  variables tree = Some vars →
  (∀ name, name ∈ vars → p1 ≫= (λ m, m !! name) = p2 ≫= (λ m, m !! name)) →
  main.computeWorkflowID workflow p1 = main.computeWorkflowID workflow p2.
Proof.
  intros HP Hv Hag. unfold main.computeWorkflowID. rewrite HP.
  change (λ paramsToHash, hash_args.hashWorkflowArgs p1 paramsToHash)
    with (hash_args.hashWorkflowArgs p1).
  change (λ paramsToHash, hash_args.hashWorkflowArgs p2 paramsToHash)
    with (hash_args.hashWorkflowArgs p2).
  by rewrite (Execute_agree p1 p2 tree vars Hv Hag).
Qed.

Lemma identity_depends_only_on_its_variables_witness :
  let tree :=
    [template.TextNode "id_";
     template.ActionNode (template.ActPrint (template.OpField ["one"]));
     template.TextNode "_";
     template.ActionNode (template.ActHash [template.OpField ["two"]])] in
  let p1 : option (gmap string string) := Some m12 in
  let p2 : option (gmap string string) := Some (<["extra" := "x"]> m12) in
  template.Parse (WorkflowIDRecipe (recipe "id_{{ .one }}_{{ hash .two }}"))
    = template.Parsed tree ∧
  variables tree = Some ["one"; "two"] ∧
  (∀ name, name ∈ ["one"; "two"] →
           p1 ≫= (λ m, m !! name) = p2 ≫= (λ m, m !! name)) ∧
  main.computeWorkflowID (recipe "id_{{ .one }}_{{ hash .two }}") p1
  = main.computeWorkflowID (recipe "id_{{ .one }}_{{ hash .two }}") p2.
Proof.
  intros tree p1 p2.
  assert (Hag : ∀ name, name ∈ ["one"; "two"] →
                  p1 ≫= (λ m, m !! name) = p2 ≫= (λ m, m !! name)).
  { intros name Hin.
    apply elem_of_cons in Hin as [->|Hin]; [vm_compute; reflexivity|].
    apply elem_of_cons in Hin as [->|Hin]; [vm_compute; reflexivity|].
    by apply elem_of_nil in Hin. }
  split; [vm_compute; reflexivity|]. split; [reflexivity|]. split; [exact Hag|].
  apply (identity_depends_only_on_its_variables
           (recipe "id_{{ .one }}_{{ hash .two }}") tree ["one"; "two"] p1 p2);
    [vm_compute; reflexivity|reflexivity|exact Hag].
Defined.

(** X22. Reads of the cache are repeatable: a second [Get] for the same
    tool and arguments at the same instant gives the answer of the first
    and leaves the table as the first left it, whether the entry was
    absent, fresh or expired, and whether or not the cache is enabled. *)
Theorem Get_repeatable c now workflowName params db :
  let r := CacheClient_Get c now workflowName params db in
  CacheClient_Get c now workflowName params r.2 = r.
Proof.
  intros r. subst r. unfold CacheClient_Get, QueryRow.
  destruct (enabled c); cbn [negb snd]; [|done].
  destruct (db !! (workflowName, paramsHash params)) as [row|] eqn:Hl.
  - destruct (ttl c <? _)%Z eqn:Hage; cbn [snd].
    + rewrite Delete_key_table. by rewrite lookup_delete_eq.
    + by rewrite Hl, Hage.
  - cbn [snd]. by rewrite Hl.
Qed.

(** X23. What a start request of the cache-aware revision carries: the
    name of the tool as workflow type, the argument map of the call, the
    pair of policies selected by [force_rerun], the task queue of the
    workflow or else the default one, and as workflow ID the identity
    computed from the recipe as it is. This revision has no random
    fallback: an empty identity is sent to the engine as an empty ID. *)
Theorem cached_start_request_contents Error name workflow tempClient
    cacheClient cacheEnabled cfg now args db resp eff :
  main_cached.registerWorkflowTool_handler Error name workflow tempClient
    cacheClient cacheEnabled cfg now args db = Some (resp, eff) →
  ∀ options wf a,
    CallExecuteWorkflow options wf a ∈ main_cached.calls eff →
    wf = name ∧ a = main.Params args ∧
    (WorkflowIDReusePolicy options, WorkflowIDConflictPolicy options)
      = disposition (main.ForceRerun args) ∧
    TaskQueue options
    = match cfg with
      | Some cfg => if String.eqb (config.TaskQueue workflow) ""
                    then DefaultTaskQueue (Temporal cfg)
                    else config.TaskQueue workflow
      | None => config.TaskQueue workflow
      end ∧
    ∃ log,
      main_cached.computeWorkflowID workflow (main.Params args)
        = Some ((ID options, None), log).
Proof.
  unfold main_cached.registerWorkflowTool_handler. intros H options wf a Hin.
  repeat case_match; simplify_eq; cbn [main_cached.calls] in Hin;
    repeat (apply elem_of_cons in Hin as [Hin|Hin]; simplify_eq);
    try (by apply elem_of_nil in Hin);
    cbn [ID TaskQueue WorkflowIDReusePolicy WorkflowIDConflictPolicy].
  all: split; [done|]; split; [done|]; split; [done|]; split; [done|].
  all: by eexists.
Qed.

Lemma cached_start_request_contents_witness :
  main_cached.registerWorkflowTool_handler demo_error "wf"
    (recipe "id_{{ .one }}") (Some demo_client) (Some demo_cache) true
    (Some demo_config) 5000000000000%Z demo_force ∅
    = Some (NewToolResponse "done", demo_cached_effects) ∧
  ∀ options wf a,
    CallExecuteWorkflow options wf a ∈ main_cached.calls demo_cached_effects →
    wf = "wf" ∧ a = main.Params demo_force ∧
    (WorkflowIDReusePolicy options, WorkflowIDConflictPolicy options)
      = disposition (main.ForceRerun demo_force) ∧
    TaskQueue options
    = match Some demo_config with
      | Some cfg => if String.eqb (config.TaskQueue (recipe "id_{{ .one }}")) ""
                    then DefaultTaskQueue (Temporal cfg)
                    else config.TaskQueue (recipe "id_{{ .one }}")
      | None => config.TaskQueue (recipe "id_{{ .one }}")
      end ∧
    ∃ log,
      main_cached.computeWorkflowID (recipe "id_{{ .one }}")
        (main.Params demo_force)
        = Some ((ID options, None), log).
Proof.
  split; [vm_compute; reflexivity|].
  apply (cached_start_request_contents demo_error "wf"
           (recipe "id_{{ .one }}") (Some demo_client) (Some demo_cache) true
           (Some demo_config) 5000000000000%Z demo_force ∅
           (NewToolResponse "done") demo_cached_effects).
  vm_compute. reflexivity.
Defined.

End dependence_props.
